(** * Aztec prover statistics: scan-and-alert engine

    A shallow embedding of the JavaScript sources

    - [tg_bot.js]   (the Telegram bot, followed by the first HTTP server:
                     [RpcPool], [ProverClient]),
    - [part_000]    (the second HTTP server: [OptimizedRpcPool],
                     [OptimizedProverClient], [checkWatchlist]),
    - [prover.mjs]  ([getActiveProvers]),

    and the properties of the scan window, the aggregation, the endpoint
    fail-over, the result cache and the watchlist sweep.

    Modelling conventions.
    - JavaScript numbers that stay integral (epochs, look-back sizes,
      milliseconds) are [Z], and look-back sizes are taken to be integers.
      [Number(BigInt(hex))] rounds to binary64 ([Number]), and so do the
      two differences whose operands need not be small: the first epoch of
      the loop of [ProverClient] and the idle-epoch count of the sweep.
      [ethers.toBeHex] rejects an epoch above 2^53 - 1, so that the epochs
      a reward is asked for, and what is computed from them, are exact;
      [Array.from] rejects a window of more than 2^32 - 1 epochs.
      [BigInt] rewards are [Z] as well, so sums are exact.  The [Number]
      arithmetic of [prover.mjs], on [uint256] amounts, is IEEE-754
      binary64 and is modelled with [SpecFloat].
    - An [async] function is a computation in the monad [M]: it threads the
      process state [World] and either returns a value or throws.  A throw
      keeps the state reached so far, as in JavaScript.
    - [await]ed calls run one after the other.  The calls of one
      [Promise.all] batch are in flight together: each is a [Call] that the
      event loop resumes when its attempt completes or its pause is over,
      the earliest first.  One request or sweep is served at a time.
    - The chain is an oracle [respond]: the answer of endpoint [i] to a
      request at the [t]-th attempt of the process, or [None] when the
      attempt fails (transport error, timeout, revert); [latency] is the
      time the [t]-th attempt takes.
    - The cache of the second server holds the results that
      [scanParticipation] stores.  Its route [/scan-text], which keeps
      report texts in the same cache under keys of their own, is not part
      of the model.  The first server has no cache that a route reaches:
      the statements after its routes in [tg_bot.js] that mention one
      belong to no function. *)

From Stdlib Require Import ZArith Lia String Ascii List SpecFloat.
From stdpp Require Import gmap strings list pretty.

Local Open Scope string_scope.
Local Open Scope Z_scope.
Local Open Scope list_scope.

(** ** Requests, errors and the process state *)

(** The three contract calls.  The payload is the selector followed by the
    32-byte words of the arguments; the encoding itself is opaque here and
    a request is identified by its arguments.  [prover32] is the result of
    [ethers.zeroPadValue(prover, 32)]. *)
Inductive Request :=
| GetCurrentEpoch
| GetSpecificProverRewardsForEpoch (epoch : Z) (prover32 : string)
| GetSharesFor (prover32 : string).

Inductive Error :=
| RpcError          (* provider.call rejected, or lost the race with the timeout *)
| InvalidArgument   (* thrown by ethers.getAddress / ethers.zeroPadValue *)
| SyntaxError       (* BigInt of a string that is not a number *)
| TypeError         (* BigInt(undefined) *)
| RangeError        (* an array of more than 2^32 - 1 elements *)
| OutOfFuel.        (* only for the fuel of the embedding; shown unreachable *)

Inductive Outcome (A : Type) :=
| Ok (a : A)
| Throw (e : Error).
Arguments Ok {A} a.
Arguments Throw {A} e.

(** One [provider.call]: the endpoint it went to, the request, the answer. *)
Record Attempt := mkAttempt {
  endpoint : nat;
  request : Request;
  answer : option string
}.

Record ScanResult := mkScanResult {
  prover : string;
  currentEpoch : Z;
  lastEpochParticipated : option Z;      (* null = None *)
  participatedCountWindow : Z;
  totalRewardsWindow : Z;                (* BigInt *)
  isActiveNow : bool;
  window : Z;
  fetched : Z                            (* fetchedAt / fetchTime *)
}.

Record WatchEntry := mkWatchEntry {
  watched : string;                      (* entry.prover *)
  lastNotifiedEpoch : option Z
}.

(** [console.log("[ALERT] ...")] of [checkWatchlist]. *)
Record Alert := mkAlert {
  alertChat : string;
  alertProver : string;
  alertIdle : Z;
  alertEpoch : Z
}.

Record World := mkWorld {
  index : nat;                           (* pool.index / pool.currentIndex *)
  attempts : list Attempt;               (* every provider.call so far, oldest first *)
  now : Z;                               (* Date.now() *)
  cache : gmap string (ScanResult * Z);  (* NodeCache: the entries of scanParticipation, value and expiry time *)
  watchlist : list (string * WatchEntry);(* Map chatId -> entry, insertion order *)
  alerts : list Alert                    (* alerts logged so far, oldest first *)
}.

(** What the process is configured with and what it talks to. *)
Record Env := mkEnv {
  rpcUrls : list string;                           (* SEPOLIA_RPCS, split and trimmed *)
  respond : nat → nat → Request → option string;   (* attempt number, endpoint, request *)
  latency : nat → Z;                               (* duration of the t-th attempt *)
  getAddress : string → option string;             (* ethers.getAddress; None = throws *)
  zeroPadValue32 : string → option string          (* ethers.zeroPadValue(_, 32) *)
}.

Definition set_index (i : nat) (w : World) : World :=
  mkWorld i (attempts w) (now w) (cache w) (watchlist w) (alerts w).
Definition set_now (t : Z) (w : World) : World :=
  mkWorld (index w) (attempts w) t (cache w) (watchlist w) (alerts w).
Definition set_cache (c : gmap string (ScanResult * Z)) (w : World) : World :=
  mkWorld (index w) (attempts w) (now w) c (watchlist w) (alerts w).
Definition set_watchlist (l : list (string * WatchEntry)) (w : World) : World :=
  mkWorld (index w) (attempts w) (now w) (cache w) l (alerts w).
Definition push_attempt (a : Attempt) (dt : Z) (w : World) : World :=
  mkWorld (index w) (attempts w ++ [a]) (now w + dt) (cache w) (watchlist w) (alerts w).
Definition log_attempt (a : Attempt) (w : World) : World :=
  mkWorld (index w) (attempts w ++ [a]) (now w) (cache w) (watchlist w) (alerts w).
Definition push_alert (a : Alert) (w : World) : World :=
  mkWorld (index w) (attempts w) (now w) (cache w) (watchlist w) (alerts w ++ [a]).

(** ** The monad of [async] functions *)

Definition M (A : Type) : Type := World → Outcome A * World.

Definition ret {A} (a : A) : M A := λ w, (Ok a, w).
Definition throw {A} (e : Error) : M A := λ w, (Throw e, w).
Definition bind {A B} (c : M A) (k : A → M B) : M B :=
  λ w, match c w with
       | (Ok a, w') => k a w'
       | (Throw e, w') => (Throw e, w')
       end.
(** [try { c } catch (e) { h e }] *)
Definition catch {A} (c : M A) (h : Error → M A) : M A :=
  λ w, match c w with
       | (Ok a, w') => (Ok a, w')
       | (Throw e, w') => h e w'
       end.
(** A synchronous library call that may throw. *)
Definition lift {A} (o : option A) (e : Error) : M A :=
  match o with Some a => ret a | None => throw e end.

Notation "'let*' x ':=' c 'in' k" := (bind c (λ x, k))
  (at level 10, x name, c at level 100, k at level 200).
Notation "c ';;' k" := (bind c (λ _, k))
  (at level 100, k at level 200, right associativity).

(** [await sleep(ms)]: a timer with a negative delay fires at once. *)
Definition sleep (ms : Z) : M unit := λ w, (Ok tt, set_now (now w + Z.max 0 ms) w).

(** The attempts a computation added to the log. *)
Definition issued (w w' : World) : list Attempt :=
  drop (length (attempts w)) (attempts w').

(** ** JavaScript coercions *)

Definition hex_digit (c : ascii) : option Z :=
  let n := Z.of_nat (nat_of_ascii c) in
  if ((48 <=? n) && (n <=? 57))%Z then Some (n - 48)
  else if ((97 <=? n) && (n <=? 102))%Z then Some (n - 87)
  else if ((65 <=? n) && (n <=? 70))%Z then Some (n - 55)
  else None.

Fixpoint hex_value (acc : Z) (s : string) : option Z :=
  match s with
  | EmptyString => Some acc
  | String c s' =>
      match hex_digit c with
      | Some d => hex_value (16 * acc + d) s'
      | None => None
      end
  end.

(** [BigInt(hex)] on what a provider returns: the characters [0x] followed
    by hexadecimal digits.  [BigInt("0x")] is a SyntaxError and the empty
    string is [0n].  Decimal, octal and binary literals and white space do
    not come back from [provider.call]; they are rejected here. *)
Definition BigInt (s : string) : option Z :=
  match s with
  | EmptyString => Some 0
  | String "0" (String "x" (String c s')) => hex_value 0 (String c s')
  | String "0" (String "X" (String c s')) => hex_value 0 (String c s')
  | _ => None
  end.

(** [hex || "0x0"]: [undefined] ([None]) and the empty string are falsy. *)
Definition or_0x0 (hex : option string) : string :=
  match hex with
  | Some (String c s) => String c s
  | _ => "0x0"
  end.

(** [Number(n)] of a BigInt [n]: the nearest binary64, ties to even.
    Integers up to 2^53 are kept; above, the 53 leading bits are.  (The
    range where binary64 overflows starts near 2^1024, far above a
    [uint256].) *)
Definition Number (n : Z) : Z :=
  let a := Z.abs n in
  let e := Z.log2 a - 52 in
  if (e <=? 0)%Z then n else
  let q := a / 2 ^ e in
  let r := a mod 2 ^ e in
  let half := 2 ^ (e - 1) in
  let q' := if (half <? r) || ((r =? half) && Z.odd q) then q + 1 else q in
  Z.sgn n * (q' * 2 ^ e).

(** [Number.MAX_SAFE_INTEGER]: [ethers.toBeHex] throws on a number that is
    negative or above it. *)
Definition MAX_SAFE_INTEGER : Z := 2 ^ 53 - 1.

Definition toBeHex_throws (epoch : Z) : bool :=
  (epoch <? 0)%Z || (MAX_SAFE_INTEGER <? epoch)%Z.

(** [currentEpoch - lastEpochParticipated] in JavaScript: [null] is 0. *)
Definition toNumber (v : option Z) : Z :=
  match v with Some n => n | None => 0 end.

(** The three accumulators of a scan: [totalRewards], [participatedCount]
    and [lastEpochParticipated]. *)
Record Acc := mkAcc {
  totalRewards : Z;
  participatedCount : Z;
  lastEpoch : option Z
}.

Fixpoint mapM {A B} (f : A → M B) (l : list A) : M (list B) :=
  match l with
  | [] => ret []
  | x :: l' =>
      let* y := f x in
      let* ys := mapM f l' in
      ret (y :: ys)
  end.

(** ** One attempt against the active endpoint *)

(** [this.provider.call(req)], where [this.provider] is the provider of
    [urls[index]].  In [part_000] the call races a timer of [RPC_TIMEOUT]
    ms; a lost race is a failed attempt like any other. *)
Definition provider_call (env : Env) (req : Request) : M string := λ w,
  let t := length (attempts w) in
  let a := respond env t (index w) req in
  let w' := push_attempt (mkAttempt (index w) req a) (latency env t) w in
  match a with
  | Some hex => (Ok hex, w')
  | None => (Throw RpcError, w')
  end.

Definition default_urls : list string :=
  [ "https://1rpc.io/sepolia";
    "https://ethereum-sepolia-rpc.publicnode.com";
    "https://sepolia.mztacat.xyz/geth/" ].

(** ** tg_bot.js, second part: RpcPool and ProverClient *)

Module RpcPool.
Section WithEnv.
Variable env : Env.

(** constructor: [(urls || []).filter(Boolean)], the defaults when that
    is empty; [index = 0]. *)
Definition urls : list string :=
  match filter (λ u, u ≠ "") (rpcUrls env) with
  | [] => default_urls
  | l => l
  end.

Definition rotate : M unit := λ w,
  (Ok tt, set_index ((index w + 1) mod length urls)%nat w).

(** [safeCall(req, attempt = 0)].  The recursion stops because [attempt]
    grows up to [urls.length - 1]; [fuel] bounds it for Rocq. *)
Fixpoint safeCall_from (fuel : nat) (req : Request) (attempt : nat) : M string :=
  catch (provider_call env req) (λ e,
    if (attempt <? length urls - 1)%nat then
      match fuel with
      | O => throw OutOfFuel
      | S fuel' =>
          rotate ;;
          sleep 200 ;;
          safeCall_from fuel' req (attempt + 1)
      end
    else throw e).

Definition safeCall (req : Request) : M string :=
  safeCall_from (length urls) req 0.
End WithEnv.
End RpcPool.

Module ProverClient.
Section WithEnv.
Variable env : Env.

(** [Number(BigInt(hex))] *)
Definition getCurrentEpoch : M Z :=
  let* hex := RpcPool.safeCall env GetCurrentEpoch in
  let* n := lift (BigInt hex) SyntaxError in
  ret (Number n).

(** [ethers.toBeHex(epoch)] throws on a number that is negative or not
    safe, and [ethers.zeroPadValue(prover, 32)] on a string that is not
    hex data of at most 32 bytes; both happen before the call is sent. *)
Definition getRewardForEpoch (epoch : Z) (prover : string) : M Z :=
  if toBeHex_throws epoch then throw InvalidArgument else
  let* p32 := lift (zeroPadValue32 env prover) InvalidArgument in
  let* hex := RpcPool.safeCall env (GetSpecificProverRewardsForEpoch epoch p32) in
  lift (BigInt (or_0x0 (Some hex))) SyntaxError.

Definition getSharesFor (prover : string) : M Z :=
  let* p32 := lift (zeroPadValue32 env prover) InvalidArgument in
  let* hex := RpcPool.safeCall env (GetSharesFor p32) in
  lift (BigInt (or_0x0 (Some hex))) SyntaxError.

(** The body of [if (r > 0n) { ... }]. *)
Definition record_reward (e r : Z) (acc : Acc) : Acc :=
  if (0 <? r)%Z then
    mkAcc (totalRewards acc + r) (participatedCount acc + 1)
          (match lastEpoch acc with None => Some e | Some l => Some l end)
  else acc.

(** [for (let e = currentEpoch; e >= start; e--) { ... }] *)
Fixpoint scan_loop (fuel : nat) (prover : string) (delayMs : Z)
    (start e : Z) (acc : Acc) : M Acc :=
  if (start <=? e)%Z then
    match fuel with
    | O => throw OutOfFuel
    | S fuel' =>
        let* r := getRewardForEpoch e prover in
        let acc' := record_reward e r acc in
        (if (delayMs =? 0)%Z then ret tt else sleep delayMs) ;;
        scan_loop fuel' prover delayMs start (e - 1) acc'
    end
  else ret acc.

(** [scanParticipation(prover, lookback, delayMs = 120)].  [start] is a
    binary64 difference.  The object literal evaluates
    [ethers.getAddress(prover)] first and the timestamp last. *)
Definition scanParticipation (prover : string) (lookback delayMs : Z) : M ScanResult :=
  let* currentEpoch := getCurrentEpoch in
  let start := Z.max 0 (Number (currentEpoch - lookback)) in
  let* acc := scan_loop (Z.to_nat (currentEpoch - start + 1)) prover delayMs
                        start currentEpoch (mkAcc 0 0 None) in
  let isActiveNow := (currentEpoch - toNumber (lastEpoch acc) <? 6)%Z in
  let* addr := lift (getAddress env prover) InvalidArgument in
  λ w, (Ok (mkScanResult addr currentEpoch (lastEpoch acc) (participatedCount acc)
                         (totalRewards acc) isActiveNow lookback (now w)), w).
End WithEnv.
End ProverClient.

(** ** part_000: NodeCache, OptimizedRpcPool, OptimizedProverClient *)

(** [new NodeCache({ stdTTL: CACHE_TTL, checkperiod: 30, useClones: false })]
    of the node-cache package: [set] stamps the entry with
    [Date.now() + stdTTL * 1000]; [get] returns the stored object unless the
    stamp is not 0 and in the past, in which case it deletes the entry.  The
    periodic check only deletes entries that [get] would not return. *)
Module NodeCache.
Definition CACHE_TTL : Z := 60.

Definition get (key : string) : M (option ScanResult) := λ w,
  match cache w !! key with
  | Some (v, t) =>
      if (negb (t =? 0) && (t <? now w))%Z
      then (Ok None, set_cache (delete key (cache w)) w)
      else (Ok (Some v), w)
  | None => (Ok None, w)
  end.

Definition set (key : string) (v : ScanResult) : M unit := λ w,
  (Ok tt, set_cache (<[key := (v, now w + CACHE_TTL * 1000)]> (cache w)) w).
End NodeCache.

Module OptimizedRpcPool.
Section WithEnv.
Variable env : Env.

(** constructor: [urls?.length ? urls : defaults]; [currentIndex = 0]. *)
Definition urls : list string :=
  match rpcUrls env with
  | [] => default_urls
  | l => l
  end.

(** [await this.provider.ready] does not reject. *)
Definition rotate : M unit := λ w,
  (Ok tt, set_index ((index w + 1) mod length urls)%nat w).

(** [for (let i = 0; i < retries; i++) { try ... catch ... }]; the loop
    has [remaining = retries - i] rounds left.  Leaving the loop returns
    [undefined]. *)
Fixpoint callWithRetry_loop (remaining : nat) (req : Request) (retries i : nat)
    : M (option string) :=
  match remaining with
  | O => ret None
  | S remaining' =>
      catch (let* hex := provider_call env req in ret (Some hex)) (λ err,
        if (i <? retries - 1)%nat then
          rotate ;;
          sleep 1000 ;;
          callWithRetry_loop remaining' req retries (i + 1)
        else throw err)
  end.

(** [callWithRetry(req, retries = 3)], awaited on its own. *)
Definition callWithRetry (req : Request) (retries : nat) : M (option string) :=
  callWithRetry_loop retries req retries 0.
End WithEnv.

(** [callWithRetry] as one of several calls in flight.  A call is at an
    [await]: of the attempt of round [i], which went to the endpoint that
    was active when it was sent and completes at [due] with [answer]; or of
    the [sleep(1000)] that follows the rotation after the failure of round
    [i]; or it has settled. *)
Inductive Call :=
| InFlight (i : nat) (answer : option string) (due : Z)
| Pausing (i : nat) (due : Z)
| Returned (hex : string)
| Thrown.

Section InFlightTogether.
Variable env : Env.

(** [this.provider.call(req)] of round [i], not yet awaited. *)
Definition send (req : Request) (i : nat) : World → Call * World := λ w,
  let t := length (attempts w) in
  let a := respond env t (index w) req in
  (InFlight i a (now w + latency env t), log_attempt (mkAttempt (index w) req a) w).

(** The call goes on when what it waits for has happened: the body of the
    loop from the [await] to the next one. *)
Definition resume (req : Request) (retries : nat) (c : Call) : World → Call * World := λ w,
  match c with
  | InFlight i answer due =>
      let w1 := set_now (Z.max (now w) due) w in
      match answer with
      | Some hex => (Returned hex, w1)
      | None =>
          if (i <? retries - 1)%nat
          then (Pausing i (now w1 + 1000),
                set_index ((index w1 + 1) mod length (urls env))%nat w1)
          else (Thrown, w1)
      end
  | Pausing i due => send req (i + 1) (set_now (Z.max (now w) due) w)
  | Returned hex => (Returned hex, w)
  | Thrown => (Thrown, w)
  end.
End InFlightTogether.
End OptimizedRpcPool.

Module OptimizedProverClient.
Section WithEnv.
Variable env : Env.

Definition BATCH_SIZE : nat := 50.
Definition EPOCH_DELAY : Z := 50.

(** [Number(BigInt(hex))]; [BigInt(undefined)] is a TypeError. *)
Definition getCurrentEpoch : M Z :=
  let* hex := OptimizedRpcPool.callWithRetry env GetCurrentEpoch 3 in
  match hex with
  | Some h => let* n := lift (BigInt h) SyntaxError in ret (Number n)
  | None => throw TypeError
  end.

(** The first loop of [getBatchRewards]: slices of [batchSize] epochs,
    with a pause after every slice but the last.  [i] grows by
    [batchSize] each round; [fuel] bounds the rounds for Rocq. *)
Fixpoint split_batches (fuel : nat) (batchSize : nat) (epochs : list Z) (i : nat)
    : M (list (list Z)) :=
  if (i <? length epochs)%nat then
    match fuel with
    | O => throw OutOfFuel
    | S fuel' =>
        let batch := take batchSize (drop i epochs) in
        (if (i + batchSize <? length epochs)%nat then sleep EPOCH_DELAY else ret tt) ;;
        let* rest := split_batches fuel' batchSize epochs (i + batchSize) in
        ret (batch :: rest)
    end
  else ret [].

(** One element of [batch.map(e => ({ to, data }))]. *)
Definition reward_call (prover : string) (e : Z) : M Request :=
  if toBeHex_throws e then throw InvalidArgument else
  let* p32 := lift (zeroPadValue32 env prover) InvalidArgument in
  ret (GetSpecificProverRewardsForEpoch e p32).

(** When the event of a call is due. *)
Definition due_of (c : OptimizedRpcPool.Call) : option Z :=
  match c with
  | OptimizedRpcPool.InFlight _ _ due => Some due
  | OptimizedRpcPool.Pausing _ due => Some due
  | _ => None
  end.

(** The call the event loop resumes next: the one whose event is due
    first, the first of the array among those due together. *)
Fixpoint next_call (calls : list (Request * OptimizedRpcPool.Call)) : option (nat * Z) :=
  match calls with
  | [] => None
  | (_, c) :: rest =>
      match due_of c, next_call rest with
      | Some d, Some (k, d') => if (d <=? d')%Z then Some (O, d) else Some (S k, d')
      | Some d, None => Some (O, d)
      | None, Some (k, d') => Some (S k, d')
      | None, None => None
      end
  end.

(** [calls.map(call => this.rpc.callWithRetry(call)...)]: every call runs
    up to its first [await], so the first attempts are sent one after the
    other, in array order, to the endpoint that is active. *)
Fixpoint start_calls (calls : list Request)
    : World → list (Request * OptimizedRpcPool.Call) * World := λ w,
  match calls with
  | [] => ([], w)
  | req :: rest =>
      let '(c, w1) := OptimizedRpcPool.send env req 0 w in
      let '(cs, w2) := start_calls rest w1 in
      ((req, c) :: cs, w2)
  end.

(** The event loop while the batch is awaited.  Every call settles after
    at most five events; [fuel] bounds the events for Rocq. *)
Fixpoint event_loop (fuel : nat) (calls : list (Request * OptimizedRpcPool.Call))
    : M (list (Request * OptimizedRpcPool.Call)) :=
  match next_call calls with
  | None => ret calls
  | Some (k, _) =>
      match fuel, calls !! k with
      | S fuel', Some (req, c) =>
          λ w, let '(c', w') := OptimizedRpcPool.resume env req 3 c w in
               event_loop fuel' (<[k := (req, c')]> calls) w'
      | _, _ => throw OutOfFuel
      end
  end.

(** [.catch(() => "0x0")] on the settled call. *)
Definition or_0x0_caught (c : OptimizedRpcPool.Call) : option string :=
  match c with
  | OptimizedRpcPool.Returned hex => Some hex
  | _ => Some "0x0"
  end.

(** [await Promise.all(calls.map(call =>
       this.rpc.callWithRetry(call).catch(() => "0x0")))] *)
Definition Promise_all (calls : list Request) : M (list (option string)) := λ w,
  let '(started, w1) := start_calls calls w in
  (let* settled := event_loop (5 * length calls) started in
   ret ((λ rc, or_0x0_caught (snd rc)) <$> settled)) w1.

(** The body of [for (const batch of batches)]. *)
Definition batch_rewards (prover : string) (batch : list Z) : M (list Z) :=
  let* calls := mapM (reward_call prover) batch in
  let* batchResults := Promise_all calls in
  mapM (λ r, lift (BigInt (or_0x0 r)) SyntaxError) batchResults.

(** [getBatchRewards(epochs, prover)].  The batch size is the constant
    [BATCH_SIZE] of the file; it is a parameter here so that properties
    can be stated for every batch size. *)
Definition getBatchRewards (batchSize : nat) (epochs : list Z) (prover : string)
    : M (list Z) :=
  let* batches := split_batches (length epochs) batchSize epochs 0 in
  let* results := mapM (batch_rewards prover) batches in
  ret (concat results).

(** The callback of [rewards.forEach((r, i) => ...)]. *)
Definition forEach_reward (epochs : list Z) (acc : Acc) (ir : nat * Z) : Acc :=
  let '(i, r) := ir in
  if (0 <? r)%Z then
    mkAcc (totalRewards acc + r) (participatedCount acc + 1)
          (match lastEpoch acc with None => epochs !! i | Some l => Some l end)
  else acc.

Definition aggregate (rewards epochs : list Z) : Acc :=
  fold_left (forEach_reward epochs) (zip (seq 0 (length rewards)) rewards) (mkAcc 0 0 None).

(** [`scan-${prover}-${lookback}`] for an integral [lookback]. *)
Definition cacheKey (prover : string) (lookback : Z) : string :=
  "scan-" +:+ prover +:+ "-" +:+ pretty lookback.

(** [Array.from({ length: Math.min(lookback, currentEpoch) },
                (_, i) => currentEpoch - i)]; a negative length is 0. *)
Definition window_epochs (lookback currentEpoch : Z) : list Z :=
  map (λ i, currentEpoch - Z.of_nat i) (seq 0 (Z.to_nat (Z.min lookback currentEpoch))).

(** [Array.from({ length }, ...)] throws when it is asked for more than
    2^32 - 1 elements. *)
Definition MAX_ARRAY_LENGTH : Z := 2 ^ 32 - 1.

Definition Array_from_length (length : Z) : M unit :=
  if (MAX_ARRAY_LENGTH <? length)%Z then throw RangeError else ret tt.

Definition scanParticipation (batchSize : nat) (prover : string) (lookback : Z)
    : M ScanResult :=
  let* cached := NodeCache.get (cacheKey prover lookback) in
  match cached with
  | Some result => ret result
  | None =>
      let* startTime := (λ w, (Ok (now w), w)) in
      let* currentEpoch := getCurrentEpoch in
      Array_from_length (Z.min lookback currentEpoch) ;;
      let epochs := window_epochs lookback currentEpoch in
      let* rewards := getBatchRewards batchSize epochs prover in
      let acc := aggregate rewards epochs in
      let* addr := lift (getAddress env prover) InvalidArgument in
      let isActiveNow :=
        match lastEpoch acc with
        | Some l => (currentEpoch - l <? 6)%Z
        | None => false
        end in
      let* endTime := (λ w, (Ok (now w), w)) in
      let result := mkScanResult addr currentEpoch (lastEpoch acc) (participatedCount acc)
                                 (totalRewards acc) isActiveNow lookback
                                 (endTime - startTime) in
      NodeCache.set (cacheKey prover lookback) result ;;
      ret result
  end.

(** ** part_000: the watchlist sweep *)

(** [watchlist.set(chatId, entry)]: an existing key keeps its place. *)
Definition watchlist_set (chatId : string) (entry : WatchEntry)
    (l : list (string * WatchEntry)) : list (string * WatchEntry) :=
  if existsb (λ p, bool_decide (fst p = chatId)) l
  then map (λ p, if bool_decide (fst p = chatId) then (chatId, entry) else p) l
  else l ++ [(chatId, entry)].

(** [stats.lastEpochParticipated === null ? currentEpoch :
    currentEpoch - stats.lastEpochParticipated], a binary64 difference. *)
Definition idleEpochs_of (currentEpoch : Z) (stats : ScanResult) : Z :=
  match lastEpochParticipated stats with
  | None => currentEpoch
  | Some l => Number (currentEpoch - l)
  end.

(** [entry.lastNotifiedEpoch !== currentEpoch] *)
Definition not_notified_at (currentEpoch : Z) (entry : WatchEntry) : bool :=
  match lastNotifiedEpoch entry with
  | Some e => negb (e =? currentEpoch)%Z
  | None => true
  end.

(** The body of the loop over [watchlist.entries()]. *)
Definition check_entry (batchSize : nat) (currentEpoch : Z)
    (item : string * WatchEntry) : M unit :=
  let '(chatId, entry) := item in
  catch
    (let* stats := scanParticipation batchSize (watched entry) 600 in
     let idleEpochs := idleEpochs_of currentEpoch stats in
     if (6 <=? idleEpochs)%Z && not_notified_at currentEpoch entry then
       λ w, (Ok tt,
             set_watchlist
               (watchlist_set chatId (mkWatchEntry (watched entry) (Some currentEpoch))
                              (watchlist w))
               (push_alert (mkAlert chatId (watched entry) idleEpochs currentEpoch) w))
     else ret tt)
    (λ _, ret tt) ;;
  sleep 1000.

Definition checkWatchlist (batchSize : nat) : M unit := λ w,
  match watchlist w with
  | [] => (Ok tt, w)
  | entries =>
      (let* currentEpoch := getCurrentEpoch in
       mapM (check_entry batchSize currentEpoch) entries ;;
       ret tt) w
  end.
End WithEnv.
End OptimizedProverClient.

(** ** tg_bot.js, first part: the monitoring loop of the bot *)

(** The bot talks to the HTTP server at [SERVER_URL]; the server is an
    oracle indexed by the number of requests sent so far. *)
Module Bot.
Record Server := mkServer {
  scan : nat → string → option Z;        (* GET /scan: data.currentEpoch; None = failure or no such field *)
  scanText : nat → string → option string (* GET /scan-text: the report; None = failure *)
}.

Inductive Message :=
| NoParticipation (chatId : Z) (addr : string)
| IdleAlert (chatId : Z) (addr : string) (idleEpochs : Z).

Definition is_digit (c : ascii) : bool :=
  let n := nat_of_ascii c in (48 <=? n)%nat && (n <=? 57)%nat.

Fixpoint leading_digits (s : string) : string :=
  match s with
  | String c s' => if is_digit c then String c (leading_digits s') else EmptyString
  | EmptyString => EmptyString
  end.

Fixpoint strip_prefix (p s : string) : option string :=
  match p, s with
  | EmptyString, _ => Some s
  | String a p', String b s' => if bool_decide (a = b) then strip_prefix p' s' else None
  | String _ _, EmptyString => None
  end.

Definition match_here (s : string) : option string :=
  match strip_prefix "Last Epoch Participated: " s with
  | Some rest =>
      match leading_digits rest with
      | EmptyString => None
      | digits => Some digits
      end
  | None => None
  end.

(** [statusText.match(/Last Epoch Participated: (\d+)/)]: the group of
    the leftmost match. *)
Fixpoint lastEpochMatch (s : string) : option string :=
  match match_here s with
  | Some digits => Some digits
  | None =>
      match s with
      | EmptyString => None
      | String _ s' => lastEpochMatch s'
      end
  end.

(** [parseInt] of a string of decimal digits. *)
Fixpoint parseInt_from (acc : Z) (digits : string) : Z :=
  match digits with
  | EmptyString => acc
  | String c s' => parseInt_from (10 * acc + Z.of_nat (nat_of_ascii c) - 48) s'
  end.
Definition parseInt (digits : string) : Z := parseInt_from 0 digits.

(** The body of [for (const addr of proverAddresses)], from request
    number [t] on: the messages sent and the next request number.  A
    failed request is caught and logged. *)
Definition check_address (srv : Server) (THRESH_IDLE currentEpoch : Z)
    (chatId : Z) (addr : string) (t : nat) : list Message * nat :=
  match scanText srv t addr with
  | None => ([], S t)
  | Some statusText =>
      match lastEpochMatch statusText with
      | None => ([NoParticipation chatId addr], S t)
      | Some digits =>
          let idleEpochs := currentEpoch - parseInt digits in
          (if (THRESH_IDLE <=? idleEpochs)%Z then [IdleAlert chatId addr idleEpochs] else [],
           S t)
      end
  end.

Fixpoint check_addresses (srv : Server) (THRESH_IDLE currentEpoch : Z)
    (chatId : Z) (addrs : list string) (t : nat) : list Message * nat :=
  match addrs with
  | [] => ([], t)
  | addr :: rest =>
      let '(m1, t1) := check_address srv THRESH_IDLE currentEpoch chatId addr t in
      let '(m2, t2) := check_addresses srv THRESH_IDLE currentEpoch chatId rest t1 in
      (m1 ++ m2, t2)
  end.

Fixpoint check_chats (srv : Server) (THRESH_IDLE currentEpoch : Z)
    (chats : list (Z * list string)) (t : nat) : list Message * nat :=
  match chats with
  | [] => ([], t)
  | (chatId, addrs) :: rest =>
      let '(m1, t1) := check_addresses srv THRESH_IDLE currentEpoch chatId addrs t in
      let '(m2, t2) := check_chats srv THRESH_IDLE currentEpoch rest t1 in
      (m1 ++ m2, t2)
  end.

(** [monitorOnce()]: [watchlist] maps a chat to its set of addresses. *)
Definition monitorOnce (srv : Server) (THRESH_IDLE : Z)
    (watchlist : list (Z * list string)) (t : nat) : list Message * nat :=
  match watchlist with
  | [] => ([], t)
  | (_, []) :: _ => ([], S t)
  | (_, sampleProver :: _) :: _ =>
      match scan srv t sampleProver with
      | None => ([], S t)
      | Some currentEpoch =>
          if (currentEpoch =? 0)%Z then ([], S t)
          else check_chats srv THRESH_IDLE currentEpoch watchlist (S t)
      end
  end.
End Bot.

(** ** prover.mjs *)

Module Prover.
(** An event: the indexed address and the [uint256] amount. *)
Record Log := mkLog {
  user : string;
  amount : Z
}.

Definition lower (c : ascii) : ascii :=
  let n := nat_of_ascii c in
  if (65 <=? n)%nat && (n <=? 90)%nat then ascii_of_nat (n + 32) else c.

Fixpoint toLowerCase (s : string) : string :=
  match s with
  | EmptyString => EmptyString
  | String c s' => String (lower c) (toLowerCase s')
  end.

(** [Number(bigint)]: the nearest binary64, ties to even. *)
Definition Number (n : Z) : spec_float := binary_normalize 53 1024 n 0 false.

Definition plus (x y : spec_float) : spec_float := SFadd 53 1024 x y.
Definition minus (x y : spec_float) : spec_float := SFsub 53 1024 x y.

(** [balances.get(addr) || 0]: [undefined], [0], [-0] and [NaN] are falsy. *)
Definition or_0 (v : option spec_float) : spec_float :=
  match v with
  | Some (S754_zero _) | Some S754_nan | None => S754_zero false
  | Some f => f
  end.

Definition credit (balances : gmap string spec_float) (log : Log) : gmap string spec_float :=
  let addr := toLowerCase (user log) in
  <[addr := plus (or_0 (balances !! addr)) (Number (amount log))]> balances.

Definition debit (balances : gmap string spec_float) (log : Log) : gmap string spec_float :=
  let addr := toLowerCase (user log) in
  <[addr := minus (or_0 (balances !! addr)) (Number (amount log))]> balances.

(** [getActiveProvers()], as a function of the three [queryFilter] results. *)
Definition getActiveProvers (stakedLogs withdrawnLogs slashedLogs : list Log) : nat :=
  let balances := fold_left credit stakedLogs ∅ in
  let balances := fold_left debit withdrawnLogs balances in
  let balances := fold_left debit slashedLogs balances in
  length (filter (λ bal, SFltb (S754_zero false) bal = true) (snd <$> map_to_list balances)).
End Prover.

(** ** The HTTP routes and the report *)

(** [lines.join("\n")] *)
Definition newline : string := String (ascii_of_nat 10) EmptyString.

Fixpoint join_lines (lines : list string) : string :=
  match lines with
  | [] => EmptyString
  | [line] => line
  | line :: rest => line +:+ newline +:+ join_lines rest
  end.

(** The values a route puts into a JSON body. *)
Inductive JsValue :=
| JsString (s : string)
| JsNumber (n : Z)
| JsBigInt (n : Z)
| JsBool (b : bool)
| JsDate (t : Z)        (* new Date(t).toISOString() *)
| JsNull
| JsUndefined.

Inductive Reason :=
| MissingParameter      (* a 400 with a fixed message *)
| Thrown (e : Error).   (* the message of what was caught *)

Inductive Body :=
| Payload (fields : list (string * JsValue))
| Failure (reason : Reason)
| Text (text : string).

Record Reply := mkReply {
  status : Z;
  body : Body
}.

(** A field of a JSON request body as the routes look at it: a string, or
    any other value (a number, a boolean, [null], an array, an object, or
    [undefined] when the body has no such field), which is given by what
    [!v] and [String(v)] make of it. *)
Inductive Field :=
| Str (s : string)
| NotString (truthy : bool) (shown : string).

(** [!v] is false *)
Definition truthy (v : Field) : bool :=
  match v with
  | Str s => bool_decide (s ≠ "")
  | NotString t _ => t
  end.


Definition is_BigInt (v : JsValue) : bool :=
  match v with JsBigInt _ => true | _ => false end.

(** [res.json(payload)] serialises with [JSON.stringify], which throws a
    TypeError on a BigInt. *)
Definition res_json (fields : list (string * JsValue)) : M Reply :=
  if existsb (λ f, is_BigInt (snd f)) fields then throw TypeError
  else ret (mkReply 200 (Payload fields)).

(** [try { ... } catch (e) { res.status(500)... }] around a route. *)
Definition route (c : M Reply) : World → Reply * World := λ w,
  match c w with
  | (Ok r, w') => (r, w')
  | (Throw e, w') => (mkReply 500 (Failure (Thrown e)), w')
  end.

(** [lastEpochParticipated == null ? null : currentEpoch - lastEpochParticipated] *)
Definition idleEpochs_of_stats (stats : ScanResult) : option Z :=
  match lastEpochParticipated stats with
  | None => None
  | Some l => Some (currentEpoch stats - l)
  end.

(** The last line of the report. *)
Definition idle_text (stats : ScanResult) (epochHours : Z) : string :=
  match idleEpochs_of_stats stats with
  | None => "N/A"
  | Some idleEpochs =>
      pretty (idleEpochs * epochHours) +:+ "h (~" +:+ pretty idleEpochs +:+ " epoch"
      +:+ (if (idleEpochs =? 1)%Z then "" else "s") +:+ ")"
  end.

(** tg_bot.js, second part: [formatProverMessage] and the routes [/scan]
    and [/scan-text].  A query parameter is [None] when it is absent; the
    prover is the empty string when it is. *)
Module Server.
Definition formatProverMessage (stats : ScanResult) (epochHours : Z) (shares : option Z)
    : string :=
  join_lines
    ([ "🔷 PROVER NODE DETAILS 🔷";
       "";
       (if isActiveNow stats then "🟢" else "🔴") +:+ " Status: "
         +:+ (if isActiveNow stats then "Actively proving" else "Idle");
       "";
       "📋 BASIC INFO";
       "🔑 Prover: " +:+ prover stats;
       "🔢 Current Epoch: " +:+ pretty (currentEpoch stats);
       "🔢 Last Epoch Participated: "
         +:+ (match lastEpochParticipated stats with Some l => pretty l | None => "—" end);
       "🪪 Look-back Window: last " +:+ pretty (window stats) +:+ " epochs" ]
     ++ (match shares with Some s => ["🧩 Current Shares: " +:+ pretty s] | None => [] end)
     ++ [ "";
          "📊 PARTICIPATION";
          "✅ Epochs Participated : " +:+ pretty (participatedCountWindow stats);
          "💰 Rewards (window): " +:+ pretty (totalRewardsWindow stats);
          "⏱️ Time Since Last Proof: " +:+ idle_text stats epochHours ]).

(** [{ ...stats, shares }] *)
Definition scan_payload (stats : ScanResult) (shares : JsValue) : list (string * JsValue) :=
  [ ("prover", JsString (prover stats));
    ("currentEpoch", JsNumber (currentEpoch stats));
    ("lastEpochParticipated",
       match lastEpochParticipated stats with Some l => JsNumber l | None => JsNull end);
    ("participatedCountWindow", JsNumber (participatedCountWindow stats));
    ("totalRewardsWindow", JsBigInt (totalRewardsWindow stats));
    ("isActiveNow", JsBool (isActiveNow stats));
    ("window", JsNumber (window stats));
    ("fetchedAt", JsDate (fetched stats));
    ("shares", shares) ].

Section WithEnv.
Variable env : Env.

(** [let shares = null; try { shares = await client.getSharesFor(prover); } catch {}] *)
Definition try_shares (prover : string) : M (option Z) :=
  catch (let* s := ProverClient.getSharesFor env prover in ret (Some s)) (λ _, ret None).

(** [app.get("/scan", ...)]; [shares ? shares.toString() : null] is null
    for [0n] as well. *)
Definition scan_route (prover : string) (lookback delayMs epochHours : option Z)
    : World → Reply * World :=
  match prover with
  | EmptyString => λ w, (mkReply 400 (Failure MissingParameter), w)
  | _ =>
      route
        (let* stats := ProverClient.scanParticipation env prover (default 600 lookback)
                                                      (default 120 delayMs) in
         let* shares := try_shares prover in
         let shown := match shares with
                      | Some s => if (s =? 0)%Z then JsNull else JsString (pretty s)
                      | None => JsNull
                      end in
         res_json (scan_payload stats shown))
  end.

(** [app.get("/scan-text", ...)] *)
Definition scan_text_route (prover : string) (lookback delayMs epochHours : option Z)
    : World → Reply * World :=
  match prover with
  | EmptyString => λ w, (mkReply 400 (Text "Missing ?prover=0x..."), w)
  | _ =>
      route
        (let* stats := ProverClient.scanParticipation env prover (default 600 lookback)
                                                      (default 120 delayMs) in
         let* shares := try_shares prover in
         ret (mkReply 200 (Text (formatProverMessage stats (default 5 epochHours) shares))))
  end.
End WithEnv.
End Server.

(** part_000: [formatProverMessage], the route [/scan] and the watchlist
    routes.  [formatEther] is [ethers.formatEther]. *)
Module OptimizedServer.
Section WithFormat.
Variable formatEther : Z → string.

Definition formatProverMessage (stats : ScanResult) (epochHours : Z) (shares : option Z)
    : string :=
  join_lines
    ([ "🔷 PROVER NODE DETAILS ADVERSARIA TESTNET🔷";
       "";
       (if isActiveNow stats then "🟢" else "🔴") +:+ " Status: "
         +:+ (if isActiveNow stats then "Actively proving" else "Idle");
       "";
       "📋 PROVER DETAILS";
       "🔑 Prover: `" +:+ prover stats +:+ "`";
       "🔢 Current Epoch: " +:+ pretty (currentEpoch stats);
       "🔢 Last Epoch Participated: "
         +:+ (match lastEpochParticipated stats with Some l => pretty l | None => "—" end);
       "🪪 Look-back Window: last " +:+ pretty (window stats) +:+ " epochs" ]
     ++ (match shares with Some s => ["🧩 Current Shares: " +:+ pretty s] | None => [] end)
     ++ [ "";
          "📊 PARTICIPATION";
          "✅ Epochs Participated: " +:+ pretty (participatedCountWindow stats);
          "💰 Rewards : " +:+ formatEther (totalRewardsWindow stats) +:+ " ETH";
          "⏱️ Time Since Last Proof: " +:+ idle_text stats epochHours ]).
End WithFormat.

(** [{ ...stats, shares: shares?.toString() }] *)
Definition scan_payload (stats : ScanResult) (shares : JsValue) : list (string * JsValue) :=
  [ ("prover", JsString (prover stats));
    ("currentEpoch", JsNumber (currentEpoch stats));
    ("lastEpochParticipated",
       match lastEpochParticipated stats with Some l => JsNumber l | None => JsNull end);
    ("participatedCountWindow", JsNumber (participatedCountWindow stats));
    ("totalRewardsWindow", JsBigInt (totalRewardsWindow stats));
    ("isActiveNow", JsBool (isActiveNow stats));
    ("window", JsNumber (window stats));
    ("fetchTime", JsNumber (fetched stats));
    ("shares", shares) ].

Section WithEnv.
Variable env : Env.

(** [client.rpc.callWithRetry({...}).then(r => BigInt(r || "0x0")).catch(() => null)];
    the request is built, and [zeroPadValue] may throw, before the call. *)
Definition try_shares (prover : string) : M (option Z) :=
  let* p32 := lift (zeroPadValue32 env prover) InvalidArgument in
  catch (let* r := OptimizedRpcPool.callWithRetry env (GetSharesFor p32) 3 in
         let* v := lift (BigInt (or_0x0 r)) SyntaxError in
         ret (Some v))
        (λ _, ret None).

(** [app.get("/scan", ...)] *)
Definition scan_route (prover : string) (lookback : option Z) : World → Reply * World :=
  match prover with
  | EmptyString => λ w, (mkReply 400 (Failure MissingParameter), w)
  | _ =>
      route
        (let* stats := OptimizedProverClient.scanParticipation env
                         OptimizedProverClient.BATCH_SIZE prover (default 600 lookback) in
         let* shares := try_shares prover in
         let shown := match shares with
                      | Some s => JsString (pretty s)
                      | None => JsUndefined
                      end in
         res_json (scan_payload stats shown))
  end.

(** [`scan-text-${prover}-${lookback}`]: the key under which [/scan-text]
    keeps its report in the cache of [scanParticipation]; [lookback] is the
    parameter of the query as it was given. *)
Definition scan_text_cacheKey (prover lookback : string) : string :=
  "scan-text-" +:+ prover +:+ "-" +:+ lookback.







End WithEnv.
End OptimizedServer.

(** ** tg_bot.js, first part: the commands of the bot *)

(** [watchlist] maps a chat to the set of addresses it watches, both in
    insertion order.  [parts] is [ctx.message.text.trim().split(/\s+/)]. *)
Module BotCommands.
Inductive CommandReply :=
| Usage
| InvalidAddress
| Watching (addr : string)
| Stopped (addr : string)
| NoActiveWatch          (* the chat does not watch this address *)
| NoActiveWatches        (* the chat watches nothing *)
| Watched (addrs : list string).

(** [set.add(addr)] *)
Definition set_add (addr : string) (s : list string) : list string :=
  if bool_decide (addr ∈ s) then s else s ++ [addr].

(** [set.delete(addr)] *)
Definition set_delete (addr : string) (s : list string) : list string :=
  filter (λ a, a ≠ addr) s.

Definition map_get (chatId : Z) (wl : list (Z * list string)) : option (list string) :=
  snd <$> find (λ p, bool_decide (fst p = chatId)) wl.

(** [map.set(chatId, s)]: an existing key keeps its place. *)
Definition map_set (chatId : Z) (s : list string) (wl : list (Z * list string))
    : list (Z * list string) :=
  if existsb (λ p, bool_decide (fst p = chatId)) wl
  then map (λ p, if bool_decide (fst p = chatId) then (chatId, s) else p) wl
  else wl ++ [(chatId, s)].

Definition map_delete (chatId : Z) (wl : list (Z * list string)) : list (Z * list string) :=
  filter (λ p, fst p ≠ chatId) wl.

Section WithEthers.
(** [normAddr]: [ethers.getAddress], or null when it throws. *)
Variable normAddr : string → option string.

(** [bot.command('watch', ...)] *)
Definition watch (chatId : Z) (parts : list string) (wl : list (Z * list string))
    : CommandReply * list (Z * list string) :=
  match parts with
  | _ :: arg :: _ =>
      match normAddr arg with
      | None => (InvalidAddress, wl)
      | Some addr =>
          let s := default [] (map_get chatId wl) in
          (Watching addr, map_set chatId (set_add addr s) wl)
      end
  | _ => (Usage, wl)
  end.

(** [bot.command('unwatch', ...)] *)
Definition unwatch (chatId : Z) (parts : list string) (wl : list (Z * list string))
    : CommandReply * list (Z * list string) :=
  match parts with
  | _ :: arg :: _ =>
      match normAddr arg with
      | None => (InvalidAddress, wl)
      | Some addr =>
          match map_get chatId wl with
          | Some s =>
              let removed := bool_decide (addr ∈ s) in
              let s' := set_delete addr s in
              let wl' := match s' with
                         | [] => map_delete chatId wl
                         | _ => map_set chatId s' wl
                         end in
              (if removed then Stopped addr else NoActiveWatch, wl')
          | None => (NoActiveWatches, wl)
          end
      end
  | _ => (Usage, wl)
  end.
End WithEthers.

(** [bot.command('list', ...)] *)
Definition list_watches (chatId : Z) (wl : list (Z * list string)) : CommandReply :=
  match map_get chatId wl with
  | Some (a :: s) => Watched (a :: s)
  | _ => NoActiveWatches
  end.
End BotCommands.

(** ** Vocabulary of the properties *)

(** What one logical call added to the log: [new], all for [req], on
    consecutive endpoints starting from the active one, each attempt
    answered by the oracle, at most [budget] of them; a returned answer is
    the answer of the last attempt and every attempt before it failed; a
    failure is thrown only when [budget] attempts have failed. *)
Definition failover {A} (env : Env) (inj : string → A) (N budget : nat) (req : Request)
    (w : World) (res : Outcome A * World) : Prop :=
  ∃ new : list Attempt,
    attempts (snd res) = attempts w ++ new ∧
    (∀ k a, new !! k = Some a →
       endpoint a = ((index w + k) mod N)%nat ∧ request a = req ∧
       answer a = respond env (length (attempts w) + k) (endpoint a) req) ∧
    (1 ≤ length new ≤ budget)%nat ∧
    index (snd res) = ((index w + (length new - 1)) mod N)%nat ∧
    cache (snd res) = cache w ∧ watchlist (snd res) = watchlist w ∧
    alerts (snd res) = alerts w ∧
    match fst res with
    | Ok v =>
        ∃ failed last hex,
          v = inj hex ∧ new = failed ++ [last] ∧ answer last = Some hex ∧
          Forall (λ a, answer a = None) failed
    | Throw e =>
        e = RpcError ∧ length new = budget ∧ Forall (λ a, answer a = None) new
    end.

(** What chain traffic does to the state: the cache, the watchlist and the
    alerts stay as they are and the log of attempts only grows. *)
Definition frame (w w' : World) : Prop :=
  cache w' = cache w ∧ watchlist w' = watchlist w ∧ alerts w' = alerts w ∧
  attempts w `prefix_of` attempts w'.

(** An attempt of the log is genuine when its answer is an answer of the
    oracle to its request at its endpoint. *)
Definition genuine (env : Env) (a : Attempt) : Prop :=
  ∃ t, answer a = respond env t (endpoint a) (request a).

(** One logical reward query of a scan: the epoch asked for, the attempts
    made for it, and the reward the scan took from it. *)
Record Query := mkQuery {
  q_epoch : Z;
  q_attempts : list Attempt;
  q_reward : Z
}.

(** Every attempt of the query asks for the reward of its epoch. *)
Definition about (env : Env) (p32 : string) (q : Query) : Prop :=
  Forall (λ a, request a = GetSpecificProverRewardsForEpoch (q_epoch q) p32 ∧ genuine env a)
         (q_attempts q).

(** The query was answered within [budget] attempts and its reward is the
    decoded answer. *)
Definition answered (budget : nat) (q : Query) : Prop :=
  ∃ failed last hex,
    q_attempts q = failed ++ [last] ∧ (length (q_attempts q) ≤ budget)%nat ∧
    Forall (λ a, answer a = None) failed ∧ answer last = Some hex ∧
    BigInt (or_0x0 (Some hex)) = Some (q_reward q).

(** The query failed [budget] times and its reward was taken as zero. *)
Definition zeroed (budget : nat) (q : Query) : Prop :=
  length (q_attempts q) = budget ∧ Forall (λ a, answer a = None) (q_attempts q) ∧
  q_reward q = 0.

(** The attempts [g] made for [call] by [callWithRetry(call).catch(...)],
    at most 3, and the value [v] kept for it: the answer, or ["0x0"] after
    three failures. *)
Definition kept (env : Env) (call : Request) (g : list Attempt) (v : option string) : Prop :=
  Forall (λ a, request a = call ∧ genuine env a) g ∧
  ((∃ failed last hex, v = Some hex ∧ g = failed ++ [last] ∧ (length g ≤ 3)%nat ∧
      Forall (λ a, answer a = None) failed ∧ answer last = Some hex) ∨
   (v = Some "0x0" ∧ length g = 3%nat ∧ Forall (λ a, answer a = None) g)).

(** What a call of a batch has logged while the batch is in flight: its
    attempts [g] so far, all for [req]; while attempt [i] is on its way
    the [i] attempts before it have failed; during a pause all [i + 1]
    attempts have failed and one more is allowed; a settled call has
    returned the answer of its last attempt or has failed three times. *)
Definition in_flight (env : Env) (req : Request) (c : OptimizedRpcPool.Call)
    (g : list Attempt) : Prop :=
  Forall (λ a, request a = req ∧ genuine env a) g ∧
  match c with
  | OptimizedRpcPool.InFlight i ans _ =>
      ∃ failed last, g = failed ++ [last] ∧ length failed = i ∧ (i < 3)%nat ∧
        Forall (λ a, answer a = None) failed ∧ answer last = ans
  | OptimizedRpcPool.Pausing i _ =>
      length g = S i ∧ (S i < 3)%nat ∧ Forall (λ a, answer a = None) g
  | OptimizedRpcPool.Returned hex =>
      ∃ failed last, g = failed ++ [last] ∧ (length g ≤ 3)%nat ∧
        Forall (λ a, answer a = None) failed ∧ answer last = Some hex
  | OptimizedRpcPool.Thrown =>
      length g = 3%nat ∧ Forall (λ a, answer a = None) g
  end.

(** The number of times the event loop can still resume a call. *)
Definition events_left (c : OptimizedRpcPool.Call) : nat :=
  match c with
  | OptimizedRpcPool.InFlight i _ _ => 2 * (2 - i) + 1
  | OptimizedRpcPool.Pausing i _ => 2 * (2 - i)
  | _ => 0
  end.

(** A query of a scan: about its epoch, and answered, or, with [lenient],
    failed and counted as zero. *)
Definition query_good (env : Env) (budget : nat) (lenient : bool) (p32 : string)
    (q : Query) : Prop :=
  about env p32 q ∧ (answered budget q ∨ (lenient = true ∧ zeroed budget q)).

(** [hi, hi - 1, ..., lo] *)
Definition range_down (hi lo : Z) : list Z :=
  map (λ i, hi - Z.of_nat i) (seq 0 (Z.to_nat (hi - lo + 1))).

(** The trace of a scan from [w] to [w']: attempts for the current epoch,
    then the attempts of one logical reward query per epoch of [epochs],
    in that order.  With [lenient] a query may have failed and count as
    zero. *)
Definition scan_report (env : Env) (budget : nat) (lenient : bool) (prover : string)
    (epochs : list Z) (w w' : World) (qs : list Query) : Prop :=
  ∃ pre p32,
    issued w w' = pre ++ concat (q_attempts <$> qs) ∧
    pre ≠ [] ∧ Forall (λ a, request a = GetCurrentEpoch) pre ∧
    (epochs ≠ [] → zeroPadValue32 env prover = Some p32) ∧
    q_epoch <$> qs = epochs ∧
    Forall (query_good env budget lenient p32) qs.

(** The attempts [new] of calls that were in flight together: [new] holds
    the attempts of the groups [gs] and no other, and the attempts of each
    group in the order in which they were made; attempts of different
    groups may alternate. *)
Definition interleaved (new : list Attempt) (gs : list (list Attempt)) : Prop :=
  new ≡ₚ concat gs ∧ Forall (λ g, g `sublist_of` new) gs.

(** The trace of a scan of the optimized client from [w] to [w']: attempts
    for the current epoch, then the attempts of one logical reward query
    per epoch of [epochs]; the queries of a batch are in flight together,
    so their attempts may alternate.  A query may have failed three times
    and count as zero. *)
Definition batched_report (env : Env) (prover : string)
    (epochs : list Z) (w w' : World) (qs : list Query) : Prop :=
  ∃ pre rest p32,
    issued w w' = pre ++ rest ∧
    pre ≠ [] ∧ Forall (λ a, request a = GetCurrentEpoch) pre ∧
    interleaved rest (q_attempts <$> qs) ∧
    (epochs ≠ [] → zeroPadValue32 env prover = Some p32) ∧
    q_epoch <$> qs = epochs ∧
    Forall (query_good env 3 true p32) qs.

Definition rewards_sum (qs : list Query) : Z := foldr Z.add 0 (q_reward <$> qs).

Definition participations (qs : list Query) : Z :=
  Z.of_nat (length (filter (λ q, q_reward q ≠ 0) qs)).

(** The epoch of the first query, in scan order, with a nonzero reward. *)
Definition first_participation (qs : list Query) : option Z :=
  q_epoch <$> head (filter (λ q, q_reward q ≠ 0) qs).

(** The loop body of [ProverClient.scanParticipation] on the outcome of a
    query. *)
Definition record_query (acc : Acc) (q : Query) : Acc :=
  ProverClient.record_reward (q_epoch q) (q_reward q) acc.

(** The word sent for the prover in reward requests. *)
Definition padded (env : Env) (prover : string) : string :=
  default "" (zeroPadValue32 env prover).







(** The count as the claim about [getActiveProvers] words it: the
    lowercased addresses whose net balance, staked minus withdrawn minus
    slashed, in exact integers, is positive. *)
Definition amount_of (addr : string) (logs : list Prover.Log) : Z :=
  foldr Z.add 0
    (Prover.amount <$> filter (λ log, Prover.toLowerCase (Prover.user log) = addr) logs).

Definition net_balance (stakedLogs withdrawnLogs slashedLogs : list Prover.Log)
    (addr : string) : Z :=
  amount_of addr stakedLogs - amount_of addr withdrawnLogs - amount_of addr slashedLogs.

Definition active_by_net_balance (stakedLogs withdrawnLogs slashedLogs : list Prover.Log)
    : nat :=
  let addrs :=
    remove_dups ((λ log, Prover.toLowerCase (Prover.user log))
                   <$> (stakedLogs ++ withdrawnLogs ++ slashedLogs)) in
  length (filter (λ addr, 0 < net_balance stakedLogs withdrawnLogs slashedLogs addr) addrs).

(** ** Concrete environments for the examples *)

Definition world0 : World := mkWorld 0 [] 0 ∅ [] [].

(** Four endpoints of which only the last one answers, and two endpoints
    that never answer. *)
Definition env_last_of_four : Env :=
  mkEnv ["a"; "b"; "c"; "d"]
        (λ _ i _, if (i =? 3)%nat then Some "0x1" else None)
        (λ _, 0) (λ s, Some s) (λ s, Some s).
Definition env_two_dead : Env :=
  mkEnv ["a"; "b"] (λ _ _ _, None) (λ _, 0) (λ s, Some s) (λ s, Some s).

(** Three endpoints of which the first never answers; an answer, or a
    failure, takes 10 ms. *)
Definition env_first_dead : Env :=
  mkEnv ["a"; "b"; "c"]
        (λ _ i _, if (i =? 0)%nat then None else Some "0x1")
        (λ _, 10) (λ s, Some s) (λ s, Some s).

(** Three reward requests, as a batch of [getBatchRewards] sends them. *)
Definition three_calls : list Request :=
  [ GetSpecificProverRewardsForEpoch 3 "0x42";
    GetSpecificProverRewardsForEpoch 2 "0x42";
    GetSpecificProverRewardsForEpoch 1 "0x42" ].

(** The example of the specification: the current epoch is 50 and the
    prover has a reward, 5, at epoch 47 only.  Every endpoint answers.
    [getAddress] accepts one address; [zeroPadValue32] accepts the strings
    that start with [0x]. *)
Definition demo_prover : string := "0x0000000000000000000000000000000000000042".

Definition demo_getAddress (s : string) : option string :=
  if bool_decide (s = demo_prover) then Some s else None.

Definition demo_zeroPadValue32 (s : string) : option string :=
  match s with
  | String "0" (String "x" _) => Some s
  | _ => None
  end.

Definition demo_respond (t i : nat) (req : Request) : option string :=
  match req with
  | GetCurrentEpoch => Some "0x32"
  | GetSpecificProverRewardsForEpoch e _ => if (e =? 47)%Z then Some "0x05" else Some "0x0"
  | GetSharesFor _ => Some "0x1"
  end.

Definition env_demo : Env :=
  mkEnv [] demo_respond (λ _, 0) demo_getAddress demo_zeroPadValue32.

Definition demo_result_ProverClient : ScanResult :=
  mkScanResult demo_prover 50 (Some 47) 1 5 true 10 1320.

Definition demo_result_Optimized : ScanResult :=
  mkScanResult demo_prover 50 (Some 47) 1 5 true 10 150.

(** As [env_demo], but no endpoint answers [getSharesFor]. *)
Definition env_no_shares : Env :=
  mkEnv []
        (λ t i req,
           match req with
           | GetSharesFor _ => None
           | _ => demo_respond t i req
           end)
        (λ _, 0) demo_getAddress demo_zeroPadValue32.

(** As [env_demo], but the chain reports the current epoch 2^53 + 1 =
    0x20000000000001, which [Number] rounds to 2^53. *)
Definition env_far : Env :=
  mkEnv []
        (λ t i req,
           match req with
           | GetCurrentEpoch => Some "0x20000000000001"
           | _ => demo_respond t i req
           end)
        (λ _, 0) demo_getAddress demo_zeroPadValue32.

(** Epoch 3 and no reward at any epoch. *)
Definition env_idle3 : Env :=
  mkEnv []
        (λ _ _ req, match req with GetCurrentEpoch => Some "0x3" | _ => Some "0x0" end)
        (λ _, 0) demo_getAddress demo_zeroPadValue32.

(** A process at time 1000 whose cache holds, since time 500, the result
    of the demo scan. *)
Definition world_cached : World :=
  mkWorld 0 [] 1000
          {[ OptimizedProverClient.cacheKey demo_prover 10
             := (demo_result_Optimized, 500 + NodeCache.CACHE_TTL * 1000) ]}
          [] [].

(** A table that files the entry under the bare address, with the time at
    which it was stored. *)
Definition world_fragment : World :=
  mkWorld 0 [] 1000 {[ demo_prover := (demo_result_ProverClient, 500) ]} [] [].

(** As [env_demo], but no endpoint answers the reward query for epoch 49. *)
Definition env_gap : Env :=
  mkEnv []
        (λ t i req,
           match req with
           | GetSpecificProverRewardsForEpoch e _ =>
               if (e =? 49)%Z then None else demo_respond t i req
           | _ => demo_respond t i req
           end)
        (λ _, 0) demo_getAddress demo_zeroPadValue32.


Definition demo_watchlist : list (Z * list string) := [(1, [demo_prover])].

(** The watchlist of the second server: one chat, never alerted. *)
Definition world_watching : World :=
  mkWorld 0 [] 0 ∅ [("chat-1", mkWatchEntry demo_prover None)] [].

(** Epoch 100 = 0x64, and a prover whose only reward is at epoch 90. *)
Definition env_idle10 : Env :=
  mkEnv []
        (λ _ _ req,
           match req with
           | GetCurrentEpoch => Some "0x64"
           | GetSpecificProverRewardsForEpoch e _ =>
               if (e =? 90)%Z then Some "0x1" else Some "0x0"
           | GetSharesFor _ => Some "0x1"
           end)
        (λ _, 0) demo_getAddress demo_zeroPadValue32.


(** A prover stakes 100 ETH and one wei, then withdraws 100 ETH (amounts
    in wei). *)
Definition staked_100eth_1wei : list Prover.Log :=
  [Prover.mkLog "0xAbCdEf0000000000000000000000000000000001" 100000000000000000001].
Definition withdrawn_100eth : list Prover.Log :=
  [Prover.mkLog "0xAbCdEf0000000000000000000000000000000001" 100000000000000000000].

(** ** Vocabulary of the further properties *)

(** Every character of [s] passes the test [P]. *)
Fixpoint all_chars (P : ascii → bool) (s : string) : bool :=
  match s with
  | EmptyString => true
  | String c s' => P c && all_chars P s'
  end.

(** [s] has no capital L, the letter the pattern of the bot starts with. *)
Definition no_L (s : string) : bool :=
  all_chars (λ c, negb (Ascii.eqb c "L")) s.


(** [clash p u]: [p] and [u] differ at a position both have, so that no
    extension of [u] starts with [p]. *)
Fixpoint clash (p u : string) : bool :=
  match p, u with
  | String a p', String b u' => if bool_decide (a = b) then clash p' u' else true
  | _, _ => false
  end.

(** The pattern of the bot matches at no position of [s], whatever
    follows [s]. *)
Fixpoint skippable (s : string) : bool :=
  match s with
  | EmptyString => true
  | String c s' => clash "Last Epoch Participated: " s && skippable s'
  end.

(** The time the [k] attempts numbered [t], [t + 1], ... take. *)
Definition latency_sum (env : Env) (t k : nat) : Z :=
  foldr Z.add 0 (latency env <$> seq t k).



(** The watchlist of the bot as a [Map] of [Set]s holds it: one entry per
    chat, no address twice in a set, and no empty set, since [/unwatch]
    drops a chat with its last address. *)
Definition bot_watchlist_ok (wl : list (Z * list string)) : Prop :=
  NoDup (fst <$> wl) ∧ Forall (λ p, snd p ≠ [] ∧ NoDup (snd p)) wl.

(** The addresses of all chats, with repetitions. *)
Definition watched_addresses (wl : list (Z * list string)) : list string :=
  concat (snd <$> wl).

(** An [ethers.getAddress] for the examples: the demo address, with or
    without its prefix [0x], normalised to the demo address. *)
Definition demo_normAddr (a : string) : option string :=
  if bool_decide (a = demo_prover)
     || bool_decide (a = "0000000000000000000000000000000000000042")
  then Some demo_prover else None.

(** The chat and the address a message of the bot is about. *)
Definition message_subject (m : Bot.Message) : Z * string :=
  match m with
  | Bot.NoParticipation chatId addr => (chatId, addr)
  | Bot.IdleAlert chatId addr _ => (chatId, addr)
  end.

(** Every pair of a chat and an address it watches, in the order
    [monitorOnce] visits them. *)
Definition watching (wl : list (Z * list string)) : list (Z * string) :=
  concat ((λ p : Z * list string, (λ addr, (fst p, addr)) <$> snd p) <$> wl).

(** The idle epochs of an idle alert reach the threshold. *)
Definition above_threshold (THRESH_IDLE : Z) (m : Bot.Message) : Prop :=
  match m with
  | Bot.NoParticipation _ _ => True
  | Bot.IdleAlert _ _ idleEpochs => THRESH_IDLE ≤ idleEpochs
  end.

(** [data.name] of a JSON body. *)
Definition field (name : string) (fields : list (string * JsValue)) : option JsValue :=
  snd <$> find (λ f, bool_decide (fst f = name)) fields.

(** What [monitorOnce] takes from a reply to [/scan]: [axios.get] rejects
    on a status outside 2xx, and the bot wants a [data.currentEpoch]. *)
Definition data_currentEpoch (r : Reply) : option Z :=
  if (200 <=? status r) && (status r <? 300) then
    match body r with
    | Payload fields =>
        match field "currentEpoch" fields with
        | Some (JsNumber n) => Some n
        | _ => None
        end
    | _ => None
    end
  else None.

(** The bot pointed at the first server and at the second one: [/scan]
    is asked with the prover only; [w t] is the state of the server when
    request [t] arrives, and [scanText] is what [/scan-text] would reply. *)
Definition bot_server_first (env : Env) (w : nat → World)
    (scanText : nat → string → option string) : Bot.Server :=
  Bot.mkServer
    (λ t addr, data_currentEpoch (fst (Server.scan_route env addr None None None (w t))))
    scanText.

Definition bot_server_second (env : Env) (w : nat → World)
    (scanText : nat → string → option string) : Bot.Server :=
  Bot.mkServer
    (λ t addr, data_currentEpoch (fst (OptimizedServer.scan_route env addr None (w t))))
    scanText.

(** Two events that differ at most in the letter case of the address. *)
Definition same_up_to_case (a b : Prover.Log) : Prop :=
  Prover.toLowerCase (Prover.user a) = Prover.toLowerCase (Prover.user b) ∧
  Prover.amount a = Prover.amount b.

(** An [ethers.formatEther] for the examples; only the shape of its
    result matters. *)
Definition demo_formatEther (wei : Z) : string := pretty wei +:+ ".0".

(** The integer a binary64 value stands for, when it is one. *)
Definition integer_of (f : spec_float) : option Z :=
  match f with
  | S754_zero _ => Some 0
  | S754_finite s m e =>
      let sign := if s then -1 else 1 in
      if (0 <=? e)%Z then Some (sign * (Z.pos m * 2 ^ e))
      else if (Z.pos m mod 2 ^ (- e) =? 0)%Z then Some (sign * (Z.pos m / 2 ^ (- e)))
      else None
  | _ => None
  end.

(** ** Decimal numerals *)

Lemma string_app_cons c (s t : string) : String c s +:+ t = String c (s +:+ t).
Proof. reflexivity. Qed.

Lemma string_app_nil_r (s : string) : s +:+ "" = s.
Proof. induction s as [|c s IH]; [done|]. by rewrite string_app_cons, IH. Qed.

Lemma all_chars_app P s t :
  all_chars P (s +:+ t) = all_chars P s && all_chars P t.
Proof. induction s as [|c s IH]; simpl; [done|]. by rewrite IH, andb_assoc. Qed.

Lemma all_chars_impl (P Q : ascii → bool) s :
  (∀ c, P c = true → Q c = true) → all_chars P s = true → all_chars Q s = true.
Proof.
  intros HPQ. induction s as [|c s IH]; simpl; [done|].
  intros [Hc Hs]%andb_true_iff. apply andb_true_iff. auto.
Qed.

Lemma string_app_assoc (s t u : string) : (s +:+ t) +:+ u = s +:+ (t +:+ u).
Proof. induction s as [|c s IH]; [done|]. by rewrite !string_app_cons, IH. Qed.

Lemma string_length_app (s t : string) :
  String.length (s +:+ t) = (String.length s + String.length t)%nat.
Proof. induction s as [|c s IH]; [done|]. rewrite string_app_cons. simpl. by rewrite IH. Qed.

Lemma parseInt_from_app d1 d2 : ∀ acc,
  Bot.parseInt_from acc (d1 +:+ d2) = Bot.parseInt_from (Bot.parseInt_from acc d1) d2.
Proof. induction d1 as [|c d1 IH]; intros acc; simpl; [done|]. by rewrite IH. Qed.

Lemma pretty_N_char_digit x :
  (x < 10)%N →
  Bot.is_digit (pretty_N_char x) = true ∧
  Z.of_nat (nat_of_ascii (pretty_N_char x)) = 48 + Z.of_N x.
Proof.
  intros Hx.
  assert (x = 0 ∨ x = 1 ∨ x = 2 ∨ x = 3 ∨ x = 4 ∨ x = 5 ∨ x = 6 ∨ x = 7 ∨ x = 8 ∨ x = 9)%N
    as Hcases by lia.
  repeat destruct Hcases as [->|Hcases]; try subst x; by vm_compute.
Qed.

(** [pretty_N_go x s] puts the decimal digits of [x] in front of [s]. *)
Lemma pretty_N_go_digits x : ∀ s,
  ∃ d, pretty_N_go x s = d +:+ s ∧
       all_chars Bot.is_digit d = true ∧
       ((0 < x)%N → d ≠ "") ∧
       ∀ acc, Bot.parseInt_from acc d
              = acc * 10 ^ Z.of_nat (String.length d) + Z.of_N x.
Proof.
  induction (N.lt_wf_0 x) as [x _ IH]; intros s.
  assert (x = 0 ∨ 0 < x)%N as [->|Hpos] by lia.
  - exists "". rewrite pretty_N_go_0. split_and!; [done|done|lia|]. intros acc. simpl. lia.
  - rewrite pretty_N_go_step by done.
    destruct (IH (x `div` 10)%N (N.div_lt x 10 Hpos eq_refl)
                 (String (pretty_N_char (x `mod` 10)) s)) as (d & -> & Hd & _ & Hparse).
    destruct (pretty_N_char_digit (x `mod` 10)%N) as [Hdig Hval].
    { by apply N.mod_lt. }
    exists (d +:+ String (pretty_N_char (x `mod` 10)) "").
    split_and!.
    + by rewrite string_app_assoc.
    + rewrite all_chars_app, Hd. simpl. by rewrite Hdig.
    + intros _. by destruct d.
    + intros acc. rewrite parseInt_from_app, Hparse. simpl. rewrite Hval.
      rewrite string_length_app. simpl String.length.
      replace (Z.of_nat (String.length d + 1)) with (Z.succ (Z.of_nat (String.length d)))
        by lia.
      rewrite Z.pow_succ_r by lia.
      pose proof (N.div_mod x 10 ltac:(done)) as Hdm.
      lia.
Qed.

(** The decimal numeral of a natural number: digits only, not empty. *)
Lemma pretty_nonneg_digits (n : Z) :
  0 ≤ n →
  all_chars Bot.is_digit (pretty n) = true ∧ pretty n ≠ "" ∧ Bot.parseInt (pretty n) = n.
Proof.
  intros Hn. destruct n as [|p|p]; [by vm_compute| |lia].
  unfold pretty, pretty_Z, pretty, pretty_positive, pretty, pretty_N.
  rewrite decide_False by done.
  destruct (pretty_N_go_digits (N.pos p) "") as (d & Heq & Hd & Hne & Hparse).
  rewrite Heq.
  rewrite string_app_nil_r.
  split_and!; [done|apply Hne; lia|].
  unfold Bot.parseInt. rewrite Hparse. simpl. lia.
Qed.

(** A numeral has no capital letter; a numeral of a natural number has no
    dash either. *)
Lemma is_digit_not_L c : Bot.is_digit c = true → negb (Ascii.eqb c "L") = true.
Proof.
  intros Hc. destruct (Ascii.eqb_spec c "L") as [->|]; [by vm_compute in Hc|done].
Qed.


Lemma pretty_no_L (n : Z) : no_L (pretty n) = true.
Proof.
  destruct n as [|p|p]; [by vm_compute| |].
  - apply (all_chars_impl Bot.is_digit); [apply is_digit_not_L|].
    by apply (pretty_nonneg_digits (Z.pos p)).
  - unfold pretty, pretty_Z. unfold no_L. simpl.
    apply (all_chars_impl Bot.is_digit); [apply is_digit_not_L|].
    by apply (pretty_nonneg_digits (Z.pos p)).
Qed.





(** * Properties *)

(** ** The monad *)

Lemma bind_ok {A B} (c : M A) (k : A → M B) w a w' :
  c w = (Ok a, w') → bind c k w = k a w'.
Proof. unfold bind. intros ->. reflexivity. Qed.

Lemma bind_throw {A B} (c : M A) (k : A → M B) w e w' :
  c w = (Throw e, w') → bind c k w = (Throw e, w').
Proof. unfold bind. intros ->. reflexivity. Qed.

Lemma issued_app w w' new : attempts w' = attempts w ++ new → issued w w' = new.
Proof. unfold issued. intros ->. by rewrite drop_app_length. Qed.

(** ** Endpoint fail-over *)

Section Failover.
Context {A : Type} (env : Env) (inj : string → A) (N : nat) (req : Request).

Lemma failover_hit w hex budget :
  (index w < N)%nat → (1 ≤ budget)%nat →
  respond env (length (attempts w)) (index w) req = Some hex →
  failover env inj N budget req w
    (Ok (inj hex),
     push_attempt (mkAttempt (index w) req (Some hex)) (latency env (length (attempts w))) w).
Proof.
  intros Hidx Hb Hr. exists [mkAttempt (index w) req (Some hex)]. simpl.
  repeat split; auto; try lia.
  - destruct k; simplify_eq/=. by rewrite Nat.add_0_r, Nat.mod_small.
  - destruct k; simplify_eq/=. done.
  - destruct k; simplify_eq/=. by rewrite Nat.add_0_r.
  - by rewrite Nat.add_0_r, Nat.mod_small.
  - exists [], (mkAttempt (index w) req (Some hex)), hex. auto.
Qed.

Lemma failover_miss w :
  (index w < N)%nat →
  respond env (length (attempts w)) (index w) req = None →
  failover env inj N 1 req w
    (Throw RpcError,
     push_attempt (mkAttempt (index w) req None) (latency env (length (attempts w))) w).
Proof.
  intros Hidx Hr. exists [mkAttempt (index w) req None]. simpl.
  repeat split; auto.
  - destruct k; simplify_eq/=. by rewrite Nat.add_0_r, Nat.mod_small.
  - destruct k; simplify_eq/=. done.
  - destruct k; simplify_eq/=. by rewrite Nat.add_0_r.
  - by rewrite Nat.add_0_r, Nat.mod_small.
Qed.

(** A failed attempt, a rotation and a pause, followed by a call that
    fails over within [budget] attempts. *)
Lemma failover_retry w ms budget res :
  (index w < N)%nat →
  respond env (length (attempts w)) (index w) req = None →
  failover env inj N budget req
    (set_now ms (set_index ((index w + 1) mod N)%nat
                   (push_attempt (mkAttempt (index w) req None)
                                 (latency env (length (attempts w))) w))) res →
  failover env inj N (S budget) req w res.
Proof.
  intros Hidx Hr (new & Hnew & Hrr & Hlen & Hix & Hc & Hwl & Hal & Hres).
  simpl in *.
  exists (mkAttempt (index w) req None :: new).
  split; [|split; [|split; [|split; [|split; [|split; [|split]]]]]]; auto.
  - rewrite Hnew. by rewrite <- app_assoc.
  - intros [|k] a Ha; simplify_eq/=.
    + by rewrite !Nat.add_0_r, Nat.mod_small.
    + destruct (Hrr k a Ha) as (He & Hq & Han). split; [|split]; auto.
      * rewrite He, Nat.Div0.add_mod_idemp_l. f_equal. lia.
      * rewrite Han. rewrite length_app. simpl. f_equal. lia.
  - simpl. lia.
  - rewrite Hix, Nat.Div0.add_mod_idemp_l. f_equal. simpl. lia.
  - destruct (fst res).
    + destruct Hres as (failed & last & hex & Hv & Hn & Hans & Hf).
      exists (mkAttempt (index w) req None :: failed), last, hex.
      repeat split; auto. by rewrite Hn.
    + destruct Hres as (He & Hn & Hf). repeat split; auto. simpl. lia.
Qed.
End Failover.

Section PoolProofs.
Variable env : Env.

Lemma RpcPool_urls_nonempty : (1 ≤ length (RpcPool.urls env))%nat.
Proof.
  unfold RpcPool.urls. destruct (filter _ _); simpl; lia.
Qed.

Lemma OptimizedRpcPool_urls_nonempty : (1 ≤ length (OptimizedRpcPool.urls env))%nat.
Proof.
  unfold OptimizedRpcPool.urls. destruct (rpcUrls env); simpl; lia.
Qed.

Lemma safeCall_from_failover req fuel : ∀ attempt w,
  (index w < length (RpcPool.urls env))%nat →
  (attempt < length (RpcPool.urls env))%nat →
  (length (RpcPool.urls env) - 1 - attempt ≤ fuel)%nat →
  failover env id (length (RpcPool.urls env)) (length (RpcPool.urls env) - attempt) req w
           (RpcPool.safeCall_from env fuel req attempt w).
Proof.
  set (N := length (RpcPool.urls env)).
  induction fuel as [|fuel IH]; intros attempt w Hidx Hatt Hfuel;
    cbn [RpcPool.safeCall_from]; unfold catch at 1, provider_call at 1;
    (destruct (respond env (length (attempts w)) (index w) req) as [hex|] eqn:Hr;
     [ apply (failover_hit env id); auto; lia | ]);
    fold N; destruct (Nat.ltb_spec attempt (N - 1)) as [Hlt|Hlt]; try lia;
    try (replace (N - attempt)%nat with 1%nat by lia; apply failover_miss; auto).
  replace (N - attempt)%nat with (S (N - (attempt + 1)))%nat by lia.
  unfold bind, RpcPool.rotate, sleep. fold N.
  eapply failover_retry; auto.
  apply IH; simpl; try lia. apply Nat.mod_upper_bound. lia.
Qed.

Lemma safeCall_failover req w :
  (index w < length (RpcPool.urls env))%nat →
  failover env id (length (RpcPool.urls env)) (length (RpcPool.urls env)) req w
           (RpcPool.safeCall env req w).
Proof.
  intros Hidx. unfold RpcPool.safeCall.
  pose proof RpcPool_urls_nonempty as Hne.
  pose proof (safeCall_from_failover req (length (RpcPool.urls env)) 0 w Hidx) as H.
  replace (length (RpcPool.urls env) - 0)%nat with (length (RpcPool.urls env)) in H by lia.
  apply H; lia.
Qed.

Lemma callWithRetry_loop_failover req retries k : ∀ i w,
  (index w < length (OptimizedRpcPool.urls env))%nat →
  (S k + i = retries)%nat →
  failover env Some (length (OptimizedRpcPool.urls env)) (S k) req w
           (OptimizedRpcPool.callWithRetry_loop env (S k) req retries i w).
Proof.
  set (N := length (OptimizedRpcPool.urls env)).
  induction k as [|k IH]; intros i w Hidx Hinv;
    cbn [OptimizedRpcPool.callWithRetry_loop];
    unfold catch at 1, bind at 1, provider_call at 1;
    (destruct (respond env (length (attempts w)) (index w) req) as [hex|] eqn:Hr;
     [ apply (failover_hit env Some); auto; lia | ]);
    destruct (Nat.ltb_spec i (retries - 1)) as [Hlt|Hlt]; try lia;
    try (apply failover_miss; auto).
  unfold bind at 1, OptimizedRpcPool.rotate, sleep. fold N.
  unfold bind at 1.
  eapply failover_retry; auto.
  apply IH; simpl; try lia. apply Nat.mod_upper_bound. lia.
Qed.

Lemma callWithRetry_failover req retries w :
  (index w < length (OptimizedRpcPool.urls env))%nat →
  (1 ≤ retries)%nat →
  failover env Some (length (OptimizedRpcPool.urls env)) retries req w
           (OptimizedRpcPool.callWithRetry env req retries w).
Proof.
  intros Hidx Hr. unfold OptimizedRpcPool.callWithRetry.
  destruct retries as [|k]; [lia|].
  apply callWithRetry_loop_failover; [assumption | lia].
Qed.
End PoolProofs.

Lemma mod_shift_small (a k N : nat) :
  (a < N)%nat → (k < N)%nat →
  ((a + k) mod N = if (a + k <? N)%nat then a + k else a + k - N)%nat.
Proof.
  intros Ha Hk. destruct (Nat.ltb_spec (a + k) N) as [Hlt|Hge].
  - by apply Nat.mod_small.
  - symmetry. apply (Nat.mod_unique _ _ 1); lia.
Qed.

Lemma failover_NoDup {A} env (inj : string → A) N budget req w res :
  failover env inj N budget req w res →
  (index w < N)%nat → (budget ≤ N)%nat →
  NoDup (endpoint <$> issued w (snd res)).
Proof.
  intros (new & Hnew & Hrr & Hlen & _) Hidx Hb.
  rewrite (issued_app _ _ _ Hnew).
  apply NoDup_alt. intros i j x Hi Hj.
  rewrite list_lookup_fmap in Hi, Hj.
  destruct (new !! i) as [a|] eqn:Ha; [|done].
  destruct (new !! j) as [b|] eqn:Hb'; [|done].
  simpl in Hi, Hj.
  pose proof (lookup_lt_Some _ _ _ Ha). pose proof (lookup_lt_Some _ _ _ Hb').
  apply Hrr in Ha as [Ha _]. apply Hrr in Hb' as [Hb' _].
  assert (Heq : ((index w + i) mod N = (index w + j) mod N)%nat) by congruence.
  rewrite !mod_shift_small in Heq by lia.
  destruct (Nat.ltb_spec (index w + i) N), (Nat.ltb_spec (index w + j) N); lia.
Qed.

Lemma failover_exhausted {A} env (inj : string → A) N budget req w res e :
  failover env inj N budget req w res →
  fst res = Throw e →
  (index w < N)%nat → (N ≤ budget)%nat →
  ∀ i, (i < N)%nat → i ∈ endpoint <$> issued w (snd res).
Proof.
  intros (new & Hnew & Hrr & Hlen & _ & _ & _ & _ & Hres) He Hidx Hb i Hi.
  rewrite He in Hres. destruct Hres as (_ & Hlen' & _).
  rewrite (issued_app _ _ _ Hnew).
  set (k := if (index w <=? i)%nat then (i - index w)%nat else (i + N - index w)%nat).
  assert (Hk : (k < N)%nat ∧ ((index w + k) mod N)%nat = i).
  { unfold k. destruct (Nat.leb_spec (index w) i).
    - split; [lia|]. rewrite Nat.mod_small; lia.
    - split; [lia|]. symmetry. apply (Nat.mod_unique _ _ 1); lia. }
  destruct Hk as [Hk1 Hk2].
  destruct (lookup_lt_is_Some_2 new k ltac:(lia)) as [a Ha].
  apply list_elem_of_fmap. exists a. split.
  - rewrite (proj1 (Hrr k a Ha)). congruence.
  - by eapply list_elem_of_lookup_2.
Qed.

(** ** Inversion of monadic code *)

Lemma bind_inv {A B} (c : M A) (k : A → M B) w r w' :
  bind c k w = (r, w') →
  (∃ a w1, c w = (Ok a, w1) ∧ k a w1 = (r, w')) ∨
  (∃ e, c w = (Throw e, w') ∧ r = Throw e).
Proof.
  unfold bind. destruct (c w) as [[a|e] w1]; intros H.
  - left. eauto.
  - right. simplify_eq. eauto.
Qed.

Lemma bind_inv_ok {A B} (c : M A) (k : A → M B) w b w' :
  bind c k w = (Ok b, w') → ∃ a w1, c w = (Ok a, w1) ∧ k a w1 = (Ok b, w').
Proof.
  intros H. apply bind_inv in H as [H|(e & _ & ?)]; [done|discriminate].
Qed.

Lemma lift_inv_ok {A} (o : option A) e w a w' :
  lift o e w = (Ok a, w') → o = Some a ∧ w' = w.
Proof. destruct o; unfold lift, ret, throw; intros; simplify_eq; auto. Qed.

Lemma lift_inv {A} (o : option A) e w r w' :
  lift o e w = (r, w') → w' = w ∧ (r = Throw e ∨ ∃ a, o = Some a ∧ r = Ok a).
Proof. destruct o; unfold lift, ret, throw; intros; simplify_eq; eauto. Qed.

(** ** Decoding *)

Lemma hex_digit_nonneg c d : hex_digit c = Some d → 0 ≤ d.
Proof.
  unfold hex_digit. intros H.
  repeat (case_match; simplify_eq; try lia).
Qed.

Lemma hex_value_nonneg s : ∀ acc v, 0 ≤ acc → hex_value acc s = Some v → 0 ≤ v.
Proof.
  induction s as [|c s IH]; simpl; intros acc v Hacc H.
  - by simplify_eq.
  - destruct (hex_digit c) as [d|] eqn:Hd; [|done].
    apply hex_digit_nonneg in Hd. eapply IH; [|exact H]. lia.
Qed.

Lemma BigInt_nonneg s v : BigInt s = Some v → 0 ≤ v.
Proof.
  unfold BigInt. intros H.
  repeat (case_match; simplify_eq; try lia);
    eapply hex_value_nonneg; try exact H; lia.
Qed.

Lemma Number_small n : Z.abs n < 2 ^ 53 → Number n = n.
Proof.
  intros Hn. unfold Number. cbv zeta.
  destruct (Z.leb_spec (Z.log2 (Z.abs n) - 52) 0) as [|Hbig]; [done|].
  exfalso. assert (0 < Z.abs n) by (destruct (Z.abs n) eqn:?; simpl in *; lia).
  pose proof (Z.log2_lt_pow2 (Z.abs n) 53 ltac:(lia)) as [Hlt _].
  specialize (Hlt Hn). lia.
Qed.

Lemma Number_nonneg n : 0 ≤ n → 0 ≤ Number n.
Proof.
  intros Hn. unfold Number. cbv zeta.
  destruct (Z.leb_spec (Z.log2 (Z.abs n) - 52) 0) as [|Hbig]; [done|].
  apply Z.mul_nonneg_nonneg; [by apply Z.sgn_nonneg|].
  apply Z.mul_nonneg_nonneg; [|by apply Z.pow_nonneg].
  pose proof (Z.div_pos (Z.abs n) (2 ^ (Z.log2 (Z.abs n) - 52))
                ltac:(lia) ltac:(apply Z.pow_pos_nonneg; lia)).
  by destruct (_ || _); lia.
Qed.

Lemma Number_sgn n : n ≤ 0 → Number n ≤ 0.
Proof.
  intros Hn. unfold Number. cbv zeta.
  destruct (Z.leb_spec (Z.log2 (Z.abs n) - 52) 0) as [|Hbig]; [done|].
  assert (0 ≤ Z.abs n / 2 ^ (Z.log2 (Z.abs n) - 52)).
  { apply Z.div_pos; [lia|]. apply Z.pow_pos_nonneg; lia. }
  assert (0 ≤ 2 ^ (Z.log2 (Z.abs n) - 52)) by (apply Z.pow_nonneg; lia).
  destruct (_ || _); nia.
Qed.

(** The shape of a rounded value: [q * 2 ^ e] with [q] of at most 53 bits,
    at least [q0 * 2 ^ e], and above it only when [x] is not a multiple of
    [2 ^ e]. *)
Lemma Number_big x :
  2 ^ 53 ≤ x →
  ∃ e q, 1 ≤ e ∧ Z.log2 x = e + 52 ∧ Number x = q * 2 ^ e ∧
         2 ^ 52 ≤ q ≤ 2 ^ 53 ∧
         (q = x / 2 ^ e ∨ (q = x / 2 ^ e + 1 ∧ 0 < x mod 2 ^ e)).
Proof.
  intros Hx. assert (Hpos : 0 < x) by lia.
  pose proof (Z.log2_le_pow2 x 53 Hpos) as [Hlog _]. specialize (Hlog Hx).
  pose proof (Z.log2_spec x Hpos) as [Hlo Hhi].
  set (e := Z.log2 x - 52). assert (He : 1 ≤ e) by (unfold e; lia).
  assert (Hpe : 0 < 2 ^ e) by (apply Z.pow_pos_nonneg; lia).
  assert (Hlo' : 2 ^ 52 * 2 ^ e ≤ x).
  { rewrite <- Z.pow_add_r by lia. by replace (52 + e) with (Z.log2 x) by (unfold e; lia). }
  assert (Hhi' : x < 2 ^ 53 * 2 ^ e).
  { rewrite <- Z.pow_add_r by lia.
    by replace (53 + e) with (Z.succ (Z.log2 x)) by (unfold e; lia). }
  pose proof (Z.div_mod x (2 ^ e) ltac:(lia)) as Hdm.
  pose proof (Z.mod_pos_bound x (2 ^ e) Hpe) as Hr.
  assert (Hq : 2 ^ 52 ≤ x / 2 ^ e < 2 ^ 53).
  { split; [apply Z.div_le_lower_bound; lia|apply Z.div_lt_upper_bound; lia]. }
  assert (Hhalf : 0 < 2 ^ (e - 1)) by (apply Z.pow_pos_nonneg; lia).
  unfold Number. cbv zeta. rewrite (Z.abs_eq x) by lia. fold e.
  destruct (Z.leb_spec e 0) as [|_]; [lia|].
  rewrite (Z.sgn_pos x) by lia. rewrite Z.mul_1_l.
  destruct ((2 ^ (e - 1) <? x mod 2 ^ e) || ((x mod 2 ^ e =? 2 ^ (e - 1)) && Z.odd (x / 2 ^ e)))
    eqn:Hup.
  - exists e, (x / 2 ^ e + 1). split; [done|]. split; [unfold e; lia|].
    split; [done|]. split; [lia|]. right. split; [done|].
    apply orb_true_iff in Hup as [Hup|Hup]; [lia|].
    apply andb_true_iff in Hup as [Hup _]. lia.
  - exists e, (x / 2 ^ e). split; [done|]. split; [unfold e; lia|].
    split; [done|]. split; [lia|]. by left.
Qed.

Lemma Number_ge x : 2 ^ 53 ≤ x → 2 ^ 53 ≤ Number x.
Proof.
  intros Hx. destruct (Number_big x Hx) as (e & q & He & _ & -> & [Hq _] & _).
  assert (2 ^ 1 ≤ 2 ^ e) by (apply Z.pow_le_mono_r; lia).
  change (2 ^ 53) with (2 ^ 52 * 2 ^ 1). nia.
Qed.

(** Rounding does not carry a value past a value that is itself the result
    of a rounding. *)
Lemma Number_le x n : 0 ≤ n → x ≤ Number n → Number x ≤ Number n.
Proof.
  intros Hn Hx.
  destruct (Z.le_gt_cases x 0) as [Hneg|Hpos].
  { pose proof (Number_sgn x Hneg). pose proof (Number_nonneg n Hn). lia. }
  destruct (Z.lt_ge_cases x (2 ^ 53)) as [Hxs|Hxb].
  { rewrite (Number_small x); [done|]. by rewrite Z.abs_eq by lia. }
  destruct (Number_big x Hxb) as (e & q & He & Hlog & Hnum & Hq & Hcase).
  assert (Hpe : 0 < 2 ^ e) by (apply Z.pow_pos_nonneg; lia).
  pose proof (Z.div_mod x (2 ^ e) ltac:(lia)) as Hdm.
  pose proof (Z.mod_pos_bound x (2 ^ e) Hpe) as Hr.
  destruct Hcase as [->|[-> Hrem]]; [lia|].
  rewrite Hnum.
  pose proof (Z.log2_spec x Hpos) as [Hlo _]. rewrite Hlog in Hlo.
  destruct (Z.lt_ge_cases n (2 ^ 53)) as [Hs|Hb].
  { rewrite Number_small in Hx by (by rewrite Z.abs_eq). lia. }
  destruct (Number_big n Hb) as (e' & q' & He' & Hlog' & Hn' & Hq' & _).
  rewrite Hn' in *.
  destruct (Z.le_gt_cases e e') as [Hee|Hee].
  - replace e' with ((e' - e) + e) in * by lia.
    rewrite Z.pow_add_r in * by lia.
    assert (0 < 2 ^ (e' - e)) by (apply Z.pow_pos_nonneg; lia).
    rewrite Z.mul_assoc in *.
    assert (x / 2 ^ e < q' * 2 ^ (e' - e)) by nia.
    nia.
  - exfalso.
    assert (Hpow : 2 ^ (53 + e') ≤ 2 ^ (e + 52)) by (apply Z.pow_le_mono_r; lia).
    assert (0 < 2 ^ e') by (apply Z.pow_pos_nonneg; lia).
    rewrite (Z.pow_add_r 2 53 e') in Hpow by lia.
    assert (Hx' : x = 2 ^ (e + 52)) by nia.
    rewrite Z.pow_add_r in Hx' by lia.
    rewrite Hx', Z.mul_comm, Z.mod_mul in Hrem by lia. lia.
Qed.

Lemma range_down_empty hi lo : hi < lo → range_down hi lo = [].
Proof. intros H. unfold range_down. by replace (Z.to_nat (hi - lo + 1)) with 0%nat by lia. Qed.

(** The first epoch of the loop of [ProverClient.scanParticipation]: the
    difference is rounded, which matters only above 2^53, where no reward
    can be asked for. *)
Lemma start_rounded E L n :
  0 ≤ n → E = Number n →
  (Z.max 0 (Number (E - L)) ≤ E → E ≤ MAX_SAFE_INTEGER) →
  range_down E (Z.max 0 (Number (E - L))) = range_down E (Z.max 0 (E - L)).
Proof.
  intros Hn HE Hsafe. pose proof (Number_nonneg n Hn) as HE0. rewrite <- HE in HE0.
  unfold MAX_SAFE_INTEGER in Hsafe.
  destruct (Z.le_gt_cases (Z.max 0 (Number (E - L))) E) as [Hin|Hout].
  - specialize (Hsafe Hin).
    destruct (Z.lt_ge_cases (Z.abs (E - L)) (2 ^ 53)) as [Hs|Hb].
    { by rewrite Number_small. }
    destruct (Z.le_gt_cases 0 (E - L)) as [Hpos|Hneg].
    + pose proof (Number_ge (E - L) ltac:(lia)). lia.
    + pose proof (Number_sgn (E - L) ltac:(lia)).
      by replace (Z.max 0 (Number (E - L))) with (Z.max 0 (E - L)) by lia.
  - rewrite !range_down_empty; [done| |done].
    destruct (Z.le_gt_cases 0 L) as [HL|HL]; [|lia].
    pose proof (Number_le (E - L) n Hn ltac:(lia)). lia.
Qed.

(** ** What a logical call leaves behind *)

Lemma frame_refl w : frame w w.
Proof. by repeat split. Qed.

Lemma frame_trans w1 w2 w3 : frame w1 w2 → frame w2 w3 → frame w1 w3.
Proof.
  intros (?&?&?&?) (?&?&?&?). repeat split; try congruence. by etrans.
Qed.

Lemma frame_same w w' :
  cache w' = cache w → watchlist w' = watchlist w → alerts w' = alerts w →
  attempts w' = attempts w → frame w w'.
Proof. intros ? ? ? Ha. repeat split; auto. by rewrite Ha. Qed.

Lemma failover_elim {A} env (inj : string → A) N budget req w res :
  failover env inj N budget req w res → (1 ≤ N)%nat →
  (index (snd res) < N)%nat ∧ frame w (snd res) ∧
  ∃ new, attempts (snd res) = attempts w ++ new ∧
    Forall (λ a, request a = req ∧ genuine env a) new ∧
    (1 ≤ length new ≤ budget)%nat ∧
    match fst res with
    | Ok v => ∃ failed last hex, v = inj hex ∧ new = failed ++ [last] ∧
               answer last = Some hex ∧ Forall (λ a, answer a = None) failed
    | Throw e => e = RpcError ∧ length new = budget ∧ Forall (λ a, answer a = None) new
    end.
Proof.
  intros (new & Hnew & Hrr & Hlen & Hix & Hc & Hwl & Hal & Hres) HN.
  split; [rewrite Hix; apply Nat.mod_upper_bound; lia|].
  split; [repeat split; auto; rewrite Hnew; by apply prefix_app_r|].
  exists new. repeat split; auto; try lia.
  apply Forall_lookup. intros k a Ha. destruct (Hrr k a Ha) as (_ & Hq & Han).
  split; [done|]. exists (length (attempts w) + k)%nat. by rewrite Hq.
Qed.

(** ** Epoch ranges *)

Lemma range_down_nil hi lo : hi < lo → range_down hi lo = [].
Proof. intros H. unfold range_down. by replace (Z.to_nat (hi - lo + 1)) with 0%nat by lia. Qed.

Lemma range_down_cons hi lo : lo ≤ hi → range_down hi lo = hi :: range_down (hi - 1) lo.
Proof.
  intros H. unfold range_down.
  replace (Z.to_nat (hi - lo + 1)) with (S (Z.to_nat (hi - 1 - lo + 1))) by lia.
  simpl. f_equal; [lia|].
  rewrite <- seq_shift, map_map. apply map_ext. intros i. lia.
Qed.

Lemma elem_of_range_down hi lo e : e ∈ range_down hi lo ↔ lo ≤ e ≤ hi.
Proof.
  unfold range_down. rewrite list_elem_of_In, in_map_iff. split.
  - intros (i & <- & Hi). apply in_seq in Hi. lia.
  - intros He. exists (Z.to_nat (hi - e)). split; [lia|]. apply in_seq. lia.
Qed.

Lemma NoDup_range_down hi lo : NoDup (range_down hi lo).
Proof.
  unfold range_down. apply NoDup_fmap_2; [|apply NoDup_seq].
  intros i j. lia.
Qed.

(** ** ProverClient: the scan loop *)

Section ProverClientProofs.
Variable env : Env.
Let N := length (RpcPool.urls env).

Lemma ProverClient_getCurrentEpoch_spec w r w' :
  (index w < N)%nat →
  ProverClient.getCurrentEpoch env w = (r, w') →
  (index w' < N)%nat ∧ frame w w' ∧
  ∃ pre, attempts w' = attempts w ++ pre ∧ pre ≠ [] ∧
    Forall (λ a, request a = GetCurrentEpoch) pre ∧
    match r with
    | Ok E => 0 ≤ E
    | Throw err => err ≠ OutOfFuel
    end.
Proof.
  intros Hidx H. unfold ProverClient.getCurrentEpoch in H.
  pose proof (safeCall_failover env GetCurrentEpoch w Hidx) as Hf.
  apply failover_elim in Hf; [|apply RpcPool_urls_nonempty].
  destruct Hf as (Hidx' & Hfr & new & Hnew & Hreq & Hlen & Hres).
  apply bind_inv in H as [(hex & w1 & Hc & Hk)|(e & Hc & ->)]; rewrite Hc in *; simpl in *.
  - assert (w' = w1 ∧ match r with Ok E => 0 ≤ E | Throw err => err ≠ OutOfFuel end)
      as [-> Hr].
    { apply bind_inv in Hk as [(n & w2 & Hn & Hk)|(e & Hn & ->)];
        apply lift_inv in Hn as [-> Hn].
      - unfold ret in Hk. simplify_eq. split; [done|].
        destruct Hn as [?|(? & Hn & ?)]; simplify_eq. by eapply Number_nonneg, BigInt_nonneg.
      - split; [done|]. destruct Hn as [?|(? & _ & ?)]; by simplify_eq. }
    split; [done|]. split; [done|].
    exists new. split; [done|]. split; [by destruct new; simpl in *; try lia|].
    split; [eapply Forall_impl; [exact Hreq|]; by intros ? []|]. done.
  - split; [done|]. split; [done|].
    exists new. split; [done|]. split; [by destruct new; simpl in *; try lia|].
    split; [eapply Forall_impl; [exact Hreq|]; by intros ? []|].
    by destruct Hres as (-> & _).
Qed.

Lemma getRewardForEpoch_spec e p w r w' :
  (index w < N)%nat →
  ProverClient.getRewardForEpoch env e p w = (r, w') →
  (index w' < N)%nat ∧ frame w w' ∧
  match r with
  | Ok rwd =>
      ∃ g, zeroPadValue32 env p = Some (padded env p) ∧
           attempts w' = attempts w ++ g ∧
           about env (padded env p) (mkQuery e g rwd) ∧ answered N (mkQuery e g rwd)
  | Throw err => err ≠ OutOfFuel
  end.
Proof.
  intros Hidx H. unfold ProverClient.getRewardForEpoch in H.
  destruct (toBeHex_throws e).
  { unfold throw in H. simplify_eq. by repeat split. }
  apply bind_inv in H as [(p32 & w1 & Hc & Hk)|(err & Hc & ->)].
  2:{ apply lift_inv in Hc as [-> [?|(? & _ & ?)]]; simplify_eq. by repeat split. }
  apply lift_inv_ok in Hc as [Hp ->].
  assert (Hpad : padded env p = p32) by (unfold padded; by rewrite Hp).
  pose proof (safeCall_failover env (GetSpecificProverRewardsForEpoch e p32) w Hidx) as Hf.
  apply failover_elim in Hf; [|apply RpcPool_urls_nonempty].
  destruct Hf as (Hidx' & Hfr & new & Hnew & Hreq & Hlen & Hres).
  apply bind_inv in Hk as [(hex & w1 & Hc & Hk)|(err & Hc & ->)]; rewrite Hc in *; simpl in *.
  - apply lift_inv in Hk as [-> Hk]. split; [done|]. split; [done|].
    destruct Hk as [->|(rwd & HE & ->)]; [done|].
    exists new. rewrite Hpad. repeat split; auto.
    destruct Hres as (failed & last & hex' & -> & -> & Hans & Hfail).
    exists failed, last, hex'. simpl. repeat split; auto. fold N. lia.
  - split; [done|]. split; [done|]. by destruct Hres as (-> & _).
Qed.

Lemma scan_loop_spec p d start fuel : ∀ e acc w r w',
  (index w < N)%nat →
  e - start + 1 ≤ Z.of_nat fuel →
  ProverClient.scan_loop env fuel p d start e acc w = (r, w') →
  (index w' < N)%nat ∧ frame w w' ∧
  match r with
  | Ok acc' =>
      ∃ qs, attempts w' = attempts w ++ concat (q_attempts <$> qs) ∧
            q_epoch <$> qs = range_down e start ∧
            (qs ≠ [] → zeroPadValue32 env p = Some (padded env p)) ∧
            Forall (λ q, about env (padded env p) q ∧ answered N q) qs ∧
            acc' = foldl record_query acc qs
  | Throw err => err ≠ OutOfFuel
  end.
Proof.
  induction fuel as [|fuel IH]; intros e acc w r w' Hidx Hfuel H;
    cbn [ProverClient.scan_loop] in H;
    destruct (Z.leb_spec start e) as [Hle|Hgt]; try lia.
  1,3: unfold ret in H; simplify_eq; split; [done|]; split; [done|];
       exists []; rewrite range_down_nil by lia; simpl;
       rewrite app_nil_r; repeat split; auto; done.
  apply bind_inv in H as [(rwd & w1 & Hc & Hk)|(err & Hc & ->)];
    apply getRewardForEpoch_spec in Hc as (Hidx1 & Hfr1 & Hres1); auto.
  apply bind_inv in Hk as [([] & w2 & Hs & Hk)|(err & Hs & ->)].
  2:{ destruct (d =? 0)%Z; unfold ret, sleep in Hs; simplify_eq. }
  assert (Hw2 : index w2 = index w1 ∧ attempts w2 = attempts w1 ∧ frame w1 w2).
  { destruct (d =? 0)%Z; unfold ret, sleep in Hs; simplify_eq; by repeat split. }
  destruct Hw2 as (Hi2 & Ha2 & Hfr2).
  apply IH in Hk as (Hidx' & Hfr' & Hres); [|lia|lia].
  split; [done|]. split.
  { eapply frame_trans; [exact Hfr1|]. eapply frame_trans; [exact Hfr2|exact Hfr']. }
  destruct r as [acc'|err]; [|done].
  destruct Hres1 as (g & Hp & Hg & Hab & Han).
  destruct Hres as (qs & Hqs & Hep & _ & Hall & Hacc).
  exists (mkQuery e g rwd :: qs). simpl.
  split; [rewrite Hqs, Ha2, Hg; by rewrite <- app_assoc|].
  split; [rewrite range_down_cons by lia; f_equal; exact Hep|].
  split; [done|]. split; [by constructor|done].
Qed.

Lemma scan_loop_safe p d start fuel e acc w acc' w' :
  ProverClient.scan_loop env fuel p d start e acc w = (Ok acc', w') →
  start ≤ e → e ≤ MAX_SAFE_INTEGER.
Proof.
  intros H Hle. destruct fuel as [|fuel]; cbn [ProverClient.scan_loop] in H;
    destruct (Z.leb_spec start e); try lia; [by unfold throw in H|].
  apply bind_inv_ok in H as (rwd & w1 & Hc & _).
  unfold ProverClient.getRewardForEpoch in Hc.
  destruct (toBeHex_throws e) eqn:Hhex; [by unfold throw in Hc|].
  unfold toBeHex_throws in Hhex. apply orb_false_iff in Hhex as [_ Hhex]. lia.
Qed.

Lemma ProverClient_getCurrentEpoch_Number w E w' :
  ProverClient.getCurrentEpoch env w = (Ok E, w') → ∃ n, 0 ≤ n ∧ E = Number n.
Proof.
  intros H. unfold ProverClient.getCurrentEpoch in H.
  apply bind_inv_ok in H as (hex & w1 & _ & H).
  apply bind_inv_ok in H as (n & w2 & Hn & H).
  apply lift_inv_ok in Hn as [Hn ->]. unfold ret in H. simplify_eq.
  exists n. split; [by eapply BigInt_nonneg|done].
Qed.
End ProverClientProofs.

(** ** Aggregation *)

Lemma answered_nonneg budget q : answered budget q → 0 ≤ q_reward q.
Proof. intros (? & ? & ? & _ & _ & _ & _ & H). by eapply BigInt_nonneg. Qed.

Lemma rewards_sum_cons q qs : rewards_sum (q :: qs) = q_reward q + rewards_sum qs.
Proof. vm_compute; reflexivity. Qed.

Lemma participations_cons q qs :
  participations (q :: qs) =
  (if decide (q_reward q ≠ 0) then 1 else 0) + participations qs.
Proof.
  unfold participations. rewrite filter_cons.
  destruct (decide (q_reward q ≠ 0)); simpl length; lia.
Qed.

Lemma first_participation_cons q qs :
  first_participation (q :: qs) =
  if decide (q_reward q ≠ 0) then Some (q_epoch q) else first_participation qs.
Proof.
  unfold first_participation. rewrite filter_cons.
  by destruct (decide (q_reward q ≠ 0)).
Qed.

Lemma foldl_record_query qs : ∀ acc,
  Forall (λ q, 0 ≤ q_reward q) qs →
  totalRewards (foldl record_query acc qs) = totalRewards acc + rewards_sum qs ∧
  participatedCount (foldl record_query acc qs) = participatedCount acc + participations qs ∧
  lastEpoch (foldl record_query acc qs) =
    match lastEpoch acc with Some l => Some l | None => first_participation qs end.
Proof.
  induction qs as [|q qs IH]; intros acc Hall.
  - simpl. unfold rewards_sum, participations, first_participation. simpl.
    repeat split; try lia. by destruct (lastEpoch acc).
  - inversion Hall as [|?? Hq Hqs]; subst.
    cbn [foldl]. destruct (IH (record_query acc q) Hqs) as (Ht & Hc & Hl).
    rewrite Ht, Hc, Hl, rewards_sum_cons, participations_cons, first_participation_cons.
    unfold record_query, ProverClient.record_reward.
    destruct (Z.ltb_spec 0 (q_reward q)); destruct (decide (q_reward q ≠ 0)); simpl;
      try lia; repeat split; try lia; by destruct (lastEpoch acc).
Qed.

(** The first participation of a scan in descending epoch order is the
    largest epoch with a nonzero reward. *)
Lemma first_participation_None qs :
  first_participation qs = None ↔ ∀ q, q ∈ qs → q_reward q = 0.
Proof.
  induction qs as [|q qs IH].
  - split; [intros _ q Hq; by apply elem_of_nil in Hq|done].
  - rewrite first_participation_cons. destruct (decide (q_reward q ≠ 0)) as [Hne|He].
    + split; [done|]. intros H. exfalso. apply Hne, H. left.
    + rewrite IH. split.
      * intros H q' Hq'. apply elem_of_cons in Hq' as [->|Hq']; [lia|auto].
      * intros H q' Hq'. apply H. by right.
Qed.

Lemma first_participation_Some hi lo qs e :
  q_epoch <$> qs = range_down hi lo →
  first_participation qs = Some e ↔
  (∃ q, q ∈ qs ∧ q_epoch q = e ∧ q_reward q ≠ 0) ∧
  (∀ q, q ∈ qs → q_reward q ≠ 0 → q_epoch q ≤ e).
Proof.
  revert hi. induction qs as [|q qs IH]; intros hi Hep.
  - split; [done|]. intros [(q & Hq & _) _]. by apply elem_of_nil in Hq.
  - destruct (Z.lt_ge_cases hi lo) as [Hlt|Hge].
    { rewrite range_down_nil in Hep by done. discriminate. }
    rewrite range_down_cons, fmap_cons in Hep by lia.
    injection Hep as Hq Hqs.
    assert (Hbelow : ∀ q', q' ∈ qs → q_epoch q' < q_epoch q).
    { intros q' Hq'. assert (He : q_epoch q' ∈ q_epoch <$> qs) by (by apply list_elem_of_fmap_2).
      rewrite Hqs in He. apply elem_of_range_down in He. lia. }
    rewrite first_participation_cons. destruct (decide (q_reward q ≠ 0)) as [Hne|He].
    + split.
      * intros [= <-]. split; [exists q; split; [left|done]|].
        intros q' Hq' _. apply elem_of_cons in Hq' as [->|Hq']; [lia|].
        apply Hbelow in Hq'. lia.
      * intros [(q1 & Hq1 & <- & Hr1) Hmax].
        apply elem_of_cons in Hq1 as [->|Hq1]; [done|].
        apply Hbelow in Hq1. specialize (Hmax q ltac:(left) Hne). lia.
    + rewrite (IH (hi - 1) Hqs). split.
      * intros [(q1 & Hq1 & <- & Hr1) Hmax]. split; [exists q1; split; [by right|done]|].
        intros q' Hq' Hr'. apply elem_of_cons in Hq' as [->|Hq']; [done|auto].
      * intros [(q1 & Hq1 & <- & Hr1) Hmax]. apply elem_of_cons in Hq1 as [->|Hq1]; [done|].
        split; [exists q1; done|]. intros q' Hq' Hr'. apply Hmax; [by right|done].
Qed.

(** ** ProverClient: the whole scan *)

Section ProverClientScan.
Variable env : Env.
Let N := length (RpcPool.urls env).

Lemma ProverClient_scan_spec p L d w res w' :
  (index w < N)%nat →
  ProverClient.scanParticipation env p L d w = (Ok res, w') →
  ∃ qs,
    scan_report env N false p
      (range_down (currentEpoch res) (Z.max 0 (currentEpoch res - L))) w w' qs ∧
    totalRewardsWindow res = rewards_sum qs ∧
    participatedCountWindow res = participations qs ∧
    lastEpochParticipated res = first_participation qs ∧
    isActiveNow res = (currentEpoch res - toNumber (first_participation qs) <? 6)%Z ∧
    getAddress env p = Some (prover res) ∧
    window res = L ∧ 0 ≤ currentEpoch res ∧
    frame w w' ∧ (index w' < N)%nat.
Proof.
  intros Hidx H. unfold ProverClient.scanParticipation in H.
  apply bind_inv_ok in H as (E & w1 & He & H).
  destruct (ProverClient_getCurrentEpoch_Number env _ _ _ He) as (n & Hn & HEn).
  apply ProverClient_getCurrentEpoch_spec in He
    as (Hidx1 & Hfr1 & pre & Hpre & Hne & Hreq & HE); [|done].
  apply bind_inv_ok in H as (acc & w2 & Hl & H).
  pose proof (scan_loop_safe env _ _ _ _ _ _ _ _ _ Hl) as Hsafe.
  apply scan_loop_spec in Hl as (Hidx2 & Hfr2 & qs & Hqs & Hep & Hp & Hall & Hacc);
    [|done|lia].
  rewrite (start_rounded E L n Hn HEn Hsafe) in Hep.
  apply bind_inv_ok in H as (addr & w3 & Ha & H).
  apply lift_inv_ok in Ha as [Ha ->]. simplify_eq. simpl.
  assert (Hnn : Forall (λ q, 0 ≤ q_reward q) qs).
  { eapply Forall_impl; [exact Hall|]. intros q [_ Hq]. by eapply answered_nonneg. }
  destruct (foldl_record_query qs (mkAcc 0 0 None) Hnn) as (Ht & Hc & Hlast).
  simpl in Ht, Hc, Hlast.
  exists qs. split.
  { exists pre, (padded env p). split.
    { apply issued_app. rewrite Hqs, Hpre. by rewrite <- app_assoc. }
    repeat split; auto.
    - intros Hr. apply Hp. intros ->. by rewrite <- Hep in Hr.
    - eapply Forall_impl; [exact Hall|]. intros q [? ?]. split; [done|]. by left. }
  rewrite Ht, Hc, Hlast.
  repeat (split; [first [done | lia]|]).
  split; [|done]. by eapply frame_trans.
Qed.
End ProverClientScan.

(** ** OptimizedProverClient: batches *)

Lemma mapM_nil {A B} (f : A → M B) w : mapM f [] w = (Ok [], w).
Proof. vm_compute; reflexivity. Qed.

Lemma mapM_cons_inv {A B} (f : A → M B) x l w r w' :
  mapM f (x :: l) w = (r, w') →
  (∃ e, f x w = (Throw e, w') ∧ r = Throw e) ∨
  (∃ y w1, f x w = (Ok y, w1) ∧
     ((∃ e, mapM f l w1 = (Throw e, w') ∧ r = Throw e) ∨
      (∃ ys, mapM f l w1 = (Ok ys, w') ∧ r = Ok (y :: ys)))).
Proof.
  cbn [mapM]. intros H.
  apply bind_inv in H as [(y & w1 & Hc & Hk)|(e & Hc & ->)]; [|left; eauto].
  right. exists y, w1. split; [done|].
  apply bind_inv in Hk as [(ys & w2 & Hc' & Hk)|(e & Hc' & ->)]; [|left; eauto].
  right. unfold ret in Hk. simplify_eq. eauto.
Qed.

(** ** Calls in flight together *)

Lemma interleaved_nil : interleaved [] [].
Proof. split; [done|constructor]. Qed.

Lemma sublist_concat_elem {A} (g : list A) gs : g ∈ gs → g `sublist_of` concat gs.
Proof.
  induction gs as [|h gs IH]; intros Hin; [by apply elem_of_nil in Hin|].
  apply elem_of_cons in Hin as [->|Hin]; simpl.
  - by apply sublist_inserts_r.
  - by apply sublist_inserts_l, IH.
Qed.

Lemma interleaved_concat gs : interleaved (concat gs) gs.
Proof.
  split; [done|]. apply Forall_forall. intros g Hg. by apply sublist_concat_elem.
Qed.

Lemma interleaved_app new1 gs1 new2 gs2 :
  interleaved new1 gs1 → interleaved new2 gs2 → interleaved (new1 ++ new2) (gs1 ++ gs2).
Proof.
  intros [Hp1 Hs1] [Hp2 Hs2]. split.
  - rewrite concat_app. by f_equiv.
  - apply Forall_app. split.
    + eapply Forall_impl; [exact Hs1|]. intros g Hg. by apply sublist_inserts_r.
    + eapply Forall_impl; [exact Hs2|]. intros g Hg. by apply sublist_inserts_l.
Qed.

Lemma interleaved_length new gs : interleaved new gs → length new = length (concat gs).
Proof. intros [Hp _]. by rewrite Hp. Qed.

Lemma concat_insert_app {A} (hist : list (list A)) : ∀ k g added,
  hist !! k = Some g →
  concat (<[k := g ++ added]> hist) ≡ₚ concat hist ++ added.
Proof.
  induction hist as [|h hist IH]; intros [|k] g added Hk; simplify_eq/=.
  - rewrite <- !app_assoc. f_equiv. apply Permutation_app_comm.
  - rewrite (IH _ _ _ Hk). by rewrite app_assoc.
Qed.

Lemma interleaved_insert new hist k g added :
  interleaved new hist → hist !! k = Some g →
  interleaved (new ++ added) (<[k := g ++ added]> hist).
Proof.
  intros [Hp Hs] Hk. split.
  - rewrite (concat_insert_app _ _ _ _ Hk). by f_equiv.
  - apply Forall_insert.
    + eapply Forall_impl; [exact Hs|]. intros h Hh. by apply sublist_inserts_r.
    + apply sublist_app; [|done]. eapply Forall_lookup_1 in Hs; [exact Hs|exact Hk].
Qed.

Lemma sum_list_insert_lt {A} (f : A → nat) (l : list A) : ∀ k x y,
  l !! k = Some x → (f y < f x)%nat →
  (sum_list (f <$> <[k := y]> l) < sum_list (f <$> l))%nat.
Proof.
  induction l as [|a l IH]; intros [|k] x y Hk Hlt; simplify_eq/=; [lia|].
  specialize (IH _ _ _ Hk Hlt). lia.
Qed.

Lemma next_call_Some calls : ∀ k d,
  OptimizedProverClient.next_call calls = Some (k, d) →
  ∃ req c, calls !! k = Some (req, c) ∧ OptimizedProverClient.due_of c = Some d.
Proof.
  induction calls as [|[req c] calls IH]; intros k d H; [done|].
  cbn [OptimizedProverClient.next_call] in H.
  destruct (OptimizedProverClient.due_of c) as [dc|] eqn:Hc,
           (OptimizedProverClient.next_call calls) as [[k' d']|] eqn:Hn.
  - destruct (dc <=? d')%Z; simplify_eq; [by exists req, c|]. by apply IH.
  - simplify_eq. by exists req, c.
  - simplify_eq. by apply IH.
  - done.
Qed.

Lemma next_call_None calls :
  OptimizedProverClient.next_call calls = None →
  Forall (λ rc, OptimizedProverClient.due_of (snd rc) = None) calls.
Proof.
  induction calls as [|[req c] calls IH]; intros H; [constructor|].
  cbn [OptimizedProverClient.next_call] in H.
  destruct (OptimizedProverClient.due_of c) as [dc|] eqn:Hc,
           (OptimizedProverClient.next_call calls) as [[k' d']|] eqn:Hn;
    try done.
  - by destruct (dc <=? d')%Z.
  - constructor; [done|]. by apply IH.
Qed.

Lemma sum_list_lookup_le {A} (f : A → nat) (l : list A) : ∀ k x,
  l !! k = Some x → (f x ≤ sum_list (f <$> l))%nat.
Proof.
  induction l as [|a l IH]; intros [|k] x Hk; simplify_eq/=; [lia|].
  specialize (IH _ _ Hk). lia.
Qed.

Section PromiseAll.
Variable env : Env.
Let N := length (OptimizedRpcPool.urls env).

Lemma send_spec req i w c w' :
  OptimizedRpcPool.send env req i w = (c, w') →
  ∃ a due, c = OptimizedRpcPool.InFlight i (answer a) due ∧
    attempts w' = attempts w ++ [a] ∧ request a = req ∧ genuine env a ∧
    endpoint a = index w ∧
    index w' = index w ∧ cache w' = cache w ∧ watchlist w' = watchlist w ∧
    alerts w' = alerts w.
Proof.
  unfold OptimizedRpcPool.send. intros H. simplify_eq.
  eexists (mkAttempt _ _ _), _. simpl. repeat split.
  by exists (length (attempts w)).
Qed.

Lemma resume_spec req c g w c' w' :
  (index w < N)%nat →
  in_flight env req c g →
  OptimizedProverClient.due_of c ≠ None →
  OptimizedRpcPool.resume env req 3 c w = (c', w') →
  (index w' < N)%nat ∧ cache w' = cache w ∧ watchlist w' = watchlist w ∧
  alerts w' = alerts w ∧ (events_left c' < events_left c)%nat ∧
  ∃ added, attempts w' = attempts w ++ added ∧ in_flight env req c' (g ++ added).
Proof.
  intros Hidx [Hreq Hc] Hdue H.
  pose proof (OptimizedRpcPool_urls_nonempty env) as HN. fold N in HN.
  destruct c as [i ans due|i due|hex|]; simpl in Hdue; try done.
  - destruct Hc as (failed & last & -> & Hlen & Hi & Hfail & Hans).
    cbn [OptimizedRpcPool.resume] in H. cbv zeta in H.
    destruct ans as [hex|].
    + simplify_eq. simpl. repeat split; auto; try lia.
      exists []. rewrite !app_nil_r. repeat split; auto.
      exists failed, last. rewrite length_app. simpl. repeat split; auto. lia.
    + match type of H with (if ?b then _ else _) = _ => destruct b eqn:Hlt end;
        [apply Nat.ltb_lt in Hlt|apply Nat.ltb_ge in Hlt]; simplify_eq; simpl.
      * repeat split; auto; try lia.
        { fold N. apply Nat.mod_upper_bound. lia. }
        exists []. rewrite !app_nil_r. repeat split; auto.
        { rewrite length_app. simpl. lia. }
        { lia. }
        apply Forall_app. split; [done|]. by constructor.
      * repeat split; auto; try lia.
        exists []. rewrite !app_nil_r. repeat split; auto.
        { rewrite length_app. simpl. lia. }
        apply Forall_app. split; [done|]. by constructor.
  - destruct Hc as (Hlen & Hi & Hfail).
    cbn [OptimizedRpcPool.resume] in H.
    apply send_spec in H as (a & due' & -> & Ha & Hr & Hg & _ & Hi' & Hc' & Hw' & Hal').
    simpl in *. repeat split; auto; try lia.
    exists [a]. split; [done|]. split.
    { apply Forall_app. split; [done|]. by repeat constructor. }
    exists g, a. repeat split; auto; lia.
Qed.

Lemma events_left_pos req c g :
  in_flight env req c g → OptimizedProverClient.due_of c ≠ None →
  (0 < events_left c)%nat.
Proof. intros [_ Hc] Hd. destruct c; simpl in *; try done; lia. Qed.

Lemma event_loop_spec fuel : ∀ calls hist w new,
  (sum_list (events_left ∘ snd <$> calls) ≤ fuel)%nat →
  (index w < N)%nat →
  Forall2 (λ rc g, in_flight env (fst rc) (snd rc) g) calls hist →
  interleaved new hist →
  ∃ calls' hist' added w',
    OptimizedProverClient.event_loop env fuel calls w = (Ok calls', w') ∧
    fst <$> calls' = fst <$> calls ∧
    Forall2 (λ rc g, in_flight env (fst rc) (snd rc) g) calls' hist' ∧
    Forall (λ rc, OptimizedProverClient.due_of (snd rc) = None) calls' ∧
    attempts w' = attempts w ++ added ∧ interleaved (new ++ added) hist' ∧
    (index w' < N)%nat ∧ cache w' = cache w ∧ watchlist w' = watchlist w ∧
    alerts w' = alerts w.
Proof.
  induction fuel as [|fuel IH]; intros calls hist w new Hfuel Hidx Hall Hint;
    cbn [OptimizedProverClient.event_loop];
    destruct (OptimizedProverClient.next_call calls) as [[k d]|] eqn:Hn.
  2,4: apply next_call_None in Hn; exists calls, hist, [], w;
       rewrite !app_nil_r; by split_and!.
  all: apply next_call_Some in Hn as (req & c & Hk & Hd);
       destruct (Forall2_lookup_l _ _ _ _ _ Hall Hk) as (g & Hg & Hc); simpl in Hc;
       assert (Hdue : OptimizedProverClient.due_of c ≠ None) by congruence;
       pose proof (events_left_pos _ _ _ Hc Hdue) as Hpos;
       pose proof (sum_list_lookup_le (events_left ∘ snd) calls k (req, c) Hk) as Hle;
       simpl in Hle.
  { lia. }
  rewrite Hk.
  destruct (OptimizedRpcPool.resume env req 3 c w) as [c' w1] eqn:Hres.
  destruct (resume_spec _ _ _ _ _ _ Hidx Hc Hdue Hres)
    as (Hidx1 & Hc1 & Hw1 & Hal1 & Hev & added & Ha1 & Hc').
  destruct (IH (<[k := (req, c')]> calls) (<[k := g ++ added]> hist) w1 (new ++ added))
    as (calls' & hist' & added' & w' & Hloop & Hfst & Hall' & Hset & Ha' & Hint' &
        Hidx' & Hc2 & Hw2 & Hal2).
  { pose proof (sum_list_insert_lt (events_left ∘ snd) calls k (req, c) (req, c') Hk Hev).
    lia. }
  { done. }
  { by apply Forall2_insert. }
  { by apply interleaved_insert. }
  exists calls', hist', (added ++ added'), w'.
  split; [done|]. split.
  { rewrite Hfst, list_fmap_insert. simpl. apply list_insert_id.
    by rewrite list_lookup_fmap, Hk. }
  split; [done|]. split; [done|]. split.
  { rewrite Ha', Ha1. by rewrite <- app_assoc. }
  split; [by rewrite app_assoc|].
  repeat split; auto; congruence.
Qed.

Lemma start_calls_spec calls : ∀ w cs w',
  OptimizedProverClient.start_calls env calls w = (cs, w') →
  ∃ hist, fst <$> cs = calls ∧
    Forall2 (λ rc g, in_flight env (fst rc) (snd rc) g) cs hist ∧
    attempts w' = attempts w ++ concat hist ∧
    sum_list (events_left ∘ snd <$> cs) = (5 * length calls)%nat ∧
    index w' = index w ∧ cache w' = cache w ∧ watchlist w' = watchlist w ∧
    alerts w' = alerts w.
Proof.
  induction calls as [|req calls IH]; intros w cs w' H;
    cbn [OptimizedProverClient.start_calls] in H.
  - simplify_eq. exists []. simpl. rewrite app_nil_r. by repeat split.
  - destruct (OptimizedRpcPool.send env req 0 w) as [c w1] eqn:Hs.
    destruct (OptimizedProverClient.start_calls env calls w1) as [cs' w2] eqn:Hr.
    simplify_eq.
    apply send_spec in Hs as (a & due & -> & Ha & Hreq & Hg & _ & Hi & Hc & Hw & Hal).
    apply IH in Hr as (hist & Hfst & Hall & Ha' & Hsum & Hi' & Hc' & Hw' & Hal').
    exists ([a] :: hist). rewrite !fmap_cons. simpl. split; [by rewrite Hfst|]. split.
    { constructor; [|done]. simpl. split; [by repeat constructor|].
      exists [], a. repeat split; auto. }
    split; [rewrite Ha', Ha; by rewrite <- app_assoc|].
    split; [rewrite Hsum; lia|]. repeat split; congruence.
Qed.

Lemma settled_kept calls' : ∀ hist,
  Forall2 (λ rc g, in_flight env (fst rc) (snd rc) g) calls' hist →
  Forall (λ rc, OptimizedProverClient.due_of (snd rc) = None) calls' →
  Forall3 (kept env) (fst <$> calls') hist
          ((λ rc, OptimizedProverClient.or_0x0_caught (snd rc)) <$> calls').
Proof.
  induction calls' as [|[req c] calls' IH]; intros hist H2 Hset.
  - inversion H2; subst. constructor.
  - inversion H2 as [|? g ? hist' [Hreq Hc] H2']; subst.
    inversion Hset as [|? ? Hd Hset']; subst. rewrite !fmap_cons. simpl in *.
    constructor; [|by apply IH]. split; [done|].
    destruct c as [| |hex|]; simpl in *; try done.
    + destruct Hc as (failed & last & -> & Hl & Hf & Ha). left.
      by exists failed, last, hex.
    + destruct Hc as [Hl Hf]. by right.
Qed.

Lemma Promise_all_spec calls w r w' :
  (index w < N)%nat →
  OptimizedProverClient.Promise_all env calls w = (r, w') →
  (index w' < N)%nat ∧ frame w w' ∧
  ∃ vs gs new, r = Ok vs ∧ attempts w' = attempts w ++ new ∧ interleaved new gs ∧
               Forall3 (kept env) calls gs vs.
Proof.
  intros Hidx H. unfold OptimizedProverClient.Promise_all in H.
  destruct (OptimizedProverClient.start_calls env calls w) as [started w1] eqn:Hs.
  apply start_calls_spec in Hs as (hist & Hfst & Hall & Ha & Hsum & Hi & Hc & Hw & Hal).
  destruct (event_loop_spec (5 * length calls) started hist w1 (concat hist))
    as (calls' & hist' & added & w2 & Hloop & Hfst' & Hall' & Hset & Ha' & Hint &
        Hidx' & Hc2 & Hw2 & Hal2).
  { lia. }
  { by rewrite Hi. }
  { done. }
  { apply interleaved_concat. }
  rewrite (bind_ok _ _ _ _ _ Hloop) in H. unfold ret in H. simplify_eq.
  split; [done|]. split.
  { repeat split; try congruence. rewrite Ha', Ha, <- app_assoc. by eexists. }
  eexists _, hist', (concat hist ++ added). split; [done|].
  split; [rewrite Ha', Ha; by rewrite <- app_assoc|]. split; [done|].
  rewrite <- Hfst'. by apply settled_kept.
Qed.
End PromiseAll.

Section OptimizedBatches.
Variable env : Env.
Let N := length (OptimizedRpcPool.urls env).

Lemma split_batches_spec batchSize epochs fuel : ∀ i w,
  (1 ≤ batchSize)%nat →
  (length epochs - i ≤ fuel)%nat →
  ∃ batches w',
    OptimizedProverClient.split_batches fuel batchSize epochs i w = (Ok batches, w') ∧
    concat batches = drop i epochs ∧
    index w' = index w ∧ attempts w' = attempts w ∧ frame w w'.
Proof.
  induction fuel as [|fuel IH]; intros i w Hb Hfuel;
    cbn [OptimizedProverClient.split_batches];
    destruct (Nat.ltb_spec i (length epochs)) as [Hlt|Hge]; try lia.
  1,3: exists [], w; rewrite drop_ge by lia; by repeat split.
  set (w1 := snd ((if (i + batchSize <? length epochs)%nat
                   then sleep OptimizedProverClient.EPOCH_DELAY else ret tt) w)).
  destruct (IH (i + batchSize)%nat w1 Hb ltac:(lia))
    as (rest & w' & Hrest & Hcat & Hi & Ha & Hfr).
  exists (take batchSize (drop i epochs) :: rest), w'.
  assert (Hw1 : index w1 = index w ∧ attempts w1 = attempts w ∧ frame w w1).
  { unfold w1. destruct (i + batchSize <? length epochs)%nat; by repeat split. }
  destruct Hw1 as (Hi1 & Ha1 & Hfr1).
  split.
  { unfold bind at 1.
    destruct (i + batchSize <? length epochs)%nat; simpl in *;
      fold w1; unfold bind; rewrite Hrest; reflexivity. }
  split.
  { simpl. rewrite Hcat, <- drop_drop. apply take_drop. }
  split; [congruence|]. split; [congruence|]. by eapply frame_trans.
Qed.

Lemma reward_calls_spec p batch : ∀ w r w',
  mapM (OptimizedProverClient.reward_call env p) batch w = (r, w') →
  w' = w ∧
  match r with
  | Ok calls =>
      calls = (λ e, GetSpecificProverRewardsForEpoch e (padded env p)) <$> batch ∧
      (batch ≠ [] → zeroPadValue32 env p = Some (padded env p))
  | Throw err => err = InvalidArgument
  end.
Proof.
  induction batch as [|e batch IH]; intros w r w' H.
  - rewrite mapM_nil in H. by simplify_eq.
  - assert (Hone : ∀ w0 r0 w0', OptimizedProverClient.reward_call env p e w0 = (r0, w0') →
              w0' = w0 ∧ match r0 with
                         | Ok c => c = GetSpecificProverRewardsForEpoch e (padded env p) ∧
                                   zeroPadValue32 env p = Some (padded env p)
                         | Throw err => err = InvalidArgument
                         end).
    { intros w0 r0 w0' H0. unfold OptimizedProverClient.reward_call in H0.
      destruct (toBeHex_throws e); [unfold throw in H0; by simplify_eq|].
      unfold padded. destruct (zeroPadValue32 env p) as [p32|]; simpl in *;
        unfold bind, lift, ret, throw in H0; simpl in H0; by simplify_eq. }
    apply mapM_cons_inv in H
      as [(err & Hc & ->)|(c & w1 & Hc & [(err & Hr & ->)|(cs & Hr & ->)])];
      apply Hone in Hc as [-> Hc]; try done;
      apply IH in Hr as [-> Hr]; try done.
    destruct Hc as [-> Hp], Hr as [-> _]. by split.
Qed.

Lemma decode_spec vs : ∀ w r w',
  mapM (λ v, lift (BigInt (or_0x0 v)) SyntaxError) vs w = (r, w') →
  w' = w ∧
  match r with
  | Ok rewards => Forall2 (λ v rwd, BigInt (or_0x0 v) = Some rwd) vs rewards
  | Throw err => err = SyntaxError
  end.
Proof.
  induction vs as [|v vs IH]; intros w r w' H.
  - rewrite mapM_nil in H. simplify_eq. split; [done|constructor].
  - apply mapM_cons_inv in H
      as [(err & Hc & ->)|(c & w1 & Hc & [(err & Hr & ->)|(cs & Hr & ->)])];
      apply lift_inv in Hc as [-> Hc]; try (apply IH in Hr as [-> Hr]).
    + destruct Hc as [?|(? & _ & ?)]; by simplify_eq.
    + done.
    + split; [done|]. destruct Hc as [?|(? & ? & ?)]; simplify_eq. by constructor.
Qed.
End OptimizedBatches.

Section OptimizedRewards.
Variable env : Env.
Let N := length (OptimizedRpcPool.urls env).

Lemma queries_of_batch p batch : ∀ gs vs rewards,
  Forall3 (kept env) ((λ e, GetSpecificProverRewardsForEpoch e (padded env p)) <$> batch)
          gs vs →
  Forall2 (λ v rwd, BigInt (or_0x0 v) = Some rwd) vs rewards →
  ∃ qs, q_epoch <$> qs = batch ∧ q_attempts <$> qs = gs ∧ q_reward <$> qs = rewards ∧
        Forall (query_good env 3 true (padded env p)) qs.
Proof.
  induction batch as [|e batch IH]; intros gs vs rewards H3 H2.
  - inversion H3; subst. inversion H2; subst. exists []. by repeat split.
  - rewrite fmap_cons in H3. inversion H3 as [|call g v calls gs' vs' Hk H3']; subst.
    inversion H2 as [|v0 rwd vs0 rewards' Hd H2']; subst.
    destruct (IH _ _ _ H3' H2') as (qs & He & Hg & Hr & Hall).
    exists (mkQuery e g rwd :: qs). rewrite !fmap_cons. simpl.
    split; [by rewrite He|]. split; [by rewrite Hg|]. split; [by rewrite Hr|].
    constructor; [|done]. destruct Hk as [Hab Hk]. split; [exact Hab|].
    destruct Hk as [(failed & last & hex & -> & -> & Hl & Hf & Ha)|(-> & Hl & Hf)].
    + left. exists failed, last, hex. by repeat split.
    + right. split; [done|]. repeat split; auto. simpl in Hd.
      vm_compute in Hd. by simplify_eq.
Qed.

Lemma batch_rewards_spec p batch w r w' :
  (index w < N)%nat →
  OptimizedProverClient.batch_rewards env p batch w = (r, w') →
  (index w' < N)%nat ∧ frame w w' ∧
  match r with
  | Ok rewards =>
      ∃ qs, q_epoch <$> qs = batch ∧ q_reward <$> qs = rewards ∧
            (∃ new, attempts w' = attempts w ++ new ∧
                    interleaved new (q_attempts <$> qs)) ∧
            (batch ≠ [] → zeroPadValue32 env p = Some (padded env p)) ∧
            Forall (query_good env 3 true (padded env p)) qs
  | Throw err => err ≠ OutOfFuel
  end.
Proof.
  intros Hidx H. unfold OptimizedProverClient.batch_rewards in H.
  apply bind_inv in H as [(calls & w1 & Hc & H)|(err & Hc & ->)];
    apply reward_calls_spec in Hc as [-> Hc]; [|by subst].
  destruct Hc as [-> Hp].
  apply bind_inv in H as [(vs & w2 & Hv & H)|(err & Hv & ->)];
    apply Promise_all_spec in Hv
      as (Hidx2 & Hfr2 & vs' & gs & new & Hvs & Hgs & Hint & Hk);
    try done. simplify_eq.
  apply decode_spec in H as [-> H]. split; [done|]. split; [done|].
  destruct r as [rewards|err]; [|by subst].
  destruct (queries_of_batch p batch gs vs' rewards Hk H) as (qs & He & Hg & Hr & Hall).
  exists qs. rewrite Hg. split_and!; eauto.
Qed.

Lemma batches_rewards_spec p batches : ∀ w r w',
  (index w < N)%nat →
  mapM (OptimizedProverClient.batch_rewards env p) batches w = (r, w') →
  (index w' < N)%nat ∧ frame w w' ∧
  match r with
  | Ok results =>
      ∃ qs, q_epoch <$> qs = concat batches ∧ q_reward <$> qs = concat results ∧
            (∃ new, attempts w' = attempts w ++ new ∧
                    interleaved new (q_attempts <$> qs)) ∧
            (concat batches ≠ [] → zeroPadValue32 env p = Some (padded env p)) ∧
            Forall (query_good env 3 true (padded env p)) qs
  | Throw err => err ≠ OutOfFuel
  end.
Proof.
  induction batches as [|batch batches IH]; intros w r w' Hidx H.
  - rewrite mapM_nil in H. simplify_eq. split; [done|]. split; [done|].
    exists []. simpl. split_and!; try done.
    exists []. rewrite app_nil_r. split; [done|apply interleaved_nil].
  - apply mapM_cons_inv in H as [(err & Hc & ->)|(rs & w1 & Hc & Hr)];
      apply batch_rewards_spec in Hc as (Hidx1 & Hfr1 & Hres1); try done.
    destruct Hres1 as (qs1 & He1 & Hr1 & (new1 & Ha1 & Hi1) & Hp1 & Hall1).
    destruct Hr as [(err & Hr & ->)|(rss & Hr & ->)];
      apply IH in Hr as (Hidx' & Hfr' & Hres); try done;
      (split; [done|]);
      (split; [by eapply frame_trans|]);
      try done.
    destruct Hres as (qs2 & He2 & Hr2 & (new2 & Ha2 & Hi2) & Hp2 & Hall2).
    exists (qs1 ++ qs2). rewrite !fmap_app. simpl.
    split; [by rewrite He1, He2|]. split; [by rewrite Hr1, Hr2|].
    split.
    { exists (new1 ++ new2). split; [rewrite Ha2, Ha1; by rewrite <- app_assoc|].
      by apply interleaved_app. }
    split; [|by apply Forall_app].
    intros Hne. destruct batch as [|e batch]; [|by apply Hp1].
    simpl in Hne. by apply Hp2.
Qed.

Lemma getBatchRewards_spec batchSize epochs p w r w' :
  (1 ≤ batchSize)%nat →
  (index w < N)%nat →
  OptimizedProverClient.getBatchRewards env batchSize epochs p w = (r, w') →
  (index w' < N)%nat ∧ frame w w' ∧
  match r with
  | Ok rewards =>
      ∃ qs, q_epoch <$> qs = epochs ∧ q_reward <$> qs = rewards ∧
            (∃ new, attempts w' = attempts w ++ new ∧
                    interleaved new (q_attempts <$> qs)) ∧
            (epochs ≠ [] → zeroPadValue32 env p = Some (padded env p)) ∧
            Forall (query_good env 3 true (padded env p)) qs
  | Throw err => err ≠ OutOfFuel
  end.
Proof.
  intros Hb Hidx H. unfold OptimizedProverClient.getBatchRewards in H.
  destruct (split_batches_spec env batchSize epochs (length epochs) 0 w Hb ltac:(lia))
    as (batches & w1 & Hs & Hcat & Hi1 & Ha1 & Hfr1).
  rewrite drop_0 in Hcat.
  rewrite (bind_ok _ _ _ _ _ Hs) in H.
  assert (Hidx1 : (index w1 < N)%nat) by (rewrite Hi1; exact Hidx).
  apply bind_inv in H as [(results & w2 & Hc & H)|(err & Hc & ->)];
    apply batches_rewards_spec in Hc as (Hidx2 & Hfr2 & Hres); try exact Hidx1.
  2:{ split; [done|]. split; [|done]. by eapply frame_trans. }
  unfold ret in H. simplify_eq.
  split; [done|].
  split; [by eapply frame_trans|].
  destruct Hres as (qs & He & Hr & (new & Ha & Hi) & Hp & Hall).
  exists qs. split_and!; auto. exists new. split; [congruence|done].
Qed.
End OptimizedRewards.

(** ** OptimizedProverClient: the whole scan *)

Lemma BATCH_SIZE_positive : (1 ≤ OptimizedProverClient.BATCH_SIZE)%nat.
Proof. unfold OptimizedProverClient.BATCH_SIZE. lia. Qed.

Lemma window_epochs_range L E :
  OptimizedProverClient.window_epochs L E = range_down E (E - Z.min L E + 1).
Proof.
  unfold OptimizedProverClient.window_epochs, range_down.
  by replace (E - (E - Z.min L E + 1) + 1) with (Z.min L E) by lia.
Qed.

Lemma aggregate_from (qs : list Query) : ∀ pre acc,
  fold_left (OptimizedProverClient.forEach_reward (q_epoch <$> (pre ++ qs)))
            (zip (seq (length pre) (length qs)) (q_reward <$> qs)) acc
  = foldl record_query acc qs.
Proof.
  induction qs as [|q qs IH]; intros pre acc; [done|].
  cbn [length seq zip zip_with fold_left foldl]. rewrite fmap_cons.
  cbn [zip zip_with fold_left].
  specialize (IH (pre ++ [q]) (record_query acc q)).
  rewrite <- app_assoc, length_app in IH. simpl in IH.
  rewrite Nat.add_1_r in IH. rewrite <- IH. f_equal.
  unfold OptimizedProverClient.forEach_reward, record_query, ProverClient.record_reward.
  rewrite list_lookup_fmap, lookup_app_r by lia.
  rewrite Nat.sub_diag. reflexivity.
Qed.

Lemma aggregate_queries qs :
  OptimizedProverClient.aggregate (q_reward <$> qs) (q_epoch <$> qs)
  = foldl record_query (mkAcc 0 0 None) qs.
Proof.
  unfold OptimizedProverClient.aggregate. rewrite length_fmap.
  by apply (aggregate_from qs []).
Qed.

Lemma query_good_nonneg env budget lenient p32 q :
  query_good env budget lenient p32 q → 0 ≤ q_reward q.
Proof.
  intros [_ [H|[_ (_ & _ & ->)]]]; [by eapply answered_nonneg|done].
Qed.

Lemma Array_from_length_inv n w r w' :
  OptimizedProverClient.Array_from_length n w = (r, w') →
  w' = w ∧ ((r = Ok tt ∧ n ≤ OptimizedProverClient.MAX_ARRAY_LENGTH) ∨ r = Throw RangeError).
Proof.
  unfold OptimizedProverClient.Array_from_length.
  destruct (Z.ltb_spec OptimizedProverClient.MAX_ARRAY_LENGTH n);
    unfold throw, ret; intros; simplify_eq; (split; [done|]); [by right|].
  left. split; [done|lia].
Qed.

Section OptimizedScan.
Variable env : Env.
Let N := length (OptimizedRpcPool.urls env).

Lemma Optimized_getCurrentEpoch_spec w r w' :
  (index w < N)%nat →
  OptimizedProverClient.getCurrentEpoch env w = (r, w') →
  (index w' < N)%nat ∧ frame w w' ∧
  ∃ pre, attempts w' = attempts w ++ pre ∧ pre ≠ [] ∧
    Forall (λ a, request a = GetCurrentEpoch) pre ∧
    match r with
    | Ok E => 0 ≤ E
    | Throw err => err ≠ OutOfFuel
    end.
Proof.
  intros Hidx H. unfold OptimizedProverClient.getCurrentEpoch in H.
  pose proof (callWithRetry_failover env GetCurrentEpoch 3 w Hidx ltac:(lia)) as Hf.
  apply failover_elim in Hf; [|apply OptimizedRpcPool_urls_nonempty].
  destruct Hf as (Hidx' & Hfr & new & Hnew & Hreq & Hlen & Hres).
  assert (Hne : new ≠ []) by (destruct new; simpl in *; [lia|done]).
  assert (Hreq' : Forall (λ a, request a = GetCurrentEpoch) new).
  { eapply Forall_impl; [exact Hreq|]. by intros ? []. }
  apply bind_inv in H as [(hex & w1 & Hc & Hk)|(e & Hc & ->)]; rewrite Hc in *; simpl in *.
  - destruct Hres as (failed & last & h & -> & _).
    assert (w' = w1 ∧ match r with Ok E => 0 ≤ E | Throw err => err ≠ OutOfFuel end)
      as [-> Hr].
    { apply bind_inv in Hk as [(n & w2 & Hn & Hk)|(e & Hn & ->)];
        apply lift_inv in Hn as [-> Hn].
      - unfold ret in Hk. simplify_eq. split; [done|].
        destruct Hn as [?|(? & Hn & ?)]; simplify_eq. by eapply Number_nonneg, BigInt_nonneg.
      - split; [done|]. destruct Hn as [?|(? & _ & ?)]; by simplify_eq. }
    split; [done|]. split; [done|].
    exists new. repeat split; auto.
  - split; [done|]. split; [done|].
    exists new. repeat split; auto. by destruct Hres as (-> & _).
Qed.

Lemma Optimized_scan_spec batchSize p L w res w' :
  (1 ≤ batchSize)%nat →
  (index w < N)%nat →
  fst (NodeCache.get (OptimizedProverClient.cacheKey p L) w) = Ok None →
  OptimizedProverClient.scanParticipation env batchSize p L w = (Ok res, w') →
  ∃ qs,
    batched_report env p (OptimizedProverClient.window_epochs L (currentEpoch res))
                   w w' qs ∧
    totalRewardsWindow res = rewards_sum qs ∧
    participatedCountWindow res = participations qs ∧
    lastEpochParticipated res = first_participation qs ∧
    isActiveNow res =
      match first_participation qs with
      | Some l => (currentEpoch res - l <? 6)%Z
      | None => false
      end ∧
    getAddress env p = Some (prover res) ∧
    window res = L ∧ 0 ≤ currentEpoch res ∧
    cache w' !! OptimizedProverClient.cacheKey p L
      = Some (res, now w' + NodeCache.CACHE_TTL * 1000) ∧
    watchlist w' = watchlist w ∧ alerts w' = alerts w ∧ (index w' < N)%nat.
Proof.
  intros Hb Hidx Hmiss H. unfold OptimizedProverClient.scanParticipation in H.
  destruct (NodeCache.get (OptimizedProverClient.cacheKey p L) w) as [rc w0] eqn:Hget.
  simpl in Hmiss. subst rc.
  rewrite (bind_ok _ _ _ _ _ Hget) in H.
  assert (Hw0 : index w0 = index w ∧ attempts w0 = attempts w ∧
                watchlist w0 = watchlist w ∧ alerts w0 = alerts w).
  { unfold NodeCache.get in Hget.
    destruct (cache w !! _) as [[v t]|]; [destruct (negb (t =? 0) && (t <? now w))%Z|];
      simplify_eq; by repeat split. }
  destruct Hw0 as (Hi0 & Ha0 & Hwl0 & Hal0).
  unfold bind at 1 in H.
  apply bind_inv_ok in H as (E & w1 & He & H).
  apply Optimized_getCurrentEpoch_spec in He
    as (Hidx1 & Hfr1 & pre & Hpre & Hne & Hreq & HE); [|by rewrite Hi0].
  apply bind_inv_ok in H as ([] & w1' & Hlen & H).
  apply Array_from_length_inv in Hlen as [-> _].
  apply bind_inv_ok in H as (rewards & w2 & Hr & H).
  apply getBatchRewards_spec in Hr
    as (Hidx2 & Hfr2 & qs & Heq & Hrq & (rest & Hqs & Hint) & Hp & Hall); [|done|done].
  apply bind_inv_ok in H as (addr & w3 & Ha & H).
  apply lift_inv_ok in Ha as [Ha ->].
  unfold bind at 1 in H. unfold bind, NodeCache.set, ret in H. simplify_eq. simpl.
  rewrite <- Heq. rewrite aggregate_queries.
  assert (Hnn : Forall (λ q, 0 ≤ q_reward q) qs).
  { eapply Forall_impl; [exact Hall|]. intros q. apply query_good_nonneg. }
  destruct (foldl_record_query qs (mkAcc 0 0 None) Hnn) as (Ht & Hc & Hlast).
  simpl in Ht, Hc, Hlast.
  exists qs. split.
  { exists pre, rest, (padded env p). split.
    { apply issued_app. simpl. rewrite Hqs, Hpre, Ha0. by rewrite <- app_assoc. }
    split_and!; auto. by rewrite Heq. }
  rewrite Ht, Hc, Hlast. destruct Hfr1 as (?&?&?&?), Hfr2 as (?&?&?&?).
  repeat split; auto; try lia; try congruence.
  by rewrite lookup_insert_eq.
Qed.
End OptimizedScan.

(** ** The scanned window (C1) *)

Example demo_scan_ProverClient :
  fst (ProverClient.scanParticipation env_demo demo_prover 10 120 world0)
  = Ok demo_result_ProverClient.
Proof. vm_compute; reflexivity. Qed.

Example demo_scan_Optimized :
  fst (OptimizedProverClient.scanParticipation env_demo 3 demo_prover 10 world0)
  = Ok demo_result_Optimized.
Proof. vm_compute; reflexivity. Qed.

(** C1 (as amended).  A scan of [ProverClient] that returns a result has
    asked for the reward of exactly the epochs max(0, E - L), ..., E, one
    logical query each, one after the other from E downwards.  A scan of
    [OptimizedProverClient] that misses the cache and returns a result has
    made, for every batch size, one logical query per epoch it asked for
    (the attempts of the queries of a batch may alternate), has asked no
    epoch twice and no epoch outside max(0, E - L + 1), ..., E, and all of
    these when L <= E. *)
Theorem scanned_epochs (env : Env) (p : string) (L : Z) :
  (∀ d w res w',
     (index w < length (RpcPool.urls env))%nat →
     ProverClient.scanParticipation env p L d w = (Ok res, w') →
     ∃ qs,
       scan_report env (length (RpcPool.urls env)) false p
         (range_down (currentEpoch res) (Z.max 0 (currentEpoch res - L))) w w' qs ∧
       NoDup (q_epoch <$> qs) ∧
       ∀ e, e ∈ q_epoch <$> qs ↔ Z.max 0 (currentEpoch res - L) ≤ e ≤ currentEpoch res)
  ∧
  (∀ batchSize w res w',
     (1 ≤ batchSize)%nat →
     (index w < length (OptimizedRpcPool.urls env))%nat →
     fst (NodeCache.get (OptimizedProverClient.cacheKey p L) w) = Ok None →
     OptimizedProverClient.scanParticipation env batchSize p L w = (Ok res, w') →
     ∃ qs,
       batched_report env p (q_epoch <$> qs) w w' qs ∧
       NoDup (q_epoch <$> qs) ∧
       (∀ e, e ∈ q_epoch <$> qs →
             Z.max 0 (currentEpoch res - L + 1) ≤ e ≤ currentEpoch res) ∧
       (L ≤ currentEpoch res →
        ∀ e, Z.max 0 (currentEpoch res - L + 1) ≤ e ≤ currentEpoch res →
             e ∈ q_epoch <$> qs)).
Proof.
  split.
  - intros d w res w' Hidx H.
    destruct (ProverClient_scan_spec env p L d w res w' Hidx H) as (qs & Hrep & _).
    exists qs. split; [exact Hrep|].
    destruct Hrep as (pre & p32 & _ & _ & _ & _ & -> & _).
    split; [apply NoDup_range_down|]. intros e. apply elem_of_range_down.
  - intros batchSize w res w' Hb Hidx Hmiss H.
    destruct (Optimized_scan_spec env batchSize p L w res w' Hb Hidx Hmiss H)
      as (qs & Hrep & _ & _ & _ & _ & _ & _ & HE & _).
    exists qs.
    assert (Heq : q_epoch <$> qs
                  = range_down (currentEpoch res)
                               (currentEpoch res - Z.min L (currentEpoch res) + 1)).
    { destruct Hrep as (pre & rest & p32 & _ & _ & _ & _ & _ & -> & _).
      apply window_epochs_range. }
    split; [by rewrite Heq, <- window_epochs_range|].
    rewrite Heq. split; [apply NoDup_range_down|]. split.
    + intros e He. apply elem_of_range_down in He. lia.
    + intros HL e He. apply elem_of_range_down. lia.
Qed.

Lemma scanned_epochs_witness :
  (∃ qs, scan_report env_demo (length (RpcPool.urls env_demo)) false demo_prover
           (range_down 50 40) world0
           (snd (ProverClient.scanParticipation env_demo demo_prover 10 120 world0)) qs ∧
         NoDup (q_epoch <$> qs) ∧ ∀ e, e ∈ q_epoch <$> qs ↔ 40 ≤ e ≤ 50) ∧
  (∃ qs, batched_report env_demo demo_prover (q_epoch <$> qs) world0
           (snd (OptimizedProverClient.scanParticipation env_demo 3 demo_prover 10 world0)) qs ∧
         NoDup (q_epoch <$> qs) ∧
         (∀ e, e ∈ q_epoch <$> qs → 41 ≤ e ≤ 50) ∧
         (10 ≤ 50 → ∀ e, 41 ≤ e ≤ 50 → e ∈ q_epoch <$> qs)).
Proof.
  split.
  - apply (proj1 (scanned_epochs env_demo demo_prover 10) 120 world0
                 demo_result_ProverClient).
    + vm_compute. lia.
    + vm_compute; reflexivity.
  - apply (proj2 (scanned_epochs env_demo demo_prover 10) 3%nat world0
                 demo_result_Optimized).
    + lia.
    + vm_compute. lia.
    + vm_compute; reflexivity.
    + vm_compute; reflexivity.
Defined.

(** C1 as stated fails: with E = 50 and L = 10, [ProverClient] also asks
    for epoch 40, which is not in 41..50. *)
Lemma scanned_epochs_counterexample :
  fst (ProverClient.scanParticipation env_demo demo_prover 10 120 world0)
    = Ok demo_result_ProverClient ∧
  GetSpecificProverRewardsForEpoch 40 demo_prover
    ∈ request <$> attempts (snd (ProverClient.scanParticipation env_demo demo_prover
                                   10 120 world0)) ∧
  ¬ (Z.max 0 (50 - 10 + 1) ≤ 40 ≤ 50).
Proof.
  split; [vm_compute; reflexivity|]. split; [|lia].
  vm_compute. repeat constructor.
Qed.

(** ** The aggregates (C7, C8) *)

(** C7.  [lastEpochParticipated] is the largest epoch of the scanned
    window whose reward is nonzero, and it is null exactly when every epoch
    of the window has reward zero.  The rewards are those of the queries
    [qs] of the scan, one per epoch of the window; in the optimized client
    the queries of a batch are in flight together and a query that failed
    three times counts as zero. *)
Theorem lastEpochParticipated_is_max (env : Env) (p : string) (L : Z) :
  (∀ d w res w',
     (index w < length (RpcPool.urls env))%nat →
     ProverClient.scanParticipation env p L d w = (Ok res, w') →
     ∃ qs,
       scan_report env (length (RpcPool.urls env)) false p
         (range_down (currentEpoch res) (Z.max 0 (currentEpoch res - L))) w w' qs ∧
       (∀ e, lastEpochParticipated res = Some e ↔
             (∃ q, q ∈ qs ∧ q_epoch q = e ∧ q_reward q ≠ 0) ∧
             (∀ q, q ∈ qs → q_reward q ≠ 0 → q_epoch q ≤ e)) ∧
       (lastEpochParticipated res = None ↔ ∀ q, q ∈ qs → q_reward q = 0))
  ∧
  (∀ batchSize w res w',
     (1 ≤ batchSize)%nat →
     (index w < length (OptimizedRpcPool.urls env))%nat →
     fst (NodeCache.get (OptimizedProverClient.cacheKey p L) w) = Ok None →
     OptimizedProverClient.scanParticipation env batchSize p L w = (Ok res, w') →
     ∃ qs,
       batched_report env p
         (OptimizedProverClient.window_epochs L (currentEpoch res)) w w' qs ∧
       (∀ e, lastEpochParticipated res = Some e ↔
             (∃ q, q ∈ qs ∧ q_epoch q = e ∧ q_reward q ≠ 0) ∧
             (∀ q, q ∈ qs → q_reward q ≠ 0 → q_epoch q ≤ e)) ∧
       (lastEpochParticipated res = None ↔ ∀ q, q ∈ qs → q_reward q = 0)).
Proof.
  split.
  - intros d w res w' Hidx H.
    destruct (ProverClient_scan_spec env p L d w res w' Hidx H)
      as (qs & Hrep & _ & _ & -> & _).
    exists qs. split; [exact Hrep|].
    destruct Hrep as (pre & p32 & _ & _ & _ & _ & Hep & _).
    split; [|apply first_participation_None].
    intros e. by eapply first_participation_Some.
  - intros batchSize w res w' Hb Hidx Hmiss H.
    destruct (Optimized_scan_spec env batchSize p L w res w' Hb Hidx Hmiss H)
      as (qs & Hrep & _ & _ & -> & _).
    exists qs. split; [exact Hrep|].
    destruct Hrep as (pre & rest & p32 & _ & _ & _ & _ & _ & Hep & _).
    rewrite window_epochs_range in Hep.
    split; [|apply first_participation_None].
    intros e. by eapply first_participation_Some.
Qed.

Lemma lastEpochParticipated_is_max_witness :
  (∃ qs, scan_report env_demo (length (RpcPool.urls env_demo)) false demo_prover
           (range_down 50 40) world0
           (snd (ProverClient.scanParticipation env_demo demo_prover 10 120 world0)) qs ∧
         (∀ e, Some 47 = Some e ↔
               (∃ q, q ∈ qs ∧ q_epoch q = e ∧ q_reward q ≠ 0) ∧
               (∀ q, q ∈ qs → q_reward q ≠ 0 → q_epoch q ≤ e)) ∧
         (Some 47 = None ↔ ∀ q, q ∈ qs → q_reward q = 0)) ∧
  (∃ qs, batched_report env_demo demo_prover
           (OptimizedProverClient.window_epochs 10 50) world0
           (snd (OptimizedProverClient.scanParticipation env_demo 3 demo_prover 10 world0)) qs ∧
         (∀ e, Some 47 = Some e ↔
               (∃ q, q ∈ qs ∧ q_epoch q = e ∧ q_reward q ≠ 0) ∧
               (∀ q, q ∈ qs → q_reward q ≠ 0 → q_epoch q ≤ e)) ∧
         (Some 47 = None ↔ ∀ q, q ∈ qs → q_reward q = 0)).
Proof.
  split.
  - apply (proj1 (lastEpochParticipated_is_max env_demo demo_prover 10) 120 world0
                 demo_result_ProverClient).
    + vm_compute. lia.
    + vm_compute; reflexivity.
  - apply (proj2 (lastEpochParticipated_is_max env_demo demo_prover 10) 3%nat world0
                 demo_result_Optimized).
    + lia.
    + vm_compute. lia.
    + vm_compute; reflexivity.
    + vm_compute; reflexivity.
Defined.

(** C8.  [totalRewardsWindow] is the sum, in unbounded integers, of the
    rewards of the scanned epochs, and [participatedCountWindow] is the
    number of scanned epochs whose reward is nonzero.  The rewards are
    those of the queries [qs] of the scan, one per epoch of the window; in
    the optimized client the queries of a batch are in flight together and
    a query that failed three times counts as zero. *)
Theorem totals_are_exact (env : Env) (p : string) (L : Z) :
  (∀ d w res w',
     (index w < length (RpcPool.urls env))%nat →
     ProverClient.scanParticipation env p L d w = (Ok res, w') →
     ∃ qs,
       scan_report env (length (RpcPool.urls env)) false p
         (range_down (currentEpoch res) (Z.max 0 (currentEpoch res - L))) w w' qs ∧
       totalRewardsWindow res = rewards_sum qs ∧
       participatedCountWindow res = participations qs)
  ∧
  (∀ batchSize w res w',
     (1 ≤ batchSize)%nat →
     (index w < length (OptimizedRpcPool.urls env))%nat →
     fst (NodeCache.get (OptimizedProverClient.cacheKey p L) w) = Ok None →
     OptimizedProverClient.scanParticipation env batchSize p L w = (Ok res, w') →
     ∃ qs,
       batched_report env p
         (OptimizedProverClient.window_epochs L (currentEpoch res)) w w' qs ∧
       totalRewardsWindow res = rewards_sum qs ∧
       participatedCountWindow res = participations qs).
Proof.
  split.
  - intros d w res w' Hidx H.
    destruct (ProverClient_scan_spec env p L d w res w' Hidx H)
      as (qs & Hrep & Ht & Hc & _).
    by exists qs.
  - intros batchSize w res w' Hb Hidx Hmiss H.
    destruct (Optimized_scan_spec env batchSize p L w res w' Hb Hidx Hmiss H)
      as (qs & Hrep & Ht & Hc & _).
    by exists qs.
Qed.

Lemma totals_are_exact_witness :
  (∃ qs, scan_report env_demo (length (RpcPool.urls env_demo)) false demo_prover
           (range_down 50 40) world0
           (snd (ProverClient.scanParticipation env_demo demo_prover 10 120 world0)) qs ∧
         5 = rewards_sum qs ∧ 1 = participations qs) ∧
  (∃ qs, batched_report env_demo demo_prover
           (OptimizedProverClient.window_epochs 10 50) world0
           (snd (OptimizedProverClient.scanParticipation env_demo 3 demo_prover 10 world0)) qs ∧
         5 = rewards_sum qs ∧ 1 = participations qs).
Proof.
  split.
  - apply (proj1 (totals_are_exact env_demo demo_prover 10) 120 world0
                 demo_result_ProverClient).
    + vm_compute. lia.
    + vm_compute; reflexivity.
  - apply (proj2 (totals_are_exact env_demo demo_prover 10) 3%nat world0
                 demo_result_Optimized).
    + lia.
    + vm_compute. lia.
    + vm_compute; reflexivity.
    + vm_compute; reflexivity.
Defined.

(** When every answer to a reward request for epoch [e] encodes
    [ledger e], the total of a [ProverClient] scan is the sum of the ledger
    over max(0, E - L) .. E. *)
Lemma rewards_sum_ledger env budget p32 (ledger : Z → Z) qs :
  (∀ t i e hex, respond env t i (GetSpecificProverRewardsForEpoch e p32) = Some hex →
                BigInt (or_0x0 (Some hex)) = Some (ledger e)) →
  Forall (query_good env budget false p32) qs →
  rewards_sum qs = foldr Z.add 0 (ledger <$> (q_epoch <$> qs)).
Proof.
  intros Hledger. induction 1 as [|q qs Hq Hqs IH]; [done|].
  rewrite rewards_sum_cons, !fmap_cons. cbn [foldr]. rewrite <- IH. f_equal.
  destruct Hq as [Hab [Han|[? _]]]; [|done].
  destruct Han as (failed & last & hex & Hq' & _ & _ & Ha & Hd).
  unfold about in Hab. rewrite Hq' in Hab.
  apply Forall_app in Hab as [_ Hlast]. inversion Hlast as [|?? [Hreq [t Hg]] _]; subst.
  rewrite Ha, Hreq in Hg. symmetry in Hg. apply Hledger in Hg. congruence.
Qed.

Lemma ProverClient_total_of_ledger env p p32 L d (ledger : Z → Z) w res w' :
  zeroPadValue32 env p = Some p32 →
  (∀ t i e hex, respond env t i (GetSpecificProverRewardsForEpoch e p32) = Some hex →
                BigInt (or_0x0 (Some hex)) = Some (ledger e)) →
  (index w < length (RpcPool.urls env))%nat →
  ProverClient.scanParticipation env p L d w = (Ok res, w') →
  totalRewardsWindow res
  = foldr Z.add 0 (ledger <$> range_down (currentEpoch res)
                                         (Z.max 0 (currentEpoch res - L))).
Proof.
  intros Hpad Hledger Hidx H.
  destruct (ProverClient_scan_spec env p L d w res w' Hidx H)
    as (qs & (pre & p32' & _ & _ & _ & Hp & Hep & Hall) & -> & _).
  rewrite <- Hep.
  destruct (decide (range_down (currentEpoch res) (Z.max 0 (currentEpoch res - L)) = []))
    as [Hnil|Hne].
  - rewrite Hnil in Hep. apply fmap_nil_inv in Hep. by subst.
  - specialize (Hp Hne). assert (p32' = p32) as -> by congruence.
    by eapply rewards_sum_ledger.
Qed.

(** ** isActiveNow (C2) *)

Lemma ProverClient_isActiveNow env p L d w res w' :
  (index w < length (RpcPool.urls env))%nat →
  ProverClient.scanParticipation env p L d w = (Ok res, w') →
  isActiveNow res
  = (currentEpoch res - toNumber (lastEpochParticipated res) <? 6)%Z.
Proof.
  intros Hidx H.
  destruct (ProverClient_scan_spec env p L d w res w' Hidx H)
    as (qs & _ & _ & _ & -> & -> & _). reflexivity.
Qed.

(** The sibling [OptimizedProverClient] guards the comparison with
    [lastEpochParticipated !== null]. *)
Lemma Optimized_isActiveNow env batchSize p L w res w' :
  (1 ≤ batchSize)%nat →
  (index w < length (OptimizedRpcPool.urls env))%nat →
  fst (NodeCache.get (OptimizedProverClient.cacheKey p L) w) = Ok None →
  OptimizedProverClient.scanParticipation env batchSize p L w = (Ok res, w') →
  isActiveNow res = true ↔
  ∃ l, lastEpochParticipated res = Some l ∧ currentEpoch res - l < 6.
Proof.
  intros Hb Hidx Hmiss H.
  destruct (Optimized_scan_spec env batchSize p L w res w' Hb Hidx Hmiss H)
    as (qs & _ & _ & _ & -> & -> & _).
  destruct (first_participation qs) as [l|].
  - rewrite Z.ltb_lt. split; [eauto|]. by intros (? & [= <-] & ?).
  - split; [done|]. by intros (? & ? & _).
Qed.

(** C2 at the failing input: at epoch 3 with no reward in the window,
    [ProverClient.scanParticipation] returns [lastEpochParticipated = null]
    together with [isActiveNow = true], because [3 - null] is 3. *)
Theorem isActiveNow_without_participation :
  fst (ProverClient.scanParticipation env_idle3 demo_prover 10 120 world0)
  = Ok (mkScanResult demo_prover 3 None 0 0 true 10 480).
Proof. vm_compute; reflexivity. Qed.

(** ** A scan, whatever it returns *)

Section CacheIrrelevance.
Variable env : Env.

Lemma callWithRetry_loop_unfold req retries k i w :
  OptimizedRpcPool.callWithRetry_loop env (S k) req retries i w
  = let w1 := push_attempt (mkAttempt (index w) req
                              (respond env (length (attempts w)) (index w) req))
                           (latency env (length (attempts w))) w in
    match respond env (length (attempts w)) (index w) req with
    | Some hex => (Ok (Some hex), w1)
    | None =>
        if (i <? retries - 1)%nat then
          OptimizedRpcPool.callWithRetry_loop env k req retries (i + 1)
            (set_now (now w1 + Z.max 0 1000)
               (set_index ((index w + 1) mod length (OptimizedRpcPool.urls env))%nat w1))
        else (Throw RpcError, w1)
    end.
Proof.
  cbn [OptimizedRpcPool.callWithRetry_loop].
  unfold catch, bind at 1, provider_call.
  destruct (respond env (length (attempts w)) (index w) req) as [hex|]; [done|].
  by destruct (i <? retries - 1)%nat.
Qed.

(** The cache plays no part in a pool call. *)
Lemma callWithRetry_loop_set_cache req retries c remaining : ∀ i w,
  OptimizedRpcPool.callWithRetry_loop env remaining req retries i (set_cache c w)
  = (fst (OptimizedRpcPool.callWithRetry_loop env remaining req retries i w),
     set_cache c (snd (OptimizedRpcPool.callWithRetry_loop env remaining req retries i w))).
Proof.
  induction remaining as [|k IH]; intros i w; [done|].
  rewrite !callWithRetry_loop_unfold. cbn zeta. simpl attempts. simpl index.
  destruct (respond env (length (attempts w)) (index w) req) as [hex|]; [done|].
  destruct (i <? retries - 1)%nat; [|done].
  rewrite <- IH. reflexivity.
Qed.

Lemma getCurrentEpoch_set_cache c w :
  OptimizedProverClient.getCurrentEpoch env (set_cache c w)
  = (fst (OptimizedProverClient.getCurrentEpoch env w),
     set_cache c (snd (OptimizedProverClient.getCurrentEpoch env w))).
Proof.
  unfold OptimizedProverClient.getCurrentEpoch, OptimizedRpcPool.callWithRetry, bind.
  rewrite callWithRetry_loop_set_cache.
  destruct (OptimizedRpcPool.callWithRetry_loop env 3 GetCurrentEpoch 3 0 w)
    as [[[hex|]|err] w1]; simpl; try done.
  by destruct (BigInt hex).
Qed.
End CacheIrrelevance.

Lemma issued_head w w' pre :
  (attempts w ++ pre) `prefix_of` attempts w' → pre ≠ [] →
  Forall (λ a, request a = GetCurrentEpoch) pre →
  ∃ a, issued w w' !! 0%nat = Some a ∧ request a = GetCurrentEpoch.
Proof.
  intros [k Hk] Hne Hall. unfold issued. rewrite Hk, <- app_assoc, drop_app_length.
  destruct pre as [|a pre]; [done|]. exists a. split; [done|].
  by inversion Hall.
Qed.

Section Rejection.
Variable env : Env.

Lemma ProverClient_scan_any p L d w r w' :
  (index w < length (RpcPool.urls env))%nat →
  ProverClient.scanParticipation env p L d w = (r, w') →
  frame w w' ∧ r ≠ Throw OutOfFuel ∧
  (∀ res, r = Ok res → getAddress env p = Some (prover res)) ∧
  ∃ pre, (attempts w ++ pre) `prefix_of` attempts w' ∧ pre ≠ [] ∧
         Forall (λ a, request a = GetCurrentEpoch) pre.
Proof.
  intros Hidx H. unfold ProverClient.scanParticipation in H.
  apply bind_inv in H as [(E & w1 & He & H)|(err & He & ->)];
    apply ProverClient_getCurrentEpoch_spec in He
      as (Hidx1 & Hfr1 & pre & Hpre & Hne & Hreq & HE); try done.
  2:{ split; [done|]. split; [congruence|]. split; [done|].
      exists pre. by rewrite Hpre. }
  assert (Hpost : ∀ w2, frame w1 w2 →
            frame w w2 ∧ ∃ pre, (attempts w ++ pre) `prefix_of` attempts w2 ∧ pre ≠ [] ∧
                                Forall (λ a, request a = GetCurrentEpoch) pre).
  { intros w2 Hfr. split; [by eapply frame_trans|]. exists pre.
    rewrite <- Hpre. by destruct Hfr as (_ & _ & _ & ?). }
  apply bind_inv in H as [(acc & w2 & Hl & H)|(err & Hl & ->)];
    apply scan_loop_spec in Hl as (Hidx2 & Hfr2 & Hres); try done; try lia.
  2:{ destruct (Hpost w' Hfr2) as [? ?]. split; [done|]. split; [congruence|]. by split. }
  destruct (Hpost w2 Hfr2) as [Hfr Hex].
  apply bind_inv in H as [(addr & w3 & Ha & H)|(err & Ha & ->)];
    apply lift_inv in Ha as [-> Ha].
  - simplify_eq. split; [done|]. split; [done|]. split; [|done].
    intros res [= <-]. simpl. by destruct Ha as [?|(? & ? & [= <-])].
  - split; [done|]. split; [|by split].
    destruct Ha as [?|(? & ? & ?)]; by simplify_eq.
Qed.

Lemma Optimized_scan_any batchSize p L w r w' :
  (1 ≤ batchSize)%nat →
  (index w < length (OptimizedRpcPool.urls env))%nat →
  fst (NodeCache.get (OptimizedProverClient.cacheKey p L) w) = Ok None →
  OptimizedProverClient.scanParticipation env batchSize p L w = (r, w') →
  r ≠ Throw OutOfFuel ∧
  (∀ res, r = Ok res → getAddress env p = Some (prover res)) ∧
  (∀ err, r = Throw err → cache w' !! OptimizedProverClient.cacheKey p L = None) ∧
  watchlist w' = watchlist w ∧ alerts w' = alerts w ∧
  (index w' < length (OptimizedRpcPool.urls env))%nat ∧
  ∃ pre, (attempts w ++ pre) `prefix_of` attempts w' ∧ pre ≠ [] ∧
         Forall (λ a, request a = GetCurrentEpoch) pre.
Proof.
  intros Hb Hidx Hmiss H. unfold OptimizedProverClient.scanParticipation in H.
  destruct (NodeCache.get (OptimizedProverClient.cacheKey p L) w) as [rc w0] eqn:Hget.
  simpl in Hmiss. subst rc.
  rewrite (bind_ok _ _ _ _ _ Hget) in H.
  assert (Hw0 : index w0 = index w ∧ attempts w0 = attempts w ∧
                watchlist w0 = watchlist w ∧ alerts w0 = alerts w ∧
                cache w0 !! OptimizedProverClient.cacheKey p L = None).
  { unfold NodeCache.get in Hget.
    destruct (cache w !! _) as [[v t]|] eqn:Hc; [destruct (negb (t =? 0) && (t <? now w))%Z|];
      simplify_eq; repeat split; auto. simpl. apply lookup_delete_eq. }
  destruct Hw0 as (Hi0 & Ha0 & Hwl0 & Hal0 & Hc0).
  unfold bind at 1 in H.
  apply bind_inv in H as [(E & w1 & He & H)|(err & He & ->)];
    apply Optimized_getCurrentEpoch_spec in He
      as (Hidx1 & Hfr1 & pre & Hpre & Hne & Hreq & HE); try (by rewrite Hi0).
  2:{ destruct Hfr1 as (Hc1 & Hwl1 & Hal1 & _).
      split; [congruence|]. split; [done|]. split; [intros; congruence|].
      split; [congruence|]. split; [congruence|]. split; [done|].
      exists pre. by rewrite Hpre, Ha0. }
  assert (Hpost : ∀ w2, frame w1 w2 →
            cache w2 !! OptimizedProverClient.cacheKey p L = None ∧
            watchlist w2 = watchlist w ∧ alerts w2 = alerts w ∧
            ∃ pre, (attempts w ++ pre) `prefix_of` attempts w2 ∧ pre ≠ [] ∧
                   Forall (λ a, request a = GetCurrentEpoch) pre).
  { intros w2 (Hc2 & Hwl2 & Hal2 & Hp2).
    destruct Hfr1 as (Hc1 & Hwl1 & Hal1 & _).
    split; [congruence|]. split; [congruence|]. split; [congruence|].
    exists pre. by rewrite <- Ha0, <- Hpre. }
  apply bind_inv in H as [([] & w1' & Hlen & H)|(err & Hlen & ->)];
    apply Array_from_length_inv in Hlen as [-> Hlen].
  2:{ destruct (Hpost w1 (frame_refl w1)) as (? & ? & ? & ?).
      split; [by destruct Hlen as [[? _]|?]; simplify_eq|]. by repeat split. }
  apply bind_inv in H as [(rewards & w2 & Hr & H)|(err & Hr & ->)];
    apply getBatchRewards_spec in Hr as (Hidx2 & Hfr2 & Hres); try done.
  2:{ destruct (Hpost w' Hfr2) as (? & ? & ? & ?).
      split; [congruence|]. by repeat split. }
  destruct (Hpost w2 Hfr2) as (Hc2 & Hwl2 & Hal2 & Hex).
  apply bind_inv in H as [(addr & w3 & Ha & H)|(err & Ha & ->)];
    apply lift_inv in Ha as [-> Ha].
  - unfold bind at 1 in H. unfold bind, NodeCache.set, ret in H. simplify_eq.
    split; [done|]. split; [|by repeat split].
    intros res [= <-]. simpl. by destruct Ha as [?|(? & ? & [= <-])].
  - split; [destruct Ha as [?|(? & ? & ?)]; by simplify_eq|]. by repeat split.
Qed.

End Rejection.

(** ** The result cache (C6) *)

Lemma Optimized_scan_hit env batchSize p L w r t0 :
  cache w !! OptimizedProverClient.cacheKey p L = Some (r, t0 + NodeCache.CACHE_TTL * 1000) →
  now w - t0 < NodeCache.CACHE_TTL * 1000 →
  OptimizedProverClient.scanParticipation env batchSize p L w = (Ok r, w).
Proof.
  intros Hc Hage. unfold OptimizedProverClient.scanParticipation.
  unfold bind, NodeCache.get. rewrite Hc.
  destruct (Z.ltb_spec (t0 + NodeCache.CACHE_TTL * 1000) (now w)); [lia|].
  by rewrite andb_false_r.
Qed.





(** ** Malformed addresses (C9) *)

(** C9 (as amended).  A scan for an address that [ethers.getAddress]
    rejects returns no result when it reaches the chain, which every scan
    of [ProverClient] does and a scan of the optimized client does on a
    cache miss: it throws, the optimized client caches nothing for it, and
    the call for the current epoch has been sent before.  On a cache hit
    the optimized client returns the entry and checks nothing. *)
Theorem malformed_address_rejected_late (env : Env) (p : string) :
  getAddress env p = None →
  (∀ L d w,
     (index w < length (RpcPool.urls env))%nat →
     ∃ err w',
       ProverClient.scanParticipation env p L d w = (Throw err, w') ∧
       err ≠ OutOfFuel ∧
       ∃ a, issued w w' !! 0%nat = Some a ∧ request a = GetCurrentEpoch)
  ∧
  (∀ batchSize L w,
     (1 ≤ batchSize)%nat →
     (index w < length (OptimizedRpcPool.urls env))%nat →
     fst (NodeCache.get (OptimizedProverClient.cacheKey p L) w) = Ok None →
     ∃ err w',
       OptimizedProverClient.scanParticipation env batchSize p L w = (Throw err, w') ∧
       err ≠ OutOfFuel ∧
       cache w' !! OptimizedProverClient.cacheKey p L = None ∧
       ∃ a, issued w w' !! 0%nat = Some a ∧ request a = GetCurrentEpoch)
  ∧
  (∀ batchSize L w r t0,
     cache w !! OptimizedProverClient.cacheKey p L
       = Some (r, t0 + NodeCache.CACHE_TTL * 1000) →
     now w - t0 < NodeCache.CACHE_TTL * 1000 →
     OptimizedProverClient.scanParticipation env batchSize p L w = (Ok r, w)).
Proof.
  intros Hbad. split; [|split].
  - intros L d w Hidx.
    destruct (ProverClient.scanParticipation env p L d w) as [r w'] eqn:H.
    destruct (ProverClient_scan_any env p L d w r w' Hidx H)
      as (_ & Hfuel & Haddr & pre & Hpre & Hne & Hreq).
    destruct r as [res|err]; [specialize (Haddr res eq_refl); congruence|].
    exists err, w'. split; [done|]. split; [congruence|]. by eapply issued_head.
  - intros batchSize L w Hb Hidx Hmiss.
    destruct (OptimizedProverClient.scanParticipation env batchSize p L w) as [r w'] eqn:H.
    destruct (Optimized_scan_any env batchSize p L w r w' Hb Hidx Hmiss H)
      as (Hfuel & Haddr & Hcache & _ & _ & _ & pre & Hpre & Hne & Hreq).
    destruct r as [res|err]; [specialize (Haddr res eq_refl); congruence|].
    exists err, w'. split; [done|]. split; [congruence|]. split; [by eapply Hcache|].
    by eapply issued_head.
  - intros batchSize L w r t0 Hc Hage. by eapply Optimized_scan_hit.
Qed.

Lemma malformed_address_rejected_late_witness :
  let w1 := snd (OptimizedProverClient.scanParticipation env_demo 3 demo_prover (-5) world0) in
  (∃ err w',
     ProverClient.scanParticipation env_demo (demo_prover +:+ "-") 5 120 world0
       = (Throw err, w') ∧
     err ≠ OutOfFuel ∧
     ∃ a, issued world0 w' !! 0%nat = Some a ∧ request a = GetCurrentEpoch) ∧
  (∃ err w',
     OptimizedProverClient.scanParticipation env_demo 3 (demo_prover +:+ "-") 5 world0
       = (Throw err, w') ∧
     err ≠ OutOfFuel ∧
     cache w' !! OptimizedProverClient.cacheKey (demo_prover +:+ "-") 5 = None ∧
     ∃ a, issued world0 w' !! 0%nat = Some a ∧ request a = GetCurrentEpoch) ∧
  OptimizedProverClient.scanParticipation env_demo 3 (demo_prover +:+ "-") 5 w1
    = (Ok (mkScanResult demo_prover 50 None 0 0 false (-5) 0), w1).
Proof.
  assert (Hbad : getAddress env_demo (demo_prover +:+ "-") = None)
    by (vm_compute; reflexivity).
  intros w1. split; [|split].
  - apply (proj1 (malformed_address_rejected_late env_demo _ Hbad) 5 120 world0).
    vm_compute. lia.
  - apply (proj1 (proj2 (malformed_address_rejected_late env_demo _ Hbad)) 3%nat 5 world0).
    + lia.
    + vm_compute. lia.
    + vm_compute; reflexivity.
  - apply (proj2 (proj2 (malformed_address_rejected_late env_demo _ Hbad)) 3%nat 5 w1
                 (mkScanResult demo_prover 50 None 0 0 false (-5) 0) 0).
    + vm_compute; reflexivity.
    + vm_compute; reflexivity.
Defined.

(** C9 as stated fails: for the string [0x1234], which is not an address,
    both clients fetch the current epoch and ask for the reward of every
    epoch of the window before [ethers.getAddress] throws; and after a scan
    of a valid address with window -5, the scan of that address followed
    by a dash, which is no address, with window 5 is served from the cache
    and not rejected at all.  The key of the scan of [text-] followed by
    an address is also the key under which [/scan-text] keeps the report
    for that address. *)
Lemma malformed_address_counterexample :
  getAddress env_demo "0x1234" = None ∧
  fst (ProverClient.scanParticipation env_demo "0x1234" 10 120 world0)
    = Throw InvalidArgument ∧
  length (attempts (snd (ProverClient.scanParticipation env_demo "0x1234" 10 120 world0)))
    = 12%nat ∧
  fst (OptimizedProverClient.scanParticipation env_demo 50 "0x1234" 10 world0)
    = Throw InvalidArgument ∧
  length (attempts (snd (OptimizedProverClient.scanParticipation env_demo 50 "0x1234"
                           10 world0)))
    = 11%nat ∧
  getAddress env_demo (demo_prover +:+ "-") = None ∧
  (let w1 := snd (OptimizedProverClient.scanParticipation env_demo 50 demo_prover (-5)
                    world0) in
   fst (OptimizedProverClient.scanParticipation env_demo 50 demo_prover (-5) world0)
     = Ok (mkScanResult demo_prover 50 None 0 0 false (-5) 0) ∧
   OptimizedProverClient.scanParticipation env_demo 50 (demo_prover +:+ "-") 5 w1
     = (Ok (mkScanResult demo_prover 50 None 0 0 false (-5) 0), w1)) ∧
  getAddress env_demo ("text-" +:+ demo_prover) = None ∧
  OptimizedProverClient.cacheKey ("text-" +:+ demo_prover) 600
    = OptimizedServer.scan_text_cacheKey demo_prover "600".
Proof. vm_compute. by split_and!. Qed.

(** ** Failed reward queries (C5) *)

Lemma window_epochs_safe L E :
  E ≤ MAX_SAFE_INTEGER →
  Forall (λ e, 0 ≤ e ≤ MAX_SAFE_INTEGER) (OptimizedProverClient.window_epochs L E).
Proof.
  intros HE. rewrite window_epochs_range. apply Forall_forall. intros e He.
  apply elem_of_range_down in He. lia.
Qed.

Section Progress.
Variable env : Env.
Variable p p32 : string.
Hypothesis Hpad : zeroPadValue32 env p = Some p32.
(** Every answer to a reward request reads as a number. *)
Hypothesis Hdec : ∀ t i e hex,
  respond env t i (GetSpecificProverRewardsForEpoch e p32) = Some hex →
  is_Some (BigInt (or_0x0 (Some hex))).

Lemma reward_calls_ok batch w :
  Forall (λ e, 0 ≤ e ≤ MAX_SAFE_INTEGER) batch →
  mapM (OptimizedProverClient.reward_call env p) batch w
  = (Ok ((λ e, GetSpecificProverRewardsForEpoch e p32) <$> batch), w).
Proof.
  induction 1 as [|e batch He Hall IH]; [done|].
  cbn [mapM]. unfold bind at 1, OptimizedProverClient.reward_call at 1.
  unfold toBeHex_throws.
  destruct (Z.ltb_spec e 0); [lia|]. destruct (Z.ltb_spec MAX_SAFE_INTEGER e); [lia|].
  cbn [orb]. rewrite Hpad. unfold bind at 1. simpl. unfold bind at 1. by rewrite IH.
Qed.

Lemma decode_ok vs w :
  Forall (λ v, is_Some (BigInt (or_0x0 v))) vs →
  ∃ rewards, mapM (λ v, lift (BigInt (or_0x0 v)) SyntaxError) vs w = (Ok rewards, w).
Proof.
  induction 1 as [|v vs [rwd Hv] Hall [rewards IH]]; [by exists []|].
  exists (rwd :: rewards). cbn [mapM]. unfold bind at 1. rewrite Hv. simpl.
  unfold bind at 1. by rewrite IH.
Qed.

Lemma kept_decodable batch : ∀ gs vs,
  Forall3 (kept env) ((λ e, GetSpecificProverRewardsForEpoch e p32) <$> batch) gs vs →
  Forall (λ v, is_Some (BigInt (or_0x0 v))) vs.
Proof.
  induction batch as [|e batch IH]; intros gs vs H3.
  - inversion H3. constructor.
  - rewrite fmap_cons in H3. inversion H3 as [|call g v calls gs' vs' Hk H3']; subst.
    constructor; [|by eapply IH].
    destruct Hk as [Hab [(failed & last & hex & -> & -> & _ & _ & Ha)|(-> & _)]].
    + apply Forall_app in Hab as [_ Hlast]. inversion Hlast as [|?? [Hreq [t Hg]] _]; subst.
      rewrite Ha, Hreq in Hg. by eapply Hdec.
    + by exists 0.
Qed.

Lemma batches_rewards_ok batches : ∀ w,
  (index w < length (OptimizedRpcPool.urls env))%nat →
  Forall (Forall (λ e, 0 ≤ e ≤ MAX_SAFE_INTEGER)) batches →
  ∃ results w', mapM (OptimizedProverClient.batch_rewards env p) batches w = (Ok results, w').
Proof.
  induction batches as [|batch batches IH]; intros w Hidx Hall; [by exists [], w|].
  inversion Hall as [|?? Hb Hbs]; subst.
  assert (Hone : ∃ rewards w1,
             OptimizedProverClient.batch_rewards env p batch w = (Ok rewards, w1)).
  { unfold OptimizedProverClient.batch_rewards.
    rewrite (bind_ok _ _ _ _ _ (reward_calls_ok batch w Hb)).
    destruct (OptimizedProverClient.Promise_all env
                ((λ e, GetSpecificProverRewardsForEpoch e p32) <$> batch) w)
      as [r w1] eqn:Hm.
    pose proof Hm as Hm'.
    apply Promise_all_spec in Hm' as (_ & _ & vs & gs & new & -> & _ & _ & Hk); [|done].
    apply kept_decodable in Hk.
    destruct (decode_ok vs w1 Hk) as [rewards Hd].
    exists rewards, w1. by rewrite (bind_ok _ _ _ _ _ Hm). }
  destruct Hone as (rewards & w1 & H1).
  pose proof H1 as Hspec. apply batch_rewards_spec in Hspec as (Hidx1 & _); [|done].
  destruct (IH w1 Hidx1 Hbs) as (results & w' & Hrest).
  exists (rewards :: results), w'. cbn [mapM].
  rewrite (bind_ok _ _ _ _ _ H1), (bind_ok _ _ _ _ _ Hrest). reflexivity.
Qed.

Lemma getBatchRewards_ok batchSize epochs w :
  (1 ≤ batchSize)%nat →
  (index w < length (OptimizedRpcPool.urls env))%nat →
  Forall (λ e, 0 ≤ e ≤ MAX_SAFE_INTEGER) epochs →
  ∃ rewards w',
    OptimizedProverClient.getBatchRewards env batchSize epochs p w = (Ok rewards, w').
Proof.
  intros Hb Hidx Hall. unfold OptimizedProverClient.getBatchRewards.
  destruct (split_batches_spec env batchSize epochs (length epochs) 0 w Hb ltac:(lia))
    as (batches & w1 & Hs & Hcat & Hi1 & _).
  rewrite drop_0 in Hcat. rewrite (bind_ok _ _ _ _ _ Hs).
  destruct (batches_rewards_ok batches w1) as (results & w' & Hr).
  { by rewrite Hi1. }
  { apply Forall_concat. by rewrite Hcat. }
  exists (concat results), w'. by rewrite (bind_ok _ _ _ _ _ Hr).
Qed.
End Progress.

(** C5 (as amended).  In [OptimizedProverClient], when the current epoch
    can be fetched and is a safe integer, the address is valid and the
    answers read as numbers, a scan that misses the cache returns a result
    whatever reward queries fail; a query for which no endpoint answers has
    three failed attempts and counts as zero; the window is to hold at
    most 2^32 - 1 epochs, the longest array there is.  In [ProverClient] a
    scan returns a result only if every epoch of its window got an
    answer. *)
Theorem failed_reward_queries (env : Env) (p : string) (L : Z) :
  (∀ batchSize w E addr p32,
     (1 ≤ batchSize)%nat →
     (index w < length (OptimizedRpcPool.urls env))%nat →
     fst (NodeCache.get (OptimizedProverClient.cacheKey p L) w) = Ok None →
     fst (OptimizedProverClient.getCurrentEpoch env w) = Ok E →
     E ≤ MAX_SAFE_INTEGER →
     Z.min L E ≤ OptimizedProverClient.MAX_ARRAY_LENGTH →
     getAddress env p = Some addr →
     zeroPadValue32 env p = Some p32 →
     (∀ t i e hex, respond env t i (GetSpecificProverRewardsForEpoch e p32) = Some hex →
                   is_Some (BigInt (or_0x0 (Some hex)))) →
     ∃ res w' qs,
       OptimizedProverClient.scanParticipation env batchSize p L w = (Ok res, w') ∧
       currentEpoch res = E ∧
       batched_report env p (OptimizedProverClient.window_epochs L E) w w' qs ∧
       totalRewardsWindow res = rewards_sum qs ∧
       ∀ q, q ∈ qs →
            (∀ t i, respond env t i (GetSpecificProverRewardsForEpoch (q_epoch q) p32) = None) →
            zeroed 3 q)
  ∧
  (∀ d w res w',
     (index w < length (RpcPool.urls env))%nat →
     ProverClient.scanParticipation env p L d w = (Ok res, w') →
     ∀ e, Z.max 0 (currentEpoch res - L) ≤ e ≤ currentEpoch res →
          ∃ t i hex,
            respond env t i (GetSpecificProverRewardsForEpoch e (padded env p)) = Some hex).
Proof.
  split.
  - intros batchSize w E addr p32 Hb Hidx Hmiss Hepoch Hsafe Harr Haddr Hpad Hdec.
    assert (Hrun : ∃ res w',
      OptimizedProverClient.scanParticipation env batchSize p L w = (Ok res, w') ∧
      currentEpoch res = E).
    { unfold OptimizedProverClient.scanParticipation.
      destruct (NodeCache.get (OptimizedProverClient.cacheKey p L) w) as [rc w0] eqn:Hget.
      simpl in Hmiss. subst rc. rewrite (bind_ok _ _ _ _ _ Hget).
      assert (Hw0 : ∃ c, w0 = set_cache c w).
      { exists (cache w0). unfold NodeCache.get in Hget.
        destruct (cache w !! _) as [[v t]|]; [destruct (negb (t =? 0) && (t <? now w))%Z|];
          inversion Hget; subst; try reflexivity; by destruct w0. }
      destruct Hw0 as [c ->]. unfold bind at 1.
      pose proof (getCurrentEpoch_set_cache env c w) as He. rewrite Hepoch in He.
      rewrite (bind_ok _ _ _ _ _ He).
      set (w1 := set_cache c (snd (OptimizedProverClient.getCurrentEpoch env w))).
      assert (Hidx1 : (index w1 < length (OptimizedRpcPool.urls env))%nat).
      { apply Optimized_getCurrentEpoch_spec in He as (? & _); done. }
      assert (Hlen : OptimizedProverClient.Array_from_length (Z.min L E) w1 = (Ok tt, w1)).
      { unfold OptimizedProverClient.Array_from_length.
        by destruct (Z.ltb_spec OptimizedProverClient.MAX_ARRAY_LENGTH (Z.min L E)); [lia|]. }
      rewrite (bind_ok _ _ _ _ _ Hlen).
      destruct (getBatchRewards_ok env p p32 Hpad Hdec batchSize
                  (OptimizedProverClient.window_epochs L E) w1 Hb Hidx1
                  (window_epochs_safe L E Hsafe)) as (rewards & w2 & Hr).
      rewrite (bind_ok _ _ _ _ _ Hr). rewrite Haddr.
      unfold lift. unfold bind at 1, ret at 1. unfold bind at 1.
      unfold bind, NodeCache.set, ret. by eexists _, _. }
    destruct Hrun as (res & w' & Hrun & HE).
    destruct (Optimized_scan_spec env batchSize p L w res w' Hb Hidx Hmiss Hrun)
      as (qs & Hrep & Ht & _).
    exists res, w', qs. rewrite HE in Hrep.
    split; [done|]. split; [done|]. split; [done|]. split; [done|].
    intros q Hq Hnone.
    destruct Hrep as (pre & rest & p32' & _ & _ & _ & _ & Hp & Hep & Hall).
    assert (Hp32 : p32' = p32).
    { assert (Hne : OptimizedProverClient.window_epochs L E ≠ []).
      { rewrite <- Hep. intros Hnil. apply fmap_nil_inv in Hnil. subst.
        by apply elem_of_nil in Hq. }
      specialize (Hp Hne). congruence. }
    subst p32'.
    rewrite Forall_forall in Hall. destruct (Hall q Hq) as [Hab [Han|[_ Hz]]]; [|done].
    exfalso. destruct Han as (failed & last & hex & Hq' & _ & _ & Ha & _).
    unfold about in Hab. rewrite Hq' in Hab.
    apply Forall_app in Hab as [_ Hlast]. inversion Hlast as [|?? [Hreq [t Hg]] _]; subst.
    rewrite Ha, Hreq, Hnone in Hg. discriminate.
  - intros d w res w' Hidx H e He.
    destruct (ProverClient_scan_spec env p L d w res w' Hidx H) as (qs & Hrep & _).
    destruct Hrep as (pre & p32 & _ & _ & _ & Hp & Hep & Hall).
    assert (Hin : e ∈ q_epoch <$> qs) by (rewrite Hep; by apply elem_of_range_down).
    apply list_elem_of_fmap in Hin as (q & -> & Hq).
    assert (Hp32 : p32 = padded env p).
    { unfold padded. rewrite Hp; [done|]. intros Hnil. rewrite Hnil in Hep.
      apply fmap_nil_inv in Hep. subst. by apply elem_of_nil in Hq. }
    subst p32.
    rewrite Forall_forall in Hall. destruct (Hall q Hq) as [Hab [Han|[? _]]]; [|done].
    destruct Han as (failed & last & hex & Hq' & _ & _ & Ha & _).
    unfold about in Hab. rewrite Hq' in Hab.
    apply Forall_app in Hab as [_ Hlast]. inversion Hlast as [|?? [Hreq [t Hg]] _]; subst.
    exists t, (endpoint last), hex. by rewrite <- Hreq, <- Hg.
Qed.

Example demo_scan_gap_Optimized :
  fst (OptimizedProverClient.scanParticipation env_gap 3 demo_prover 10 world0)
  = Ok (mkScanResult demo_prover 50 (Some 47) 1 5 true 10 2150).
Proof. vm_compute; reflexivity. Qed.

Lemma failed_reward_queries_witness :
  (∃ res w' qs,
     OptimizedProverClient.scanParticipation env_gap 3 demo_prover 10 world0 = (Ok res, w') ∧
     currentEpoch res = 50 ∧
     batched_report env_gap demo_prover (OptimizedProverClient.window_epochs 10 50)
                    world0 w' qs ∧
     totalRewardsWindow res = rewards_sum qs ∧
     ∀ q, q ∈ qs →
          (∀ t i, respond env_gap t i
                    (GetSpecificProverRewardsForEpoch (q_epoch q) demo_prover) = None) →
          zeroed 3 q) ∧
  (∀ e, Z.max 0 (50 - 10) ≤ e ≤ 50 →
        ∃ t i hex,
          respond env_demo t i
            (GetSpecificProverRewardsForEpoch e (padded env_demo demo_prover)) = Some hex).
Proof.
  split.
  - apply (proj1 (failed_reward_queries env_gap demo_prover 10) 3%nat world0 50
                 demo_prover demo_prover).
    + lia.
    + vm_compute. lia.
    + vm_compute; reflexivity.
    + vm_compute; reflexivity.
    + vm_compute. discriminate.
    + vm_compute. discriminate.
    + vm_compute; reflexivity.
    + vm_compute; reflexivity.
    + intros t i e hex H. simpl in H.
      destruct (e =? 49)%Z; [discriminate|].
      destruct (e =? 47)%Z; injection H as <-; by eexists.
  - apply (proj2 (failed_reward_queries env_demo demo_prover 10) 120 world0
                 demo_result_ProverClient
                 (snd (ProverClient.scanParticipation env_demo demo_prover 10 120 world0))).
    + vm_compute. lia.
    + vm_compute; reflexivity.
Defined.

(** C5 as stated fails for [ProverClient]: when no endpoint answers the
    reward query for epoch 49, the scan stops there with the failure of
    that query, after three attempts, and returns no result. *)
Lemma failed_reward_queries_counterexample :
  fst (ProverClient.scanParticipation env_gap demo_prover 10 120 world0) = Throw RpcError ∧
  (λ a, (endpoint a, request a, answer a)) <$>
    attempts (snd (ProverClient.scanParticipation env_gap demo_prover 10 120 world0))
  = [ (0%nat, GetCurrentEpoch, Some "0x32");
      (0%nat, GetSpecificProverRewardsForEpoch 50 demo_prover, Some "0x0");
      (0%nat, GetSpecificProverRewardsForEpoch 49 demo_prover, None);
      (1%nat, GetSpecificProverRewardsForEpoch 49 demo_prover, None);
      (2%nat, GetSpecificProverRewardsForEpoch 49 demo_prover, None) ].
Proof. split; vm_compute; reflexivity. Qed.

(** ** The watchlist sweep *)






Section Sweep.
Variable env : Env.
Variable batchSize : nat.
Hypothesis Hbatch : (1 ≤ batchSize)%nat.
Let N := length (OptimizedRpcPool.urls env).











End Sweep.

(** The scenario of the specification: a prover idle for 10 epochs at
    epoch 100 raises one alert; a second sweep at the same epoch raises
    none. *)
Example demo_sweep_once :
  alerts (snd (OptimizedProverClient.checkWatchlist env_idle10 50 world_watching))
  = [mkAlert "chat-1" demo_prover 10 100].
Proof. vm_compute; reflexivity. Qed.

Example demo_sweep_twice :
  alerts (snd (OptimizedProverClient.checkWatchlist env_idle10 50
                 (snd (OptimizedProverClient.checkWatchlist env_idle10 50 world_watching))))
  = [mkAlert "chat-1" demo_prover 10 100].
Proof. vm_compute; reflexivity. Qed.

(** ** prover.mjs (C10) *)

Example getActiveProvers_small :
  Prover.getActiveProvers
    [Prover.mkLog "0xAA" 5; Prover.mkLog "0xBB" 7; Prover.mkLog "0xaa" 1]
    [Prover.mkLog "0xaa" 2; Prover.mkLog "0xbb" 7]
    [Prover.mkLog "0xCC" 3]
  = 1%nat ∧
  active_by_net_balance
    [Prover.mkLog "0xAA" 5; Prover.mkLog "0xBB" 7; Prover.mkLog "0xaa" 1]
    [Prover.mkLog "0xaa" 2; Prover.mkLog "0xbb" 7]
    [Prover.mkLog "0xCC" 3]
  = 1%nat.
Proof. split; vm_compute; reflexivity. Qed.

Example Number_rounds : Prover.Number 100000000000000000001 = Prover.Number 100000000000000000000.
Proof. vm_compute; reflexivity. Qed.

(** C10 at the failing input: the prover keeps a net balance of one wei,
    which is positive, but [Number(amount)] rounds both amounts to the same
    binary64 value, the balance computed is 0 and the prover is not
    counted. *)
Theorem getActiveProvers_loses_precision :
  net_balance staked_100eth_1wei withdrawn_100eth []
    "0xabcdef0000000000000000000000000000000001" = 1 ∧
  active_by_net_balance staked_100eth_1wei withdrawn_100eth [] = 1%nat ∧
  Prover.getActiveProvers staked_100eth_1wei withdrawn_100eth [] = 0%nat.
Proof. repeat split; vm_compute; reflexivity. Qed.

(** ** The report and the pattern of the bot *)

Lemma strip_prefix_clash p : ∀ u t,
  clash p u = true → Bot.strip_prefix p (u +:+ t) = None.
Proof.
  induction p as [|a p IH]; intros [|b u] t; simpl; try done.
  case_bool_decide; [apply IH|done].
Qed.

Lemma strip_prefix_app p t : Bot.strip_prefix p (p +:+ t) = Some t.
Proof.
  induction p as [|a p IH]; [by destruct t|].
  rewrite string_app_cons. simpl. by rewrite bool_decide_true.
Qed.

Lemma lastEpochMatch_cons c s :
  Bot.lastEpochMatch (String c s)
  = match Bot.match_here (String c s) with
    | Some digits => Some digits
    | None => Bot.lastEpochMatch s
    end.
Proof. reflexivity. Qed.

Lemma lastEpochMatch_skip s : ∀ t,
  skippable s = true → Bot.lastEpochMatch (s +:+ t) = Bot.lastEpochMatch t.
Proof.
  induction s as [|c s IH]; intros t; [done|].
  intros [Hc Hs]%andb_true_iff.
  rewrite string_app_cons, lastEpochMatch_cons, <- string_app_cons.
  unfold Bot.match_here. rewrite (strip_prefix_clash _ _ _ Hc). by apply IH.
Qed.

Lemma no_L_skippable s : no_L s = true → skippable s = true.
Proof.
  induction s as [|c s IH]; [done|].
  intros [Hc Hs]%andb_true_iff. apply andb_true_iff. split; [|by apply IH].
  simpl. case_bool_decide as Heq; [|done]. subst c. by vm_compute in Hc.
Qed.

Lemma leading_digits_app d c t :
  all_chars Bot.is_digit d = true → Bot.is_digit c = false →
  Bot.leading_digits (d +:+ String c t) = d.
Proof.
  intros Hd Hc. induction d as [|a d IH].
  - simpl. by rewrite Hc.
  - apply andb_true_iff in Hd as [Ha Hd]. rewrite string_app_cons. simpl. by rewrite Ha, IH.
Qed.

(** The pattern followed by digits and a character that is not a digit:
    the digits are the group of the match. *)
Lemma lastEpochMatch_here d c t :
  all_chars Bot.is_digit d = true → d ≠ "" → Bot.is_digit c = false →
  Bot.lastEpochMatch ("Last Epoch Participated: " +:+ d +:+ String c t) = Some d.
Proof.
  intros Hd Hne Hc.
  change ("Last Epoch Participated: " +:+ d +:+ String c t)
    with (String "L" ("ast Epoch Participated: " +:+ d +:+ String c t)).
  rewrite lastEpochMatch_cons.
  change (String "L" ("ast Epoch Participated: " +:+ d +:+ String c t))
    with ("Last Epoch Participated: " +:+ d +:+ String c t).
  unfold Bot.match_here. rewrite strip_prefix_app, leading_digits_app by done.
  by destruct d.
Qed.

(** The pattern followed by a character that is not a digit: no match
    here, and none that starts inside the pattern. *)
Lemma lastEpochMatch_not_here c t :
  Bot.is_digit c = false →
  Bot.lastEpochMatch ("Last Epoch Participated: " +:+ String c t)
  = Bot.lastEpochMatch (String c t).
Proof.
  intros Hc.
  change ("Last Epoch Participated: " +:+ String c t)
    with (String "L" ("ast Epoch Participated: " +:+ String c t)).
  rewrite lastEpochMatch_cons.
  change (String "L" ("ast Epoch Participated: " +:+ String c t))
    with ("Last Epoch Participated: " +:+ String c t).
  unfold Bot.match_here. rewrite strip_prefix_app. simpl Bot.leading_digits. rewrite Hc.
  by apply lastEpochMatch_skip.
Qed.

Lemma lastEpochMatch_line d t :
  all_chars Bot.is_digit d = true → d ≠ "" →
  Bot.lastEpochMatch ("Last Epoch Participated: " +:+ d +:+ newline +:+ t) = Some d.
Proof. intros Hd Hne. by apply (lastEpochMatch_here d (ascii_of_nat 10) t). Qed.

Lemma lastEpochMatch_not_line c s t :
  Bot.is_digit c = false →
  Bot.lastEpochMatch ("Last Epoch Participated: " +:+ String c s +:+ t)
  = Bot.lastEpochMatch (String c s +:+ t).
Proof. intros Hc. rewrite string_app_cons. by apply lastEpochMatch_not_here. Qed.

Lemma lastEpochMatch_nil : Bot.lastEpochMatch "" = None.
Proof. reflexivity. Qed.

Lemma idle_text_no_L stats h : no_L (idle_text stats h) = true.
Proof.
  unfold idle_text. destruct (idleEpochs_of_stats stats) as [i|]; [|done].
  unfold no_L. rewrite !all_chars_app.
  fold (no_L (pretty (i * h))). fold (no_L (pretty i)). rewrite !pretty_no_L.
  by destruct (i =? 1).
Qed.

Lemma lastEpochMatch_skip_end s :
  skippable s = true → Bot.lastEpochMatch s = None.
Proof. intros Hs. rewrite <- (string_app_nil_r s). by rewrite lastEpochMatch_skip. Qed.

Ltac no_L_piece :=
  first [ assumption
        | apply pretty_no_L
        | apply idle_text_no_L
        | match goal with H : ∀ x, no_L (_ x) = true |- _ => apply H end ].

Ltac skip_piece :=
  rewrite lastEpochMatch_skip
    by first [ apply no_L_skippable; no_L_piece | vm_compute; reflexivity ].

Ltac read_report :=
  cbn [join_lines app];
  rewrite ?string_app_assoc;
  repeat skip_piece;
  change ("🔢 Last Epoch Participated: " +:+ ?X)
    with ("🔢 " +:+ ("Last Epoch Participated: " +:+ X));
  skip_piece.

(** What the pattern of the bot finds in a report: the numeral of
    [lastEpochParticipated], and nothing when that is null. *)
Lemma lastEpochMatch_Server_report stats h sh :
  no_L (prover stats) = true →
  (∀ l, lastEpochParticipated stats = Some l → 0 ≤ l) →
  Bot.lastEpochMatch (Server.formatProverMessage stats h sh)
  = pretty <$> lastEpochParticipated stats.
Proof.
  intros Hp Hl. unfold Server.formatProverMessage.
  destruct (lastEpochParticipated stats) as [l|] eqn:Hlast.
  - destruct (pretty_nonneg_digits l (Hl l eq_refl)) as (Hd & Hne & _).
    destruct sh as [s|], (isActiveNow stats); read_report;
      by rewrite lastEpochMatch_line.
  - destruct sh as [s|], (isActiveNow stats); read_report;
      (rewrite lastEpochMatch_not_line by (vm_compute; reflexivity));
      repeat skip_piece;
      apply lastEpochMatch_skip_end, no_L_skippable, idle_text_no_L.
Qed.

Lemma lastEpochMatch_Optimized_report (formatEther : Z → string) stats h sh :
  (∀ x, no_L (formatEther x) = true) →
  no_L (prover stats) = true →
  (∀ l, lastEpochParticipated stats = Some l → 0 ≤ l) →
  Bot.lastEpochMatch (OptimizedServer.formatProverMessage formatEther stats h sh)
  = pretty <$> lastEpochParticipated stats.
Proof.
  intros Hf Hp Hl. unfold OptimizedServer.formatProverMessage.
  destruct (lastEpochParticipated stats) as [l|] eqn:Hlast.
  - destruct (pretty_nonneg_digits l (Hl l eq_refl)) as (Hd & Hne & _).
    destruct sh as [s|], (isActiveNow stats); read_report;
      by rewrite lastEpochMatch_line.
  - destruct sh as [s|], (isActiveNow stats); read_report;
      (rewrite lastEpochMatch_not_line by (vm_compute; reflexivity));
      repeat skip_piece;
      apply lastEpochMatch_skip_end, no_L_skippable, idle_text_no_L.
Qed.

(** ** The pools: where they stay and how long they take *)

Lemma failover_last {A} env (inj : string → A) N budget req w res :
  failover env inj N budget req w res →
  ∃ a, last (attempts (snd res)) = Some a ∧ endpoint a = index (snd res) ∧
       request a = req ∧
       ∀ v, fst res = Ok v → ∃ hex, v = inj hex ∧ answer a = Some hex.
Proof.
  intros (new & Hatt & Hnew & Hlen & Hidx & _ & _ & _ & Hres).
  destruct (lookup_lt_is_Some_2 new (length new - 1)) as [a Ha]; [lia|].
  assert (last new = Some a) as Hlast.
  { rewrite last_lookup. by replace (pred (length new)) with (length new - 1)%nat by lia. }
  exists a. destruct (Hnew _ _ Ha) as (Hend & Hreq & _).
  split_and!; [|congruence|done|].
  - rewrite Hatt. destruct new as [|b new] using rev_ind; [done|].
    rewrite app_assoc, last_snoc. by rewrite last_snoc in Hlast.
  - intros v Hv. rewrite Hv in Hres. destruct Hres as (failed & l & hex & -> & -> & Hans & _).
    rewrite last_snoc in Hlast. injection Hlast as ->. eauto.
Qed.

Lemma latency_sum_S env t k :
  latency_sum env t (S k) = latency env t + latency_sum env (S t) k.
Proof. reflexivity. Qed.

Section PoolTime.
Variable env : Env.

Lemma safeCall_from_unfold fuel req attempt w :
  RpcPool.safeCall_from env fuel req attempt w
  = let w1 := push_attempt (mkAttempt (index w) req
                              (respond env (length (attempts w)) (index w) req))
                           (latency env (length (attempts w))) w in
    match respond env (length (attempts w)) (index w) req with
    | Some hex => (Ok hex, w1)
    | None =>
        if (attempt <? length (RpcPool.urls env) - 1)%nat then
          match fuel with
          | O => (Throw OutOfFuel, w1)
          | S fuel' =>
              RpcPool.safeCall_from env fuel' req (attempt + 1)
                (set_now (now w1 + Z.max 0 200)
                   (set_index ((index w + 1) mod length (RpcPool.urls env))%nat w1))
          end
        else (Throw RpcError, w1)
    end.
Proof.
  destruct fuel; cbn [RpcPool.safeCall_from]; unfold catch, provider_call;
    destruct (respond env (length (attempts w)) (index w) req); try reflexivity;
    destruct (attempt <? length (RpcPool.urls env) - 1)%nat; reflexivity.
Qed.

Lemma safeCall_from_time req fuel : ∀ attempt w,
  ∃ new, attempts (snd (RpcPool.safeCall_from env fuel req attempt w)) = attempts w ++ new ∧
    (1 ≤ length new)%nat ∧
    now (snd (RpcPool.safeCall_from env fuel req attempt w))
    = now w + latency_sum env (length (attempts w)) (length new)
      + 200 * Z.of_nat (length new - 1).
Proof.
  induction fuel as [|fuel IH]; intros attempt w; rewrite safeCall_from_unfold; cbn zeta.
  - exists [mkAttempt (index w) req (respond env (length (attempts w)) (index w) req)].
    destruct (respond env _ _ req); [|destruct (_ <? _)%nat];
      (split_and!; [done|simpl; lia|]); simpl; unfold latency_sum; simpl; lia.
  - destruct (respond env (length (attempts w)) (index w) req) as [hex|] eqn:Hr.
    { exists [mkAttempt (index w) req (Some hex)].
      split_and!; [done|simpl; lia|]. simpl. unfold latency_sum. simpl. lia. }
    destruct (attempt <? length (RpcPool.urls env) - 1)%nat.
    + match goal with |- context [RpcPool.safeCall_from env fuel req ?a ?w2] =>
        destruct (IH a w2) as (new & Hatt & Hlen & Hnow)
      end.
      exists (mkAttempt (index w) req None :: new).
      split_and!.
      * rewrite Hatt. simpl. by rewrite <- app_assoc.
      * simpl. lia.
      * rewrite Hnow. simpl attempts. simpl now. rewrite length_app. simpl length.
        replace (length (attempts w) + 1)%nat with (S (length (attempts w))) by lia.
        rewrite latency_sum_S. lia.
    + exists [mkAttempt (index w) req None].
      split_and!; [done|simpl; lia|]. simpl. unfold latency_sum. simpl. lia.
Qed.

Lemma callWithRetry_loop_time req retries k : ∀ i w,
  (S k + i = retries)%nat →
  ∃ new, attempts (snd (OptimizedRpcPool.callWithRetry_loop env (S k) req retries i w))
         = attempts w ++ new ∧
    (1 ≤ length new)%nat ∧
    now (snd (OptimizedRpcPool.callWithRetry_loop env (S k) req retries i w))
    = now w + latency_sum env (length (attempts w)) (length new)
      + 1000 * Z.of_nat (length new - 1).
Proof.
  induction k as [|k IH]; intros i w Hk; rewrite callWithRetry_loop_unfold; cbn zeta.
  - destruct (Nat.ltb_spec i (retries - 1)); [lia|].
    exists [mkAttempt (index w) req (respond env (length (attempts w)) (index w) req)].
    destruct (respond env _ _ req);
      (split_and!; [done|simpl; lia|]); simpl; unfold latency_sum; simpl; lia.
  - destruct (respond env (length (attempts w)) (index w) req) as [hex|] eqn:Hr.
    { exists [mkAttempt (index w) req (Some hex)].
      split_and!; [done|simpl; lia|]. simpl. unfold latency_sum. simpl. lia. }
    destruct (Nat.ltb_spec i (retries - 1)); [|lia].
    match goal with |- context [OptimizedRpcPool.callWithRetry_loop env (S k) req retries ?a ?w2] =>
      destruct (IH a w2 ltac:(lia)) as (new & Hatt & Hlen & Hnow)
    end.
    exists (mkAttempt (index w) req None :: new).
    split_and!.
    + rewrite Hatt. simpl. by rewrite <- app_assoc.
    + simpl. lia.
    + rewrite Hnow. simpl attempts. simpl now. rewrite length_app. simpl length.
      replace (length (attempts w) + 1)%nat with (S (length (attempts w))) by lia.
      rewrite latency_sum_S. lia.
Qed.
End PoolTime.

(** X1.  After a call that ran alone, with no other call using the pool
    meanwhile, the pool stays on the endpoint of the last attempt of the
    call; when the call returned, that is the endpoint that answered, and
    the next call goes to it first. *)
Theorem pool_stays_on_last_endpoint (env : Env) (req : Request) (w : World) :
  ((index w < length (RpcPool.urls env))%nat →
   let res := RpcPool.safeCall env req w in
   (index (snd res) < length (RpcPool.urls env))%nat ∧
   ∃ a, last (attempts (snd res)) = Some a ∧ endpoint a = index (snd res) ∧
        ∀ hex, fst res = Ok hex → answer a = Some hex)
  ∧
  ((index w < length (OptimizedRpcPool.urls env))%nat →
   let res := OptimizedRpcPool.callWithRetry env req 3 w in
   (index (snd res) < length (OptimizedRpcPool.urls env))%nat ∧
   ∃ a, last (attempts (snd res)) = Some a ∧ endpoint a = index (snd res) ∧
        ∀ hex, fst res = Ok hex → answer a = hex).
Proof.
  split; intros Hi res.
  - pose proof (safeCall_failover env req w Hi) as Hf. fold res in Hf.
    destruct (failover_elim _ _ _ _ _ _ _ Hf (RpcPool_urls_nonempty env)) as (Hidx & _).
    destruct (failover_last _ _ _ _ _ _ _ Hf) as (a & Hlast & Hend & _ & Hans).
    split; [done|]. exists a. split_and!; [done..|].
    intros hex Hok. destruct (Hans _ Hok) as (hex' & -> & ?). done.
  - pose proof (callWithRetry_failover env req 3 w Hi ltac:(lia)) as Hf. fold res in Hf.
    destruct (failover_elim _ _ _ _ _ _ _ Hf (OptimizedRpcPool_urls_nonempty env))
      as (Hidx & _).
    destruct (failover_last _ _ _ _ _ _ _ Hf) as (a & Hlast & Hend & _ & Hans).
    split; [done|]. exists a. split_and!; [done..|].
    intros hex Hok. destruct (Hans _ Hok) as (hex' & -> & ?). done.
Qed.

Lemma pool_stays_on_last_endpoint_witness :
  (index world0 < length (RpcPool.urls env_last_of_four))%nat ∧
  index (snd (RpcPool.safeCall env_last_of_four GetCurrentEpoch world0)) = 3%nat ∧
  (index world0 < length (OptimizedRpcPool.urls env_last_of_four))%nat ∧
  index (snd (OptimizedRpcPool.callWithRetry env_last_of_four GetCurrentEpoch 3 world0))
    = 2%nat ∧
  (∃ a, last (attempts (snd (RpcPool.safeCall env_last_of_four GetCurrentEpoch world0)))
          = Some a ∧
        endpoint a = index (snd (RpcPool.safeCall env_last_of_four GetCurrentEpoch world0))).
Proof.
  split_and!; [vm_compute; lia|vm_compute; reflexivity|vm_compute; lia
              |vm_compute; reflexivity|].
  destruct (pool_stays_on_last_endpoint env_last_of_four GetCurrentEpoch world0)
    as [H1 _].
  destruct (H1 ltac:(vm_compute; lia)) as (_ & a & Hlast & Hend & _).
  exists a. by split.
Defined.

(** X2.  A call takes the time of its attempts plus one pause after each
    failed attempt but the last: 200 ms in [safeCall], 1000 ms in
    [callWithRetry]. *)
Theorem pool_call_duration (env : Env) (req : Request) (w : World) :
  (let res := RpcPool.safeCall env req w in
   let k := length (issued w (snd res)) in
   now (snd res)
   = now w + latency_sum env (length (attempts w)) k + 200 * Z.of_nat (k - 1))
  ∧
  (let res := OptimizedRpcPool.callWithRetry env req 3 w in
   let k := length (issued w (snd res)) in
   now (snd res)
   = now w + latency_sum env (length (attempts w)) k + 1000 * Z.of_nat (k - 1)).
Proof.
  split; intros res k.
  - destruct (safeCall_from_time env req (length (RpcPool.urls env)) 0 w)
      as (new & Hatt & _ & Hnow).
    fold (RpcPool.safeCall env req w) in Hatt, Hnow. fold res in Hatt, Hnow.
    unfold k. by rewrite (issued_app _ _ _ Hatt).
  - destruct (callWithRetry_loop_time env req 3 2 0 w eq_refl) as (new & Hatt & _ & Hnow).
    fold (OptimizedRpcPool.callWithRetry env req 3 w) in Hatt, Hnow. fold res in Hatt, Hnow.
    unfold k. by rewrite (issued_app _ _ _ Hatt).
Qed.
(** ** Fail-over of a call alone and of the calls of a batch (C4) *)

Section Alone.
Variable env : Env.
Variable req : Request.
Hypothesis Hlat : ∀ t, 0 ≤ latency env t.

Lemma single_call k : ∀ i w,
  (i + k = 2)%nat →
  OptimizedProverClient.event_loop env (2 * k + 1)
    [(req, OptimizedRpcPool.InFlight i (respond env (length (attempts w)) (index w) req)
                                     (now w + latency env (length (attempts w))))]
    (log_attempt (mkAttempt (index w) req (respond env (length (attempts w)) (index w) req))
                 w)
  = (Ok [(req, match fst (OptimizedRpcPool.callWithRetry_loop env (S k) req 3 i w) with
               | Ok (Some hex) => OptimizedRpcPool.Returned hex
               | _ => OptimizedRpcPool.Thrown
               end)],
     snd (OptimizedRpcPool.callWithRetry_loop env (S k) req 3 i w)) ∧
  fst (OptimizedRpcPool.callWithRetry_loop env (S k) req 3 i w) ≠ Ok None.
Proof.
  induction k as [|k IH]; intros i w Hik; rewrite callWithRetry_loop_unfold; cbv zeta.
  - assert (i = 2%nat) as -> by lia.
    cbn [Nat.mul Nat.add OptimizedProverClient.event_loop OptimizedProverClient.next_call
         OptimizedProverClient.due_of lookup list_lookup].
    unfold OptimizedRpcPool.resume.
    pose proof (Hlat (length (attempts w))) as Hl.
    destruct (respond env (length (attempts w)) (index w) req) as [hex|]; simpl;
      (split; [|done]); unfold ret, set_now, log_attempt, push_attempt; simpl;
      do 2 f_equal; lia.
  - replace (2 * S k + 1)%nat with (S (S (2 * k + 1))) by lia.
    cbn [OptimizedProverClient.event_loop OptimizedProverClient.next_call
         OptimizedProverClient.due_of lookup list_lookup].
    unfold OptimizedRpcPool.resume at 1.
    pose proof (Hlat (length (attempts w))) as Hl.
    destruct (respond env (length (attempts w)) (index w) req) as [hex|] eqn:Hr.
    + simpl. split; [|done]. unfold ret, set_now, log_attempt, push_attempt; simpl.
      do 2 f_equal. lia.
    + assert (Hi : (i <? 3 - 1)%nat = true) by (apply Nat.ltb_lt; lia).
      rewrite Hi. cbv zeta.
      cbn [list_insert insert OptimizedProverClient.next_call OptimizedProverClient.due_of
           lookup list_lookup].
      cbn [OptimizedRpcPool.resume].
      set (w2 := set_now _ (set_index _ (push_attempt _ _ w))).
      match goal with
      | |- context [OptimizedRpcPool.send env req (i + 1) ?W] =>
          replace W with w2
      end.
      * unfold OptimizedRpcPool.send. cbn [list_insert insert].
        apply (IH (i + 1)%nat w2). lia.
      * unfold w2, set_now, set_index, log_attempt, push_attempt; simpl.
        f_equal. lia.
Qed.

(** A batch of one call is the call alone. *)
Lemma Promise_all_alone w :
  OptimizedProverClient.Promise_all env [req] w
  = (Ok [match fst (OptimizedRpcPool.callWithRetry env req 3 w) with
         | Ok v => v
         | Throw _ => Some "0x0"
         end],
     snd (OptimizedRpcPool.callWithRetry env req 3 w)).
Proof.
  unfold OptimizedProverClient.Promise_all. cbn [OptimizedProverClient.start_calls].
  unfold OptimizedRpcPool.send at 1. cbn [length Nat.mul Nat.add].
  destruct (single_call 2 0 w eq_refl) as [Hloop Hsome].
  change (2 * 2 + 1)%nat with 5%nat in Hloop.
  rewrite (bind_ok _ _ _ _ _ Hloop). unfold ret, OptimizedRpcPool.callWithRetry.
  destruct (fst (OptimizedRpcPool.callWithRetry_loop env 3 req 3 0 w)) as [[hex|]|err];
    done.
Qed.
End Alone.

(** C4 (as amended).  A logical call that runs alone, with no other call
    using the pool meanwhile: through [RpcPool.safeCall] it goes to
    consecutive endpoints starting from the active one, each endpoint at
    most once, returns the first answer it gets and throws only when all N
    endpoints have failed; [OptimizedRpcPool.callWithRetry] does the same
    within its own budget of [retries = 3] attempts, whatever N is: no
    endpoint is tried twice when 3 <= N, and a thrown failure has tried
    every endpoint when N <= 3.  The calls of a batch of [getBatchRewards]
    are in flight together and share the active endpoint: each call still
    makes at least one and at most three attempts, all answered by the
    endpoint they went to, keeps the first answer it gets and counts as
    failed, with the value 0x0, only after three failed attempts; nothing
    more holds of the endpoints it goes to.  A batch of one call is the
    call alone. *)
Theorem endpoint_pool_failover (env : Env) (req : Request) (w : World) :
  ((index w < length (RpcPool.urls env))%nat →
   let res := RpcPool.safeCall env req w in
   let N := length (RpcPool.urls env) in
   failover env id N N req w res ∧
   NoDup (endpoint <$> issued w (snd res)) ∧
   (∀ e, fst res = Throw e → ∀ i, (i < N)%nat → i ∈ endpoint <$> issued w (snd res)))
  ∧
  ((index w < length (OptimizedRpcPool.urls env))%nat →
   let res := OptimizedRpcPool.callWithRetry env req 3 w in
   let N := length (OptimizedRpcPool.urls env) in
   failover env Some N 3 req w res ∧
   ((3 ≤ N)%nat → NoDup (endpoint <$> issued w (snd res))) ∧
   ((N ≤ 3)%nat →
    ∀ e, fst res = Throw e → ∀ i, (i < N)%nat → i ∈ endpoint <$> issued w (snd res)))
  ∧
  ((index w < length (OptimizedRpcPool.urls env))%nat →
   ∀ calls,
     let res := OptimizedProverClient.Promise_all env calls w in
     (index (snd res) < length (OptimizedRpcPool.urls env))%nat ∧
     ∃ vs gs, fst res = Ok vs ∧ interleaved (issued w (snd res)) gs ∧
              Forall3 (kept env) calls gs vs)
  ∧
  ((∀ t, 0 ≤ latency env t) →
   OptimizedProverClient.Promise_all env [req] w
   = (Ok [match fst (OptimizedRpcPool.callWithRetry env req 3 w) with
          | Ok v => v
          | Throw _ => Some "0x0"
          end],
      snd (OptimizedRpcPool.callWithRetry env req 3 w))).
Proof.
  split; [|split; [|split]].
  - intros Hidx res N.
    pose proof (safeCall_failover env req w Hidx) as Hf. fold res N in Hf.
    split; [exact Hf|]. split.
    + eapply failover_NoDup; eauto.
    + intros e He i Hi. eapply failover_exhausted; eauto.
  - intros Hidx res N.
    pose proof (callWithRetry_failover env req 3 w Hidx ltac:(lia)) as Hf. fold res N in Hf.
    split; [exact Hf|]. split.
    + intros HN. eapply failover_NoDup; eauto.
    + intros HN e He i Hi. eapply failover_exhausted; eauto.
  - intros Hidx calls res.
    destruct res as [r w'] eqn:Hres. subst res. simpl fst. simpl snd.
    apply Promise_all_spec in Hres as (Hidx' & _ & vs & gs & new & -> & Hnew & Hint & Hk);
      [|done].
    split; [done|]. exists vs, gs. by rewrite (issued_app _ _ _ Hnew).
  - intros Hlat. by apply Promise_all_alone.
Qed.

Lemma endpoint_pool_failover_witness :
  (fst (RpcPool.safeCall env_last_of_four GetCurrentEpoch world0) = Ok "0x1" ∧
   failover env_last_of_four id 4 4 GetCurrentEpoch world0
     (RpcPool.safeCall env_last_of_four GetCurrentEpoch world0) ∧
   NoDup (endpoint <$> issued world0
            (snd (RpcPool.safeCall env_last_of_four GetCurrentEpoch world0)))) ∧
  (fst (OptimizedRpcPool.callWithRetry env_last_of_four GetCurrentEpoch 3 world0)
     = Throw RpcError ∧
   failover env_last_of_four Some 4 3 GetCurrentEpoch world0
     (OptimizedRpcPool.callWithRetry env_last_of_four GetCurrentEpoch 3 world0) ∧
   NoDup (endpoint <$> issued world0
            (snd (OptimizedRpcPool.callWithRetry env_last_of_four GetCurrentEpoch 3
                    world0)))) ∧
  (∃ vs gs,
     fst (OptimizedProverClient.Promise_all env_first_dead three_calls world0) = Ok vs ∧
     interleaved
       (issued world0 (snd (OptimizedProverClient.Promise_all env_first_dead three_calls
                              world0))) gs ∧
     Forall3 (kept env_first_dead) three_calls gs vs) ∧
  OptimizedProverClient.Promise_all env_last_of_four [GetCurrentEpoch] world0
  = (Ok [Some "0x0"],
     snd (OptimizedRpcPool.callWithRetry env_last_of_four GetCurrentEpoch 3 world0)).
Proof.
  assert (H1 : (index world0 < length (RpcPool.urls env_last_of_four))%nat)
    by (vm_compute; lia).
  assert (H2 : (index world0 < length (OptimizedRpcPool.urls env_last_of_four))%nat)
    by (vm_compute; lia).
  assert (H3 : (index world0 < length (OptimizedRpcPool.urls env_first_dead))%nat)
    by (vm_compute; lia).
  split; [|split; [|split]].
  - split; [vm_compute; reflexivity|].
    destruct (proj1 (endpoint_pool_failover env_last_of_four GetCurrentEpoch world0) H1)
      as (Hf & Hnd & _).
    split; [exact Hf|exact Hnd].
  - split; [vm_compute; reflexivity|].
    destruct (proj1 (proj2 (endpoint_pool_failover env_last_of_four GetCurrentEpoch world0))
                H2) as (Hf & Hnd & _).
    split; [exact Hf|]. apply Hnd. vm_compute. lia.
  - exact (proj2 (proj1 (proj2 (proj2 (endpoint_pool_failover env_first_dead
                                         GetCurrentEpoch world0))) H3 three_calls)).
  - apply (proj2 (proj2 (proj2 (endpoint_pool_failover env_last_of_four GetCurrentEpoch
                                  world0)))).
    intros t. vm_compute. discriminate.
Defined.

(** C4 as stated fails for [callWithRetry].  Alone, with four endpoints it
    gives up after three attempts although the fourth endpoint would
    answer, and with two endpoints it tries the first one twice.  In a
    batch of three calls on four endpoints every call goes from endpoint 0
    straight to endpoint 3, because each failure of the batch rotates the
    shared pool once; and on three endpoints of which only the first is
    dead, every call of the batch tries the dead endpoint three times and
    is given up, because three rotations lead back to it. *)
Lemma endpoint_pool_failover_counterexample :
  length (OptimizedRpcPool.urls env_last_of_four) = 4%nat ∧
  fst (OptimizedRpcPool.callWithRetry env_last_of_four GetCurrentEpoch 3 world0)
    = Throw RpcError ∧
  endpoint <$> attempts (snd (OptimizedRpcPool.callWithRetry env_last_of_four
                                GetCurrentEpoch 3 world0)) = [0; 1; 2]%nat ∧
  respond env_last_of_four 3 3 GetCurrentEpoch = Some "0x1" ∧
  length (OptimizedRpcPool.urls env_two_dead) = 2%nat ∧
  endpoint <$> attempts (snd (OptimizedRpcPool.callWithRetry env_two_dead
                                GetCurrentEpoch 3 world0)) = [0; 1; 0]%nat ∧
  (λ a, (endpoint a, request a)) <$>
    attempts (snd (OptimizedProverClient.Promise_all env_last_of_four three_calls world0))
  = [ (0%nat, GetSpecificProverRewardsForEpoch 3 "0x42");
      (0%nat, GetSpecificProverRewardsForEpoch 2 "0x42");
      (0%nat, GetSpecificProverRewardsForEpoch 1 "0x42");
      (3%nat, GetSpecificProverRewardsForEpoch 3 "0x42");
      (3%nat, GetSpecificProverRewardsForEpoch 2 "0x42");
      (3%nat, GetSpecificProverRewardsForEpoch 1 "0x42") ] ∧
  length (OptimizedRpcPool.urls env_first_dead) = 3%nat ∧
  fst (OptimizedProverClient.Promise_all env_first_dead three_calls world0)
    = Ok [Some "0x0"; Some "0x0"; Some "0x0"] ∧
  endpoint <$> attempts (snd (OptimizedProverClient.Promise_all env_first_dead three_calls
                                world0))
    = [0; 0; 0; 0; 0; 0; 0; 0; 0]%nat ∧
  respond env_first_dead 0 1 (GetSpecificProverRewardsForEpoch 3 "0x42") = Some "0x1".
Proof. vm_compute. by split_and!. Qed.

(** ** The batches of [getBatchRewards] *)

Lemma split_batches_unfold fuel batchSize epochs i w :
  OptimizedProverClient.split_batches (S fuel) batchSize epochs i w
  = if (i <? length epochs)%nat then
      let w1 := if (i + batchSize <? length epochs)%nat
                then set_now (now w + Z.max 0 OptimizedProverClient.EPOCH_DELAY) w
                else w in
      match OptimizedProverClient.split_batches fuel batchSize epochs (i + batchSize) w1 with
      | (Ok rest, w') => (Ok (take batchSize (drop i epochs) :: rest), w')
      | (Throw e, w') => (Throw e, w')
      end
    else (Ok [], w).
Proof.
  cbn [OptimizedProverClient.split_batches].
  destruct (i <? length epochs)%nat; [|reflexivity].
  unfold bind at 1. destruct (i + batchSize <? length epochs)%nat; reflexivity.
Qed.

Lemma div_up_step n b :
  (1 ≤ b)%nat → (1 ≤ n)%nat → ((n + b - 1) / b = S ((n - b + b - 1) / b))%nat.
Proof.
  intros Hb Hn. destruct (Nat.le_gt_cases b n) as [Hle|Hlt].
  - replace (n + b - 1)%nat with ((n - b + b - 1) + 1 * b)%nat by lia.
    rewrite Nat.div_add by lia. lia.
  - replace (n - b + b - 1)%nat with (b - 1)%nat by lia.
    rewrite (Nat.div_small (b - 1) b) by lia.
    replace (n + b - 1)%nat with ((n - 1) + 1 * b)%nat by lia.
    rewrite Nat.div_add by lia. rewrite Nat.div_small by lia. lia.
Qed.

(** The slices are the epochs cut, in order, into pieces of [batchSize],
    the last one possibly shorter; slicing sends nothing and pauses once
    per slice but the last. *)
Lemma split_batches_shape batchSize epochs fuel : ∀ i w,
  (1 ≤ batchSize)%nat →
  (length epochs - i ≤ fuel)%nat →
  ∃ batches w',
    OptimizedProverClient.split_batches fuel batchSize epochs i w = (Ok batches, w') ∧
    concat batches = drop i epochs ∧
    Forall (λ b, 1 ≤ length b ≤ batchSize)%nat batches ∧
    length batches = ((length epochs - i + batchSize - 1) / batchSize)%nat ∧
    now w' = now w + OptimizedProverClient.EPOCH_DELAY * Z.of_nat (length batches - 1) ∧
    attempts w' = attempts w ∧ index w' = index w ∧ cache w' = cache w ∧
    watchlist w' = watchlist w ∧ alerts w' = alerts w.
Proof.
  induction fuel as [|fuel IH]; intros i w Hb Hfuel.
  - exists [], w. cbn [OptimizedProverClient.split_batches].
    destruct (Nat.ltb_spec i (length epochs)); [lia|].
    split_and!; try done.
    + by rewrite drop_ge by lia.
    + replace (length epochs - i)%nat with 0%nat by lia. simpl.
      symmetry. apply Nat.div_small. lia.
    + simpl. lia.
  - rewrite split_batches_unfold.
    destruct (Nat.ltb_spec i (length epochs)) as [Hi|Hi].
    + cbn zeta.
      set (w1 := if (i + batchSize <? length epochs)%nat
                 then set_now (now w + Z.max 0 OptimizedProverClient.EPOCH_DELAY) w else w).
      destruct (IH (i + batchSize)%nat w1 Hb ltac:(lia))
        as (rest & w' & -> & Hcat & Hall & Hlen & Hnow & Hatt & Hidx & Hc & Hwl & Hal).
      exists (take batchSize (drop i epochs) :: rest), w'.
      assert (length (take batchSize (drop i epochs))
              = Nat.min batchSize (length epochs - i)) as Htake.
      { by rewrite length_take, length_drop. }
      split_and!; try done.
      * simpl. rewrite Hcat, <- drop_drop. apply take_drop.
      * constructor; [lia|done].
      * simpl. rewrite Hlen, (div_up_step (length epochs - i)) by lia.
        do 3 f_equal. lia.
      * rewrite Hnow. subst w1. simpl length.
        destruct (Nat.ltb_spec (i + batchSize) (length epochs)) as [Hmore|Hlast].
        -- assert (1 ≤ length rest)%nat.
           { rewrite Hlen. apply Nat.div_le_lower_bound; lia. }
           simpl. unfold OptimizedProverClient.EPOCH_DELAY. lia.
        -- assert (length rest = 0%nat) as ->.
           { rewrite Hlen. apply Nat.div_small. lia. }
           simpl. lia.
      * rewrite Hatt. subst w1. by destruct (_ <? _)%nat.
      * rewrite Hidx. subst w1. by destruct (_ <? _)%nat.
      * rewrite Hc. subst w1. by destruct (_ <? _)%nat.
      * rewrite Hwl. subst w1. by destruct (_ <? _)%nat.
      * rewrite Hal. subst w1. by destruct (_ <? _)%nat.
    + exists [], w. split_and!; try done.
      * by rewrite drop_ge by lia.
      * replace (length epochs - i)%nat with 0%nat by lia. simpl.
        symmetry. apply Nat.div_small. lia.
      * simpl. lia.
Qed.

(** X3.  The first loop of [getBatchRewards] cuts the epochs, in order,
    into ceil(n / batchSize) slices of at most [batchSize] epochs, none
    empty.  It sends no request, and all the pauses of [EPOCH_DELAY]
    between batches are taken here, before the first request. *)
Theorem batches_partition_the_epochs (batchSize : nat) (epochs : list Z) (w : World) :
  (1 ≤ batchSize)%nat →
  ∃ batches w',
    OptimizedProverClient.split_batches (length epochs) batchSize epochs 0 w
      = (Ok batches, w') ∧
    concat batches = epochs ∧
    Forall (λ b, 1 ≤ length b ≤ batchSize)%nat batches ∧
    length batches = ((length epochs + batchSize - 1) / batchSize)%nat ∧
    now w' = now w + OptimizedProverClient.EPOCH_DELAY * Z.of_nat (length batches - 1) ∧
    attempts w' = attempts w.
Proof.
  intros Hb.
  destruct (split_batches_shape batchSize epochs (length epochs) 0 w Hb ltac:(lia))
    as (batches & w' & Heq & Hcat & Hall & Hlen & Hnow & Hatt & _).
  exists batches, w'. split_and!; try done.
  by rewrite Nat.sub_0_r in Hlen.
Qed.

Lemma batches_partition_the_epochs_witness :
  ∃ batches w',
    OptimizedProverClient.split_batches 7 3 [50; 49; 48; 47; 46; 45; 44] 0 world0
      = (Ok batches, w') ∧
    concat batches = [50; 49; 48; 47; 46; 45; 44] ∧
    Forall (λ b, 1 ≤ length b ≤ 3)%nat batches ∧
    length batches = 3%nat ∧
    now w' = 100 ∧
    attempts w' = [].
Proof.
  destruct (batches_partition_the_epochs 3 [50; 49; 48; 47; 46; 45; 44] world0
              ltac:(vm_compute; lia))
    as (batches & w' & Heq & Hcat & Hall & Hlen & Hnow & Hatt).
  exists batches, w'. split_and!; try done.
  rewrite Hnow, Hlen. reflexivity.
Defined.

Section BatchErrors.
Variable env : Env.
Let N := length (OptimizedRpcPool.urls env).

Lemma batch_rewards_errors p batch w err w' :
  (index w < N)%nat →
  OptimizedProverClient.batch_rewards env p batch w = (Throw err, w') →
  err = InvalidArgument ∨ err = SyntaxError.
Proof.
  intros Hi Hrun. unfold OptimizedProverClient.batch_rewards in Hrun.
  apply bind_inv in Hrun as [(calls & w1 & Hcalls & Hrun)|(e & Hcalls & [= <-])].
  2:{ apply reward_calls_spec in Hcalls as [_ ->]. by left. }
  apply reward_calls_spec in Hcalls as [-> _].
  apply bind_inv in Hrun as [(vs & w2 & Hvs & Hrun)|(e & Hvs & [= <-])].
  2:{ apply Promise_all_spec in Hvs as (_ & _ & ? & ? & ? & ? & _); done. }
  apply decode_spec in Hrun as [_ ->]. by right.
Qed.

Lemma batches_rewards_errors p batches : ∀ w err w',
  (index w < N)%nat →
  mapM (OptimizedProverClient.batch_rewards env p) batches w = (Throw err, w') →
  err = InvalidArgument ∨ err = SyntaxError.
Proof.
  induction batches as [|b batches IH]; intros w err w' Hi Hrun.
  - by rewrite mapM_nil in Hrun.
  - apply mapM_cons_inv in Hrun
      as [(e & Hb & [= <-])|(y & w1 & Hb & [(e & Hrest & [= <-])|(ys & _ & ?)])]; [| |done].
    + by eapply batch_rewards_errors.
    + apply batch_rewards_spec in Hb as (Hi1 & _); [|done]. by eapply IH.
Qed.

Lemma attempts_of_queries p32 (qs : list Query) :
  Forall (query_good env 3 true p32) qs →
  (length qs ≤ length (concat (q_attempts <$> qs)) ≤ 3 * length qs)%nat.
Proof.
  induction 1 as [|q qs [_ Hq] _ IH]; [simpl; lia|].
  rewrite fmap_cons. simpl concat. rewrite length_app. simpl length.
  assert (1 ≤ length (q_attempts q) ≤ 3)%nat.
  { destruct Hq as [(failed & l & hex & Heq & Hlen & _)|[_ [Hlen _]]]; [|lia].
    split; [|done]. rewrite Heq, length_app. simpl. lia. }
  lia.
Qed.
End BatchErrors.

(** X4.  [getBatchRewards] returns one reward per epoch, none negative,
    after at least one and at most three attempts per epoch.  A reward
    query that fails never makes it throw: it throws only for an argument
    that cannot be encoded or an answer that is no number. *)
Theorem getBatchRewards_one_reward_per_epoch (env : Env) (batchSize : nat)
    (epochs : list Z) (p : string) (w : World) :
  (1 ≤ batchSize)%nat →
  (index w < length (OptimizedRpcPool.urls env))%nat →
  let res := OptimizedProverClient.getBatchRewards env batchSize epochs p w in
  match fst res with
  | Ok rewards =>
      length rewards = length epochs ∧ Forall (λ r, 0 ≤ r) rewards ∧
      (length epochs ≤ length (issued w (snd res)) ≤ 3 * length epochs)%nat
  | Throw err => err = InvalidArgument ∨ err = SyntaxError
  end.
Proof.
  intros Hb Hi res.
  destruct res as [r w'] eqn:Hres. subst res. simpl fst. simpl snd.
  destruct r as [rewards|err].
  - apply getBatchRewards_spec in Hres
      as (_ & _ & qs & Hep & Hrw & (new & Hatt & Hint) & _ & Hgood); [|done..].
    apply interleaved_length in Hint.
    split_and!.
    + by rewrite <- Hep, <- Hrw, !length_fmap.
    + rewrite <- Hrw. apply Forall_fmap. eapply Forall_impl; [exact Hgood|].
      intros q Hq. simpl. by eapply query_good_nonneg.
    + rewrite (issued_app _ _ _ Hatt), Hint, <- Hep, length_fmap.
      by eapply attempts_of_queries.
    + rewrite (issued_app _ _ _ Hatt), Hint, <- Hep, length_fmap.
      by eapply attempts_of_queries.
  - unfold OptimizedProverClient.getBatchRewards in Hres.
    destruct (split_batches_shape batchSize epochs (length epochs) 0 w Hb ltac:(lia))
      as (batches & w1 & Hsplit & _ & _ & _ & _ & _ & Hidx & _).
    rewrite (bind_ok _ _ _ _ _ Hsplit) in Hres.
    apply bind_inv in Hres as [(results & w2 & _ & ?)|(e & Hrun & [= <-])]; [done|].
    eapply batches_rewards_errors; [|exact Hrun]. by rewrite Hidx.
Qed.

Lemma getBatchRewards_one_reward_per_epoch_witness :
  fst (OptimizedProverClient.getBatchRewards env_gap 3 [50; 49; 48; 47] demo_prover world0)
    = Ok [0; 0; 0; 5] ∧
  length (issued world0
            (snd (OptimizedProverClient.getBatchRewards env_gap 3 [50; 49; 48; 47]
                    demo_prover world0))) = 6%nat ∧
  match fst (OptimizedProverClient.getBatchRewards env_gap 3 [50; 49; 48; 47] demo_prover
               world0) with
  | Ok rewards =>
      length rewards = 4%nat ∧ Forall (λ r, 0 ≤ r) rewards ∧
      (4 ≤ length (issued world0
                     (snd (OptimizedProverClient.getBatchRewards env_gap 3
                             [50%Z; 49%Z; 48%Z; 47%Z] demo_prover world0))) ≤ 3 * 4)%nat
  | Throw err => err = InvalidArgument ∨ err = SyntaxError
  end.
Proof.
  split_and!; [vm_compute; reflexivity..|].
  exact (getBatchRewards_one_reward_per_epoch env_gap 3 [50; 49; 48; 47] demo_prover world0
           ltac:(vm_compute; lia) ltac:(vm_compute; lia)).
Defined.

(** ** The cache of the second server *)



Section CacheFootprint.
Variable env : Env.

Lemma Optimized_scan_footprint batchSize p L w r w' :
  (1 ≤ batchSize)%nat →
  (index w < length (OptimizedRpcPool.urls env))%nat →
  OptimizedProverClient.scanParticipation env batchSize p L w = (r, w') →
  ∀ k, k ≠ OptimizedProverClient.cacheKey p L → cache w' !! k = cache w !! k.
Proof.
  intros Hb Hidx H k Hk. unfold OptimizedProverClient.scanParticipation in H.
  destruct (NodeCache.get (OptimizedProverClient.cacheKey p L) w) as [rc w0] eqn:Hget.
  assert (Hw0 : index w0 = index w ∧ cache w0 !! k = cache w !! k ∧ ∃ hit, rc = Ok hit).
  { unfold NodeCache.get in Hget.
    destruct (cache w !! OptimizedProverClient.cacheKey p L) as [[v t]|] eqn:Hc;
      [destruct (negb (t =? 0) && (t <? now w))%Z|];
      simplify_eq; split_and!; eauto. simpl. by apply lookup_delete_ne. }
  destruct Hw0 as (Hi0 & Hc0 & [hit ->]).
  rewrite (bind_ok _ _ _ _ _ Hget) in H.
  destruct hit as [result|]; [unfold ret in H; by simplify_eq|].
  unfold bind at 1 in H.
  apply bind_inv in H as [(E & w1 & He & H)|(err & He & ->)];
    apply Optimized_getCurrentEpoch_spec in He as (Hidx1 & (Hc1 & _) & _);
    try (by rewrite Hi0).
  2:{ by rewrite Hc1. }
  apply bind_inv in H as [([] & w1' & Hlen & H)|(err & Hlen & ->)];
    apply Array_from_length_inv in Hlen as [-> _].
  2:{ by rewrite Hc1. }
  apply bind_inv in H as [(rewards & w2 & Hr & H)|(err & Hr & ->)];
    apply getBatchRewards_spec in Hr as (Hidx2 & (Hc2 & _) & _); try done.
  2:{ by rewrite Hc2, Hc1. }
  apply bind_inv in H as [(addr & w3 & Ha & H)|(err & Ha & ->)];
    apply lift_inv in Ha as [-> Ha].
  2:{ by rewrite Hc2, Hc1. }
  unfold bind at 1 in H. unfold bind, NodeCache.set, ret in H. simplify_eq.
  simpl. rewrite lookup_insert_ne by done. by rewrite Hc2, Hc1.
Qed.
End CacheFootprint.

(** X6.  A scan reads and writes no cache entry but its own: whatever is
    cached under another key is cached unchanged after the scan, whether
    the scan hit the cache, returned or threw. *)
Theorem scan_touches_only_its_cache_entry (env : Env) (batchSize : nat) (p : string)
    (L : Z) (w : World) (k : string) :
  (1 ≤ batchSize)%nat →
  (index w < length (OptimizedRpcPool.urls env))%nat →
  k ≠ OptimizedProverClient.cacheKey p L →
  cache (snd (OptimizedProverClient.scanParticipation env batchSize p L w)) !! k
  = cache w !! k.
Proof.
  intros Hb Hi Hk.
  destruct (OptimizedProverClient.scanParticipation env batchSize p L w) as [r w'] eqn:Hrun.
  by eapply Optimized_scan_footprint.
Qed.

Lemma scan_touches_only_its_cache_entry_witness :
  cache (snd (OptimizedProverClient.scanParticipation env_demo 3 demo_prover 600
                world_cached))
    !! OptimizedProverClient.cacheKey demo_prover 10
  = Some (demo_result_Optimized, 500 + NodeCache.CACHE_TTL * 1000).
Proof.
  rewrite (scan_touches_only_its_cache_entry env_demo 3 demo_prover 600 world_cached
             (OptimizedProverClient.cacheKey demo_prover 10)
             ltac:(vm_compute; lia) ltac:(vm_compute; lia) ltac:(vm_compute; discriminate)).
  vm_compute. reflexivity.
Defined.

(** X21.  An entry past its time is not served: the scan drops it and
    goes to the chain, starting with the call for the current epoch.  If
    the scan returns, its result is cached afresh for [CACHE_TTL] seconds;
    if it throws, nothing is cached for the key any more. *)
Theorem stale_cache_entry_is_rescanned (env : Env) (batchSize : nat) (p : string) (L : Z)
    (w : World) (r : ScanResult) (t : Z) :
  (1 ≤ batchSize)%nat →
  (index w < length (OptimizedRpcPool.urls env))%nat →
  cache w !! OptimizedProverClient.cacheKey p L = Some (r, t) →
  t ≠ 0 → t < now w →
  let res := OptimizedProverClient.scanParticipation env batchSize p L w in
  (∃ a, issued w (snd res) !! 0%nat = Some a ∧ request a = GetCurrentEpoch) ∧
  match fst res with
  | Ok fresh =>
      cache (snd res) !! OptimizedProverClient.cacheKey p L
      = Some (fresh, now (snd res) + NodeCache.CACHE_TTL * 1000)
  | Throw _ => cache (snd res) !! OptimizedProverClient.cacheKey p L = None
  end.
Proof.
  intros Hb Hi Hc Ht0 Ht res.
  assert (fst (NodeCache.get (OptimizedProverClient.cacheKey p L) w) = Ok None) as Hmiss.
  { unfold NodeCache.get. rewrite Hc.
    destruct (Z.eqb_spec t 0); [done|]. destruct (Z.ltb_spec t (now w)); [done|lia]. }
  destruct res as [out w'] eqn:Hrun. subst res. simpl fst. simpl snd.
  destruct (Optimized_scan_any env batchSize p L w out w' Hb Hi Hmiss Hrun)
    as (_ & _ & Hthrow & _ & _ & _ & pre & Hpre & Hne & Hreq).
  split; [by eapply issued_head|].
  destruct out as [fresh|err]; [|by eapply Hthrow].
  by destruct (Optimized_scan_spec env batchSize p L w fresh w' Hb Hi Hmiss Hrun)
    as (qs & _ & _ & _ & _ & _ & _ & _ & _ & ? & _).
Qed.

Lemma stale_cache_entry_is_rescanned_witness :
  (∃ a, issued (set_now 100000 world_cached)
          (snd (OptimizedProverClient.scanParticipation env_demo 3 demo_prover 10
                  (set_now 100000 world_cached))) !! 0%nat = Some a ∧
        request a = GetCurrentEpoch) ∧
  fst (OptimizedProverClient.scanParticipation env_demo 3 demo_prover 10
         (set_now 100000 world_cached)) = Ok demo_result_Optimized.
Proof.
  destruct (stale_cache_entry_is_rescanned env_demo 3 demo_prover 10
              (set_now 100000 world_cached) demo_result_Optimized
              (500 + NodeCache.CACHE_TTL * 1000)
              ltac:(vm_compute; lia) ltac:(vm_compute; lia) ltac:(vm_compute; reflexivity)
              ltac:(vm_compute; discriminate) ltac:(vm_compute; reflexivity))
    as [Hfirst _].
  split; [exact Hfirst|vm_compute; reflexivity].
Defined.

(** X22.  The client of the first server has no cache: every scan, also
    one repeated at once, goes to the chain, starting with the call for
    the current epoch, and leaves the cache table as it is. *)
Theorem first_server_scans_are_never_cached (env : Env) (p : string) (L d : Z) (w : World) :
  (index w < length (RpcPool.urls env))%nat →
  let res := ProverClient.scanParticipation env p L d w in
  cache (snd res) = cache w ∧
  (∃ a, issued w (snd res) !! 0%nat = Some a ∧ request a = GetCurrentEpoch) ∧
  ∃ a, issued (snd res) (snd (ProverClient.scanParticipation env p L d (snd res))) !! 0%nat
         = Some a ∧ request a = GetCurrentEpoch.
Proof.
  intros Hi res.
  destruct res as [out w'] eqn:Hrun. subst res. simpl snd.
  destruct (ProverClient_scan_any env p L d w out w' Hi Hrun)
    as ((Hc & _) & _ & _ & pre & Hpre & Hne & Hreq).
  assert (index w' < length (RpcPool.urls env))%nat as Hi'.
  { unfold ProverClient.scanParticipation in Hrun.
    apply bind_inv in Hrun as [(E & w1 & HE & Hrun)|(err & HE & _)];
      apply ProverClient_getCurrentEpoch_spec in HE as (Hi1 & _); try done.
    apply bind_inv in Hrun as [(acc & w2 & Hloop & Hrun)|(err & Hloop & _)];
      apply scan_loop_spec in Hloop as (Hi2 & _); try done; try lia.
    apply bind_inv in Hrun as [(addr & w3 & Ha & Hrun)|(err & Ha & _)];
      apply lift_inv in Ha as [-> _]; [|done].
    by injection Hrun as _ <-. }
  split_and!; [done|by eapply issued_head|].
  destruct (ProverClient.scanParticipation env p L d w') as [out2 w2] eqn:Hrun2.
  destruct (ProverClient_scan_any env p L d w' out2 w2 Hi' Hrun2)
    as (_ & _ & _ & pre2 & Hpre2 & Hne2 & Hreq2).
  simpl snd. by eapply issued_head.
Qed.

Lemma first_server_scans_are_never_cached_witness :
  cache (snd (ProverClient.scanParticipation env_demo demo_prover 10 120 world_fragment))
  = cache world_fragment.
Proof.
  destruct (first_server_scans_are_never_cached env_demo demo_prover 10 120 world_fragment
              ltac:(vm_compute; lia)) as [Hc _].
  exact Hc.
Defined.

(** ** One sweep of the watchlist *)

Lemma NoDup_fst_functional {A B} (l : list (A * B)) x y1 y2 :
  NoDup (fst <$> l) → (x, y1) ∈ l → (x, y2) ∈ l → y1 = y2.
Proof.
  induction l as [|[a b] l IH]; intros Hnd H1 H2; [by apply elem_of_nil in H1|].
  rewrite fmap_cons in Hnd. apply NoDup_cons in Hnd as [Hnotin Hnd].
  apply elem_of_cons in H1 as [H1|H1]; apply elem_of_cons in H2 as [H2|H2].
  - congruence.
  - injection H1 as -> ->. destruct Hnotin. apply list_elem_of_fmap. by exists (a, y2).
  - injection H2 as -> ->. destruct Hnotin. apply list_elem_of_fmap. by exists (a, y1).
  - by apply IH.
Qed.



(** No endpoint answers the call for the current epoch: the sweep throws
    after three attempts. *)
Lemma getCurrentEpoch_dead env w :
  (index w < length (OptimizedRpcPool.urls env))%nat →
  (∀ t i, respond env t i GetCurrentEpoch = None) →
  ∃ w', OptimizedProverClient.getCurrentEpoch env w = (Throw RpcError, w') ∧
        frame w w' ∧ length (issued w w') = 3%nat.
Proof.
  intros Hi Hdead. unfold OptimizedProverClient.getCurrentEpoch.
  pose proof (callWithRetry_failover env GetCurrentEpoch 3 w Hi ltac:(lia)) as Hf.
  destruct (failover_elim _ _ _ _ _ _ _ Hf (OptimizedRpcPool_urls_nonempty env))
    as (_ & Hfr & new & Hatt & Hreq & _ & Hres).
  destruct (OptimizedRpcPool.callWithRetry env GetCurrentEpoch 3 w) as [r w'] eqn:Hcall.
  simpl in *. destruct r as [v|e].
  - destruct Hres as (failed & l & hex & _ & -> & Hans & _).
    apply Forall_app in Hreq as [_ Hl]. apply Forall_singleton in Hl as [Hrq [t Ht]].
    rewrite Hrq, Hdead in Ht. congruence.
  - destruct Hres as (-> & Hlen & _). exists w'.
    rewrite (bind_throw _ _ _ _ _ Hcall). split_and!; [done|done|].
    by rewrite (issued_app _ _ _ Hatt).
Qed.
Section SweepAlerts.
Variable env : Env.
Variable batchSize : nat.
Hypothesis Hbatch : (1 ≤ batchSize)%nat.
Let N := length (OptimizedRpcPool.urls env).



End SweepAlerts.



(** X8.  When no endpoint answers the call for the current epoch, a sweep
    of a watchlist that is not empty throws after three attempts; it scans
    no prover, logs no alert and leaves the watchlist and the cache as
    they are. *)
Theorem sweep_without_current_epoch (env : Env) (batchSize : nat) (w : World) :
  (index w < length (OptimizedRpcPool.urls env))%nat →
  watchlist w ≠ [] →
  (∀ t i, respond env t i GetCurrentEpoch = None) →
  let res := OptimizedProverClient.checkWatchlist env batchSize w in
  fst res = Throw RpcError ∧
  Forall (λ a, request a = GetCurrentEpoch) (issued w (snd res)) ∧
  length (issued w (snd res)) = 3%nat ∧
  watchlist (snd res) = watchlist w ∧ alerts (snd res) = alerts w ∧
  cache (snd res) = cache w.
Proof.
  intros Hi Hne Hdead res. subst res.
  destruct (getCurrentEpoch_dead env w Hi Hdead) as (w' & HE & (Hc & Hwl & Hal & _) & Hlen).
  pose proof HE as HE'.
  apply Optimized_getCurrentEpoch_spec in HE' as (_ & _ & pre & Hatt & _ & Hreq & _); [|done].
  unfold OptimizedProverClient.checkWatchlist.
  destruct (watchlist w) as [|item entries] eqn:Hw; [done|].
  rewrite (bind_throw _ _ _ _ _ HE). simpl.
  split_and!; try done. by rewrite (issued_app _ _ _ Hatt).
Qed.

Lemma sweep_without_current_epoch_witness :
  fst (OptimizedProverClient.checkWatchlist env_two_dead 50 world_watching) = Throw RpcError ∧
  length (issued world_watching
            (snd (OptimizedProverClient.checkWatchlist env_two_dead 50 world_watching)))
    = 3%nat.
Proof.
  destruct (sweep_without_current_epoch env_two_dead 50 world_watching
              ltac:(vm_compute; lia) ltac:(discriminate) ltac:(reflexivity))
    as (Hthrow & _ & Hlen & _).
  by split.
Defined.

(** ** The watchlist routes of the second server *)

Section AssocList.
Context {K V : Type} `{EqDecision K}.
Implicit Types (c : K) (e : V) (l : list (K * V)).

Lemma existsb_key_iff c l :
  existsb (λ p, bool_decide (fst p = c)) l = true ↔ c ∈ fst <$> l.
Proof.
  induction l as [|p l IH]; cbn [existsb].
  - split; [done|]. by intros ?%elem_of_nil.
  - rewrite fmap_cons, elem_of_cons, orb_true_iff, bool_decide_eq_true, IH.
    split; intros [?|?]; auto.
Qed.

Lemma find_key_replace c e l :
  existsb (λ p, bool_decide (fst p = c)) l = true →
  find (λ p, bool_decide (fst p = c))
       (map (λ p : K * V, if bool_decide (fst p = c) then (c, e) else p) l)
  = Some (c, e).
Proof.
  induction l as [|p l IH]; simpl; [done|].
  destruct (bool_decide (fst p = c)) eqn:Hp; simpl.
  - intros _. by rewrite bool_decide_true.
  - intros Hex. rewrite Hp. by apply IH.
Qed.

Lemma find_key_replace_other c c' e l :
  c' ≠ c →
  find (λ p, bool_decide (fst p = c'))
       (map (λ p : K * V, if bool_decide (fst p = c) then (c, e) else p) l)
  = find (λ p, bool_decide (fst p = c')) l.
Proof.
  intros Hne. induction l as [|p l IH]; simpl; [done|].
  destruct (bool_decide (fst p = c)) eqn:Hp; simpl.
  - apply bool_decide_eq_true in Hp.
    rewrite !bool_decide_false by congruence. done.
  - destruct (bool_decide (fst p = c')); [done|]. done.
Qed.

Lemma find_key_snoc c c' e l :
  find (λ p, bool_decide (fst p = c')) (l ++ [(c, e)])
  = match find (λ p, bool_decide (fst p = c')) l with
    | Some p => Some p
    | None => if bool_decide (c = c') then Some (c, e) else None
    end.
Proof.
  induction l as [|p l IH]; simpl; [done|].
  by destruct (bool_decide (fst p = c')).
Qed.

Lemma find_key_None c l :
  existsb (λ p, bool_decide (fst p = c)) l = false →
  find (λ p, bool_decide (fst p = c)) l = None.
Proof.
  induction l as [|p l IH]; simpl; [done|].
  destruct (bool_decide (fst p = c)); [done|]. done.
Qed.

Lemma find_key_Some c l p :
  find (λ p, bool_decide (fst p = c)) l = Some p → p ∈ l ∧ fst p = c.
Proof.
  induction l as [|q l IH]; simpl; [done|].
  destruct (bool_decide (fst q = c)) eqn:Hq.
  - intros [= <-]. apply bool_decide_eq_true in Hq. split; [by left|done].
  - intros Hf. destruct (IH Hf). split; [by right|done].
Qed.

Lemma find_key_filter c c' l :
  find (λ p, bool_decide (fst p = c')) (filter (λ p, fst p ≠ c) l)
  = if bool_decide (c' = c) then None else find (λ p, bool_decide (fst p = c')) l.
Proof.
  induction l as [|p l IH]; [by case_bool_decide|].
  destruct (decide (fst p = c)) as [Hp|Hp].
  - rewrite filter_cons_False by (by intros ?). rewrite IH. simpl.
    case_bool_decide as Hc; [done|]. rewrite bool_decide_false by congruence. done.
  - rewrite filter_cons_True by done. simpl. destruct (bool_decide (fst p = c')) eqn:Hp'.
    + apply bool_decide_eq_true in Hp'. rewrite bool_decide_false by congruence. done.
    + exact IH.
Qed.

Lemma filter_key_NoDup c l :
  NoDup (fst <$> l) → NoDup (fst <$> filter (λ p, fst p ≠ c) l).
Proof.
  induction l as [|p l IH]; [done|]. rewrite fmap_cons. intros [Hp Hnd]%NoDup_cons.
  destruct (decide (fst p = c)) as [Heq|Hne].
  - rewrite filter_cons_False by (by intros ?). by apply IH.
  - rewrite filter_cons_True by done. rewrite fmap_cons. apply NoDup_cons. split; [|by apply IH].
    intros Hin. apply Hp. apply list_elem_of_fmap in Hin as (q & -> & Hq).
    apply list_elem_of_filter in Hq as [_ Hq]. apply list_elem_of_fmap. by exists q.
Qed.

Lemma filter_key_absent c l :
  c ∉ fst <$> l → filter (λ p, fst p ≠ c) l = l.
Proof.
  induction l as [|p l IH]; [done|]. rewrite fmap_cons, not_elem_of_cons. intros [Hp Hl].
  rewrite filter_cons_True by done. by rewrite IH.
Qed.

Lemma replace_key_keys c e l :
  fst <$> map (λ p : K * V, if bool_decide (fst p = c) then (c, e) else p) l = fst <$> l.
Proof.
  change (map ?f l) with (f <$> l). rewrite <- list_fmap_compose.
  apply list_fmap_ext. intros i p _. simpl. by case_bool_decide.
Qed.
End AssocList.











(** ** The commands of the bot *)

Lemma set_add_spec addr s :
  BotCommands.set_add addr s ≠ [] ∧ addr ∈ BotCommands.set_add addr s ∧
  (NoDup s → NoDup (BotCommands.set_add addr s)) ∧
  (addr ∈ s → BotCommands.set_add addr s = s).
Proof.
  unfold BotCommands.set_add. case_bool_decide as Hin.
  - split_and!; try done. by destruct s; [apply elem_of_nil in Hin|].
  - split_and!; try done.
    + by destruct s.
    + apply elem_of_app. right. by left.
    + intros Hnd. apply NoDup_app. split_and!; [done| |apply NoDup_singleton].
      intros x Hx ->%list_elem_of_singleton. done.
Qed.

Lemma set_delete_snoc addr s :
  addr ∉ s → BotCommands.set_delete addr (s ++ [addr]) = s.
Proof.
  intros Hnotin. unfold BotCommands.set_delete. rewrite filter_app.
  rewrite filter_cons_False, filter_nil, app_nil_r by (by intros ?).
  induction s as [|a s IH]; [done|].
  apply not_elem_of_cons in Hnotin as [Hne Hs].
  rewrite filter_cons_True by done. by rewrite IH.
Qed.

Lemma map_get_elem c wl s :
  BotCommands.map_get c wl = Some s → (c, s) ∈ wl.
Proof.
  unfold BotCommands.map_get. destruct (find _ wl) as [[c' s']|] eqn:Hf; [|done].
  intros [= <-]. apply find_key_Some in Hf as [Hin Hc]. simpl in Hc. by subst.
Qed.

Lemma map_get_None c wl :
  BotCommands.map_get c wl = None ↔ c ∉ fst <$> wl.
Proof.
  unfold BotCommands.map_get. rewrite <- (existsb_key_iff c wl). split.
  - destruct (find _ wl) as [p|] eqn:Hf; [done|]. intros _ Hex.
    induction wl as [|q wl IH]; [done|]. simpl in *.
    destruct (bool_decide (fst q = c)); [done|]. by apply IH.
  - intros Hex. rewrite find_key_None; [done|]. by destruct (existsb _ wl).
Qed.

Lemma map_get_set c s wl :
  BotCommands.map_get c (BotCommands.map_set c s wl) = Some s.
Proof.
  unfold BotCommands.map_get, BotCommands.map_set.
  destruct (existsb _ wl) eqn:Hex.
  - by rewrite find_key_replace.
  - rewrite find_key_snoc, find_key_None by done. by rewrite bool_decide_true.
Qed.

Lemma map_get_set_other c c' s wl :
  c' ≠ c →
  BotCommands.map_get c' (BotCommands.map_set c s wl) = BotCommands.map_get c' wl.
Proof.
  intros Hne. unfold BotCommands.map_get, BotCommands.map_set.
  destruct (existsb _ wl) eqn:Hex.
  - by rewrite find_key_replace_other.
  - rewrite find_key_snoc. rewrite bool_decide_false by congruence.
    by destruct (find _ wl).
Qed.

Lemma map_get_delete c c' wl :
  BotCommands.map_get c' (BotCommands.map_delete c wl)
  = if bool_decide (c' = c) then None else BotCommands.map_get c' wl.
Proof.
  unfold BotCommands.map_get, BotCommands.map_delete.
  rewrite find_key_filter. by case_bool_decide.
Qed.

Lemma map_set_ok c s wl :
  s ≠ [] → NoDup s → bot_watchlist_ok wl → bot_watchlist_ok (BotCommands.map_set c s wl).
Proof.
  intros Hne Hnd [Hkeys Hall]. unfold BotCommands.map_set.
  destruct (existsb _ wl) eqn:Hex; split.
  - by rewrite replace_key_keys.
  - change (map ?f wl) with (f <$> wl). apply Forall_fmap.
    eapply Forall_impl; [exact Hall|]. intros p Hp. simpl. by case_bool_decide.
  - rewrite fmap_app. apply NoDup_app. split_and!; [done| |apply NoDup_singleton].
    intros k Hk ->%list_elem_of_singleton. simpl in Hk.
    apply existsb_key_iff in Hk. congruence.
  - apply Forall_app. split; [done|]. by apply Forall_singleton.
Qed.

Lemma map_delete_ok c wl :
  bot_watchlist_ok wl → bot_watchlist_ok (BotCommands.map_delete c wl).
Proof.
  intros [Hkeys Hall]. split; [by apply filter_key_NoDup|].
  unfold BotCommands.map_delete. rewrite Forall_forall in *.
  intros p [_ Hp]%list_elem_of_filter. by apply Hall.
Qed.

Section BotCommandProofs.
Variable normAddr : string → option string.

Lemma watch_ok c parts wl :
  bot_watchlist_ok wl → bot_watchlist_ok (snd (BotCommands.watch normAddr c parts wl)).
Proof.
  intros Hok. unfold BotCommands.watch.
  destruct parts as [|cmd [|arg parts]]; [done..|].
  destruct (normAddr arg) as [addr|]; [|done]. simpl.
  destruct (set_add_spec addr (default [] (BotCommands.map_get c wl)))
    as (Hne & _ & Hnd & _).
  apply map_set_ok; [done| |done]. apply Hnd.
  destruct (BotCommands.map_get c wl) as [s|] eqn:Hget; [|apply NoDup_nil_2].
  apply map_get_elem in Hget. destruct Hok as [_ Hall].
  rewrite Forall_forall in Hall. by destruct (Hall _ Hget).
Qed.

Lemma unwatch_ok c parts wl :
  bot_watchlist_ok wl → bot_watchlist_ok (snd (BotCommands.unwatch normAddr c parts wl)).
Proof.
  intros Hok. unfold BotCommands.unwatch.
  destruct parts as [|cmd [|arg parts]]; [done..|].
  destruct (normAddr arg) as [addr|]; [|done].
  destruct (BotCommands.map_get c wl) as [s|] eqn:Hget; [|done]. simpl.
  destruct (BotCommands.set_delete addr s) as [|a s'] eqn:Hdel.
  - by apply map_delete_ok.
  - apply map_set_ok; [done| |done]. rewrite <- Hdel.
    apply map_get_elem in Hget. destruct Hok as [_ Hall].
    rewrite Forall_forall in Hall. destruct (Hall _ Hget) as [_ Hnd].
    by apply NoDup_filter.
Qed.
End BotCommandProofs.

(** X11.  [/watch] and [/unwatch] keep the watchlist of the bot well
    formed: one entry per chat, no address twice for a chat, no chat
    without an address.  So, when the watchlist is not empty, its first
    chat watches an address: the sample prover of [monitorOnce] exists. *)
Theorem bot_watchlist_stays_wellformed (normAddr : string → option string)
    (c : Z) (parts : list string) (wl : list (Z * list string)) :
  bot_watchlist_ok wl →
  bot_watchlist_ok (snd (BotCommands.watch normAddr c parts wl)) ∧
  bot_watchlist_ok (snd (BotCommands.unwatch normAddr c parts wl)) ∧
  (wl ≠ [] → ∃ chat sampleProver s rest, wl = (chat, sampleProver :: s) :: rest).
Proof.
  intros Hok. split_and!.
  - by apply watch_ok.
  - by apply unwatch_ok.
  - intros Hne. destruct wl as [|[chat s] rest]; [done|].
    destruct Hok as [_ Hall]. apply Forall_cons in Hall as [[Hs _] _].
    destruct s as [|a s]; [done|]. by exists chat, a, s, rest.
Qed.

Lemma bot_watchlist_stays_wellformed_witness :
  bot_watchlist_ok
    (snd (BotCommands.watch demo_normAddr 7 ["/watch"; demo_prover] demo_watchlist)) ∧
  bot_watchlist_ok
    (snd (BotCommands.unwatch demo_normAddr 1 ["/unwatch"; demo_prover] demo_watchlist)) ∧
  snd (BotCommands.unwatch demo_normAddr 1 ["/unwatch"; demo_prover] demo_watchlist) = [].
Proof.
  assert (bot_watchlist_ok demo_watchlist) as Hok.
  { split; [apply NoDup_singleton|].
    apply Forall_singleton. split; [discriminate|apply NoDup_singleton]. }
  destruct (bot_watchlist_stays_wellformed demo_normAddr 7 ["/watch"; demo_prover]
              demo_watchlist Hok) as (Hw & _ & _).
  destruct (bot_watchlist_stays_wellformed demo_normAddr 1 ["/unwatch"; demo_prover]
              demo_watchlist Hok) as (_ & Hu & _).
  split_and!; [exact Hw|exact Hu|vm_compute; reflexivity].
Defined.

(** X12.  After [/watch] the chat lists the address, in its normalised
    form and once however often it was added; the lists of the other
    chats are as before. *)
Theorem watch_then_list (normAddr : string → option string) (c : Z) (cmd arg : string)
    (rest : list string) (addr : string) (wl : list (Z * list string)) :
  normAddr arg = Some addr →
  let res := BotCommands.watch normAddr c (cmd :: arg :: rest) wl in
  fst res = BotCommands.Watching addr ∧
  (∃ s, BotCommands.list_watches c (snd res) = BotCommands.Watched s ∧ addr ∈ s ∧
        (bot_watchlist_ok wl → NoDup s)) ∧
  (∀ c', c' ≠ c →
     BotCommands.list_watches c' (snd res) = BotCommands.list_watches c' wl) ∧
  snd (BotCommands.watch normAddr c (cmd :: arg :: rest) (snd res)) = snd res.
Proof.
  intros Hnorm res. subst res. unfold BotCommands.watch. rewrite Hnorm. simpl fst. simpl snd.
  set (s := default [] (BotCommands.map_get c wl)).
  destruct (set_add_spec addr s) as (Hne & Hin & Hnd & Hsame).
  split_and!.
  - done.
  - exists (BotCommands.set_add addr s). split_and!; [|done|].
    + unfold BotCommands.list_watches. rewrite map_get_set.
      by destruct (BotCommands.set_add addr s).
    + intros [_ Hall]. apply Hnd. subst s.
      destruct (BotCommands.map_get c wl) as [s0|] eqn:Hget; [|apply NoDup_nil_2].
      apply map_get_elem in Hget. rewrite Forall_forall in Hall.
      by destruct (Hall _ Hget).
  - intros c' Hc'. unfold BotCommands.list_watches. by rewrite map_get_set_other.
  - rewrite map_get_set. simpl default.
    rewrite (proj2 (proj2 (proj2 (set_add_spec addr (BotCommands.set_add addr s))))) by done.
    unfold BotCommands.map_set at 1.
    assert (existsb (λ p, bool_decide (fst p = c))
              (BotCommands.map_set c (BotCommands.set_add addr s) wl) = true) as ->.
    { apply existsb_key_iff. unfold BotCommands.map_set.
      destruct (existsb _ wl) eqn:Hex.
      - rewrite replace_key_keys. by apply existsb_key_iff.
      - rewrite fmap_app. apply elem_of_app. right. by left. }
    change (map ?f ?l) with (f <$> l). rewrite <- (list_fmap_id (BotCommands.map_set _ _ _)) at 2.
    apply list_fmap_ext. intros i [c' s'] Hi. simpl. case_bool_decide as Hc; [|done].
    simpl in Hc. subst c'. f_equal.
    apply list_elem_of_lookup_2 in Hi.
    unfold BotCommands.map_set in Hi. destruct (existsb _ wl) eqn:Hex.
    + change (map ?f wl) with (f <$> wl) in Hi.
      apply list_elem_of_fmap in Hi as ([c'' s''] & Heq & _). simpl in Heq.
      case_bool_decide as Hc''; [by injection Heq|].
      injection Heq as <- <-. done.
    + apply elem_of_app in Hi as [Hi|Hi].
      * assert (c ∈ fst <$> wl) as Hc' by (apply list_elem_of_fmap; by exists (c, s')).
        apply existsb_key_iff in Hc'. congruence.
      * apply list_elem_of_singleton in Hi. by injection Hi.
Qed.

Lemma watch_then_list_witness :
  fst (BotCommands.watch demo_normAddr 7
         ["/watch"; "0000000000000000000000000000000000000042"] demo_watchlist)
    = BotCommands.Watching demo_prover ∧
  BotCommands.list_watches 7
    (snd (BotCommands.watch demo_normAddr 7
            ["/watch"; "0000000000000000000000000000000000000042"] demo_watchlist))
  = BotCommands.Watched [demo_prover].
Proof.
  destruct (watch_then_list demo_normAddr 7 "/watch"
              "0000000000000000000000000000000000000042" [] demo_prover demo_watchlist
              ltac:(vm_compute; reflexivity))
    as (Hreply & _).
  split; [exact Hreply|vm_compute; reflexivity].
Defined.

(** X13.  [/unwatch] undoes [/watch]: watching an address the chat did
    not watch and unwatching it again gives back the watchlist as it was,
    and the chat is told that the watch has stopped. *)
Theorem unwatch_undoes_watch (normAddr : string → option string) (c : Z)
    (cmd cmd' arg : string) (rest rest' : list string) (addr : string)
    (wl : list (Z * list string)) :
  bot_watchlist_ok wl →
  normAddr arg = Some addr →
  addr ∉ default [] (BotCommands.map_get c wl) →
  BotCommands.unwatch normAddr c (cmd' :: arg :: rest')
    (snd (BotCommands.watch normAddr c (cmd :: arg :: rest) wl))
  = (BotCommands.Stopped addr, wl).
Proof.
  intros [Hkeys Hall] Hnorm Hnotin. unfold BotCommands.watch, BotCommands.unwatch.
  rewrite Hnorm. simpl snd. rewrite map_get_set.
  assert (BotCommands.set_add addr (default [] (BotCommands.map_get c wl))
          = default [] (BotCommands.map_get c wl) ++ [addr]) as ->.
  { unfold BotCommands.set_add. by rewrite bool_decide_false. }
  rewrite set_delete_snoc by done.
  rewrite bool_decide_true by (apply elem_of_app; right; by left).
  f_equal.
  destruct (BotCommands.map_get c wl) as [s|] eqn:Hget; simpl default.
  - pose proof (map_get_elem _ _ _ Hget) as Hin.
    rewrite Forall_forall in Hall. destruct (Hall _ Hin) as [Hs _]. simpl in Hs.
    destruct s as [|a s]; [done|].
    assert (existsb (λ p, bool_decide (fst p = c)) wl = true) as Hex.
    { apply existsb_key_iff, list_elem_of_fmap. by exists (c, a :: s). }
    unfold BotCommands.map_set. rewrite Hex.
    assert (existsb (λ p, bool_decide (fst p = c))
              (map (λ p : Z * list string,
                      if bool_decide (fst p = c) then (c, (a :: s) ++ [addr]) else p) wl)
            = true) as ->.
    { apply existsb_key_iff. rewrite replace_key_keys. by apply existsb_key_iff. }
    change (map ?f ?l) with (f <$> l). rewrite <- list_fmap_compose.
    rewrite <- (list_fmap_id wl) at 2. apply list_fmap_ext.
    intros i [c' s'] Hi. simpl. destruct (decide (c' = c)) as [->|Hne].
    + repeat (rewrite (bool_decide_true (c = c)) by done; simpl). f_equal.
      apply list_elem_of_lookup_2 in Hi.
      by apply (NoDup_fst_functional wl c).
    + repeat (rewrite (bool_decide_false (c' = c)) by done; simpl). done.
  - apply map_get_None in Hget. simpl.
    unfold BotCommands.map_set.
    destruct (existsb _ wl) eqn:Hex; [by apply existsb_key_iff in Hex|].
    unfold BotCommands.map_delete. rewrite filter_app, filter_key_absent by done.
    rewrite filter_cons_False by (by intros ?). by rewrite filter_nil, app_nil_r.
Qed.

Lemma unwatch_undoes_watch_witness :
  BotCommands.unwatch demo_normAddr 7 ["/unwatch"; demo_prover]
    (snd (BotCommands.watch demo_normAddr 7 ["/watch"; demo_prover] demo_watchlist))
  = (BotCommands.Stopped demo_prover, demo_watchlist).
Proof.
  apply (unwatch_undoes_watch demo_normAddr 7 "/watch" "/unwatch" demo_prover [] []
           demo_prover demo_watchlist).
  - split; [apply NoDup_singleton|].
    apply Forall_singleton. split; [discriminate|apply NoDup_singleton].
  - vm_compute. reflexivity.
  - vm_compute. apply not_elem_of_nil.
Defined.

(** ** One round of [monitorOnce] *)

Section MonitorProofs.
Variable srv : Bot.Server.
Variable THRESH_IDLE currentEpoch : Z.

Lemma check_address_spec chatId addr t :
  message_subject <$> fst (Bot.check_address srv THRESH_IDLE currentEpoch chatId addr t)
    `sublist_of` [(chatId, addr)] ∧
  snd (Bot.check_address srv THRESH_IDLE currentEpoch chatId addr t) = S t ∧
  Forall (above_threshold THRESH_IDLE)
         (fst (Bot.check_address srv THRESH_IDLE currentEpoch chatId addr t)).
Proof.
  unfold Bot.check_address.
  destruct (Bot.scanText srv t addr) as [statusText|]; [|by split_and!; [apply sublist_nil_l|..]].
  destruct (Bot.lastEpochMatch statusText) as [digits|].
  - destruct (Z.leb_spec THRESH_IDLE (currentEpoch - Bot.parseInt digits)); simpl.
    + split_and!; [done|done|]. by apply Forall_singleton.
    + split_and!; [apply sublist_nil_l|done|done].
  - simpl. split_and!; [done|done|]. by apply Forall_singleton.
Qed.

Lemma check_addresses_spec chatId addrs : ∀ t,
  message_subject <$> fst (Bot.check_addresses srv THRESH_IDLE currentEpoch chatId addrs t)
    `sublist_of` ((λ addr, (chatId, addr)) <$> addrs) ∧
  snd (Bot.check_addresses srv THRESH_IDLE currentEpoch chatId addrs t)
    = (t + length addrs)%nat ∧
  Forall (above_threshold THRESH_IDLE)
         (fst (Bot.check_addresses srv THRESH_IDLE currentEpoch chatId addrs t)).
Proof.
  induction addrs as [|addr addrs IH]; intros t.
  - simpl. split_and!; [done|lia|done].
  - cbn [Bot.check_addresses].
    destruct (check_address_spec chatId addr t) as (Hs1 & Ht1 & Ha1).
    destruct (Bot.check_address srv THRESH_IDLE currentEpoch chatId addr t) as [m1 t1].
    simpl in Hs1, Ht1, Ha1. subst t1.
    destruct (IH (S t)) as (Hs2 & Ht2 & Ha2).
    destruct (Bot.check_addresses srv THRESH_IDLE currentEpoch chatId addrs (S t))
      as [m2 t2].
    simpl in *. split_and!.
    + rewrite fmap_app.
      change ((chatId, addr) :: ?l) with ([(chatId, addr)] ++ l).
      by apply sublist_app.
    + lia.
    + by apply Forall_app.
Qed.

Lemma check_chats_spec chats : ∀ t,
  message_subject <$> fst (Bot.check_chats srv THRESH_IDLE currentEpoch chats t)
    `sublist_of` watching chats ∧
  snd (Bot.check_chats srv THRESH_IDLE currentEpoch chats t)
    = (t + length (watching chats))%nat ∧
  Forall (above_threshold THRESH_IDLE)
         (fst (Bot.check_chats srv THRESH_IDLE currentEpoch chats t)).
Proof.
  induction chats as [|[chatId addrs] chats IH]; intros t.
  - simpl. split_and!; [done|unfold watching; simpl; lia|done].
  - cbn [Bot.check_chats].
    destruct (check_addresses_spec chatId addrs t) as (Hs1 & Ht1 & Ha1).
    destruct (Bot.check_addresses srv THRESH_IDLE currentEpoch chatId addrs t) as [m1 t1].
    simpl in Hs1, Ht1, Ha1. subst t1.
    destruct (IH (t + length addrs)%nat) as (Hs2 & Ht2 & Ha2).
    destruct (Bot.check_chats srv THRESH_IDLE currentEpoch chats (t + length addrs)%nat)
      as [m2 t2].
    simpl in Hs2, Ht2, Ha2. simpl fst. simpl snd.
    change (watching ((chatId, addrs) :: chats))
      with (((λ addr, (chatId, addr)) <$> addrs) ++ watching chats).
    split_and!.
    + rewrite fmap_app. by apply sublist_app.
    + rewrite Ht2, length_app, length_fmap. lia.
    + by apply Forall_app.
Qed.
End MonitorProofs.

(** X14.  In one round [monitorOnce] sends at most one message per chat
    and watched address, in the order of the watchlist, and never a
    message about an address to a chat that does not watch it; an idle
    alert is sent only at or above the threshold.  It sends nothing and
    asks nothing on an empty watchlist; otherwise it asks [/scan] once and,
    when that gives a current epoch, [/scan-text] once per chat and
    address. *)
Theorem monitorOnce_round (srv : Bot.Server) (THRESH_IDLE : Z)
    (wl : list (Z * list string)) (t : nat) :
  let res := Bot.monitorOnce srv THRESH_IDLE wl t in
  message_subject <$> fst res `sublist_of` watching wl ∧
  Forall (above_threshold THRESH_IDLE) (fst res) ∧
  (wl = [] → res = ([], t)) ∧
  (wl ≠ [] → snd res = S t ∨ snd res = (S t + length (watching wl))%nat) ∧
  (∀ chatId sampleProver s rest E,
     wl = (chatId, sampleProver :: s) :: rest →
     Bot.scan srv t sampleProver = Some E → E ≠ 0 →
     snd res = (S t + length (watching wl))%nat).
Proof.
  intros res. subst res. unfold Bot.monitorOnce.
  destruct wl as [|[chatId [|sampleProver s]] rest].
  - simpl. split_and!; try done.
  - simpl fst. simpl snd. split_and!; [apply sublist_nil_l|done|done|by left|done].
  - destruct (Bot.scan srv t sampleProver) as [E|] eqn:Hscan.
    2:{ simpl fst. simpl snd. split_and!; [apply sublist_nil_l|done|done|by left|].
        intros ????? [= <- <- <- <-] ?. congruence. }
    destruct (Z.eqb_spec E 0) as [->|HE].
    { simpl fst. simpl snd.
      split_and!; [apply sublist_nil_l|done|done|by left|].
      intros ????? [= <- <- <- <-] Hs HE0. rewrite Hscan in Hs. by injection Hs as <-. }
    destruct (check_chats_spec srv THRESH_IDLE E ((chatId, sampleProver :: s) :: rest) (S t))
      as (Hs & Ht & Ha).
    split_and!; [done|done|done|by right|done].
Qed.
(** ** The alerts of the two schedulers (C3) *)

Section MonitorAlerts.
Variable srv : Bot.Server.
Variable THRESH_IDLE currentEpoch : Z.


End MonitorAlerts.




(** ** The routes [/scan] and [/scan-text] *)

Lemma route_throws (c : M Reply) w :
  (∀ r w', c w ≠ (Ok r, w')) →
  ∃ e, fst (route c w) = mkReply 500 (Failure (Thrown e)) ∧ fst (c w) = Throw e.
Proof.
  intros Hc. unfold route. destruct (c w) as [[r|e] w'] eqn:Hrun.
  - by destruct (Hc r w').
  - by exists e.
Qed.

(** A payload with a BigInt in it cannot be sent. *)
Lemma res_json_BigInt fields name n :
  (name, JsBigInt n) ∈ fields → res_json fields = throw TypeError.
Proof.
  intros Hin. unfold res_json.
  assert (existsb (λ f, is_BigInt (snd f)) fields = true) as ->; [|done].
  apply existsb_exists. exists (name, JsBigInt n). split; [|done].
  by apply list_elem_of_In.
Qed.

Lemma Server_scan_never_returns env p lb d w r w' :
  (let* stats := ProverClient.scanParticipation env p lb d in
   let* shares := Server.try_shares env p in
   let shown := match shares with
                | Some s => if (s =? 0)%Z then JsNull else JsString (pretty s)
                | None => JsNull
                end in
   res_json (Server.scan_payload stats shown)) w ≠ (Ok r, w').
Proof.
  intros Hrun.
  apply bind_inv_ok in Hrun as (stats & w1 & _ & Hrun).
  apply bind_inv_ok in Hrun as (shares & w2 & _ & Hrun).
  rewrite (res_json_BigInt _ "totalRewardsWindow" (totalRewardsWindow stats)) in Hrun;
    [discriminate Hrun|].
  do 4 right. by left.
Qed.

Lemma Optimized_scan_never_returns env p lb w r w' :
  (let* stats := OptimizedProverClient.scanParticipation env
                   OptimizedProverClient.BATCH_SIZE p lb in
   let* shares := OptimizedServer.try_shares env p in
   let shown := match shares with
                | Some s => JsString (pretty s)
                | None => JsUndefined
                end in
   res_json (OptimizedServer.scan_payload stats shown)) w ≠ (Ok r, w').
Proof.
  intros Hrun.
  apply bind_inv_ok in Hrun as (stats & w1 & _ & Hrun).
  apply bind_inv_ok in Hrun as (shares & w2 & _ & Hrun).
  rewrite (res_json_BigInt _ "totalRewardsWindow" (totalRewardsWindow stats)) in Hrun;
    [discriminate Hrun|].
  do 4 right. by left.
Qed.

Lemma Server_scan_route_status env p lb d eh w :
  status (fst (Server.scan_route env p lb d eh w)) = (if decide (p = "") then 400 else 500).
Proof.
  unfold Server.scan_route. destruct p as [|c p]; [done|].
  rewrite decide_False by done.
  edestruct route_throws as (e & -> & _); [|done].
  intros r w'. apply Server_scan_never_returns.
Qed.

Lemma Optimized_scan_route_status env p lb w :
  status (fst (OptimizedServer.scan_route env p lb w))
  = (if decide (p = "") then 400 else 500).
Proof.
  unfold OptimizedServer.scan_route. destruct p as [|c p]; [done|].
  rewrite decide_False by done.
  edestruct route_throws as (e & -> & _); [|done].
  intros r w'. apply Optimized_scan_never_returns.
Qed.

Lemma data_currentEpoch_failed r :
  status r = 400 ∨ status r = 500 → data_currentEpoch r = None.
Proof. unfold data_currentEpoch. by intros [-> | ->]. Qed.

(** X15.  [/scan] never answers 200 on either server: without a prover
    it answers 400 and does nothing; with one it answers 500, because the
    payload holds the BigInt [totalRewardsWindow], which [res.json] cannot
    serialise.  When the scan itself succeeded, that TypeError is the
    error reported, on the first server. *)
Theorem scan_route_never_answers_200 (env : Env) (p : string) (lb d eh : option Z)
    (w : World) :
  status (fst (Server.scan_route env p lb d eh w)) = (if decide (p = "") then 400 else 500) ∧
  status (fst (OptimizedServer.scan_route env p lb w))
    = (if decide (p = "") then 400 else 500) ∧
  (p = "" → snd (Server.scan_route env p lb d eh w) = w ∧
            snd (OptimizedServer.scan_route env p lb w) = w) ∧
  (∀ stats w1 shares w2,
     p ≠ "" →
     ProverClient.scanParticipation env p (default 600 lb) (default 120 d) w
       = (Ok stats, w1) →
     Server.try_shares env p w1 = (Ok shares, w2) →
     Server.scan_route env p lb d eh w = (mkReply 500 (Failure (Thrown TypeError)), w2)).
Proof.
  split_and!.
  - apply Server_scan_route_status.
  - apply Optimized_scan_route_status.
  - intros ->. done.
  - intros stats w1 shares w2 Hp Hscan Hshares.
    unfold Server.scan_route. destruct p as [|c p]; [done|].
    unfold route. rewrite (bind_ok _ _ _ _ _ Hscan), (bind_ok _ _ _ _ _ Hshares).
    rewrite (res_json_BigInt _ "totalRewardsWindow" (totalRewardsWindow stats)); [done|].
    do 4 right. by left.
Qed.

Lemma scan_route_never_answers_200_witness :
  Server.scan_route env_demo demo_prover (Some 10) None None world0
  = (mkReply 500 (Failure (Thrown TypeError)),
     snd (Server.try_shares env_demo demo_prover
            (snd (ProverClient.scanParticipation env_demo demo_prover 10 120 world0)))).
Proof.
  destruct (scan_route_never_answers_200 env_demo demo_prover (Some 10) None None world0)
    as (_ & _ & _ & H).
  apply (H demo_result_ProverClient
           (snd (ProverClient.scanParticipation env_demo demo_prover 10 120 world0))
           (Some 1)).
  - discriminate.
  - vm_compute. reflexivity.
  - vm_compute. reflexivity.
Defined.

(** X16.  Pointed at either server, the bot never sends a message: the
    round of [monitorOnce] starts with [/scan], which does not answer 200,
    and gives up, whatever [/scan-text] would report. *)
Theorem bot_is_silent_on_these_servers (env : Env) (w : nat → World)
    (scanText : nat → string → option string) (THRESH_IDLE : Z)
    (wl : list (Z * list string)) (t : nat) :
  fst (Bot.monitorOnce (bot_server_first env w scanText) THRESH_IDLE wl t) = [] ∧
  fst (Bot.monitorOnce (bot_server_second env w scanText) THRESH_IDLE wl t) = [].
Proof.
  unfold Bot.monitorOnce.
  destruct wl as [|[chatId [|sampleProver s]] rest]; [done..|].
  unfold bot_server_first, bot_server_second. simpl Bot.scan.
  rewrite !data_currentEpoch_failed; [done|..].
  - rewrite Optimized_scan_route_status. destruct (decide _); auto.
  - rewrite Server_scan_route_status. destruct (decide _); auto.
Qed.

Lemma getSharesFor_dead env p w :
  (index w < length (RpcPool.urls env))%nat →
  (∀ t i p32, respond env t i (GetSharesFor p32) = None) →
  ∃ e w', ProverClient.getSharesFor env p w = (Throw e, w').
Proof.
  intros Hi Hdead. unfold ProverClient.getSharesFor.
  destruct (zeroPadValue32 env p) as [p32|]; [|by eexists _, _].
  simpl lift. unfold bind at 1. unfold ret at 1.
  pose proof (safeCall_failover env (GetSharesFor p32) w Hi) as Hf.
  destruct (failover_elim _ _ _ _ _ _ _ Hf (RpcPool_urls_nonempty env))
    as (_ & _ & new & _ & Hreq & _ & Hres).
  destruct (RpcPool.safeCall env (GetSharesFor p32) w) as [[hex|e] w'] eqn:Hcall.
  - simpl in Hres. destruct Hres as (failed & l & hex' & _ & -> & Hans & _).
    apply Forall_app in Hreq as [_ Hl]. apply Forall_singleton in Hl as [Hrq [t Ht]].
    rewrite Hrq, Hdead in Ht. congruence.
  - rewrite (bind_throw _ _ _ _ _ Hcall). by eexists _, _.
Qed.

Lemma scan_text_route_reply env p lb d eh w :
  p ≠ "" →
  match ProverClient.scanParticipation env p (default 600 lb) (default 120 d) w with
  | (Ok stats, w1) =>
      fst (Server.scan_text_route env p lb d eh w)
      = mkReply 200 (Text (Server.formatProverMessage stats (default 5 eh)
                             match fst (ProverClient.getSharesFor env p w1) with
                             | Ok s => Some s
                             | Throw _ => None
                             end))
  | (Throw e, w1) =>
      Server.scan_text_route env p lb d eh w = (mkReply 500 (Failure (Thrown e)), w1)
  end.
Proof.
  intros Hp. unfold Server.scan_text_route. destruct p as [|c p]; [done|].
  unfold route.
  destruct (ProverClient.scanParticipation env (String c p) (default 600 lb) (default 120 d) w)
    as [[stats|e] w1] eqn:Hscan.
  - rewrite (bind_ok _ _ _ _ _ Hscan).
    unfold Server.try_shares, catch, bind at 1.
    destruct (ProverClient.getSharesFor env (String c p) w1) as [[sh|e] w2] eqn:Hsh; simpl.
    + by rewrite (bind_ok _ _ _ _ _ Hsh).
    + by rewrite (bind_throw _ _ _ _ _ Hsh).
  - by rewrite (bind_throw _ _ _ _ _ Hscan).
Qed.

(** X17.  [/scan-text] of the first server answers 200 exactly when the
    scan returns.  Shares that cannot be read are not fatal: when no
    endpoint answers [getSharesFor], the reply is still the report of the
    scan, without the line of the shares. *)
Theorem scan_text_survives_missing_shares (env : Env) (p : string) (lb d eh : option Z)
    (w : World) :
  (index w < length (RpcPool.urls env))%nat →
  p ≠ "" →
  let res := Server.scan_text_route env p lb d eh w in
  let scan := ProverClient.scanParticipation env p (default 600 lb) (default 120 d) w in
  (status (fst res) = 200 ↔ ∃ stats, fst scan = Ok stats) ∧
  ((∀ t i p32, respond env t i (GetSharesFor p32) = None) →
   ∀ stats, fst scan = Ok stats →
     fst res = mkReply 200 (Text (Server.formatProverMessage stats (default 5 eh) None))).
Proof.
  intros Hi Hp res scan. subst res scan.
  pose proof (scan_text_route_reply env p lb d eh w Hp) as Hreply.
  destruct (ProverClient.scanParticipation env p (default 600 lb) (default 120 d) w)
    as [[stats|e] w1] eqn:Hscan.
  - rewrite Hreply. simpl. split; [split; [intros _; by eexists|done]|].
    intros Hdead ? [= <-].
    assert (index w1 < length (RpcPool.urls env))%nat as Hi1.
    { by apply ProverClient_scan_spec in Hscan as (qs & _ & _ & _ & _ & _ & _ & _ & _ & _ & ?). }
    destruct (getSharesFor_dead env p w1 Hi1 Hdead) as (e & w2 & ->). done.
  - rewrite Hreply. simpl. split; [|done].
    split; [done|]. by intros [? ?].
Qed.

Lemma scan_text_survives_missing_shares_witness :
  status (fst (Server.scan_text_route env_no_shares demo_prover (Some 10) None None world0))
    = 200 ∧
  fst (Server.scan_text_route env_no_shares demo_prover (Some 10) None None world0)
    = mkReply 200 (Text (Server.formatProverMessage demo_result_ProverClient 5 None)).
Proof.
  destruct (scan_text_survives_missing_shares env_no_shares demo_prover (Some 10) None None
              world0 ltac:(vm_compute; lia) ltac:(discriminate)) as [Hiff Hdead].
  split.
  - apply Hiff. exists demo_result_ProverClient. vm_compute. reflexivity.
  - apply Hdead.
    + intros t i p32. reflexivity.
    + vm_compute. reflexivity.
Defined.

(** ** The report as the bot reads it *)

Lemma parseInt_numeral (o : option Z) :
  (∀ l, o = Some l → 0 ≤ l) → Bot.parseInt <$> (pretty <$> o) = o.
Proof.
  intros Hl. destruct o as [l|]; [|done]. simpl. f_equal.
  by apply pretty_nonneg_digits, Hl.
Qed.

(** X18.  The pattern of the bot reads [lastEpochParticipated] back from
    the report of either server: the number when there is one, no match
    when it is null.  The address of the report has no capital L, as no
    checksummed address has, and neither has a formatted amount. *)
Theorem report_read_back (formatEther : Z → string) (stats : ScanResult) (epochHours : Z)
    (shares : option Z) :
  (∀ wei, no_L (formatEther wei) = true) →
  no_L (prover stats) = true →
  (∀ l, lastEpochParticipated stats = Some l → 0 ≤ l) →
  Bot.parseInt <$> Bot.lastEpochMatch (Server.formatProverMessage stats epochHours shares)
    = lastEpochParticipated stats ∧
  Bot.parseInt <$>
    Bot.lastEpochMatch (OptimizedServer.formatProverMessage formatEther stats epochHours shares)
    = lastEpochParticipated stats.
Proof.
  intros Hf Hp Hl. split.
  - rewrite lastEpochMatch_Server_report by done. by apply parseInt_numeral.
  - rewrite lastEpochMatch_Optimized_report by done. by apply parseInt_numeral.
Qed.

Lemma report_read_back_witness :
  Bot.parseInt <$>
    Bot.lastEpochMatch (Server.formatProverMessage demo_result_ProverClient 5 (Some 1))
    = Some 47 ∧
  Bot.parseInt <$>
    Bot.lastEpochMatch
      (OptimizedServer.formatProverMessage demo_formatEther demo_result_Optimized 5 None)
    = Some 47.
Proof.
  destruct (report_read_back demo_formatEther demo_result_ProverClient 5 (Some 1))
    as [H1 _].
  { intros wei. unfold demo_formatEther, no_L. rewrite all_chars_app.
    fold (no_L (pretty wei)). by rewrite pretty_no_L. }
  { vm_compute. reflexivity. }
  { intros l [= <-]. lia. }
  destruct (report_read_back demo_formatEther demo_result_Optimized 5 None)
    as [_ H2].
  { intros wei. unfold demo_formatEther, no_L. rewrite all_chars_app.
    fold (no_L (pretty wei)). by rewrite pretty_no_L. }
  { vm_compute. reflexivity. }
  { intros l [= <-]. lia. }
  split; [exact H1|exact H2].
Defined.

(** X19.  What the bot does with a report of either server: a warning
    that there was no participation when [lastEpochParticipated] is null,
    an idle alert when the current epoch the bot got from [/scan] is at
    least the threshold ahead of it, and nothing otherwise. *)
Theorem bot_reads_report (formatEther : Z → string) (srv : Bot.Server)
    (THRESH_IDLE currentEpoch chatId : Z) (addr : string) (t : nat)
    (stats : ScanResult) (epochHours : Z) (shares : option Z) :
  (∀ wei, no_L (formatEther wei) = true) →
  no_L (prover stats) = true →
  (∀ l, lastEpochParticipated stats = Some l → 0 ≤ l) →
  Bot.scanText srv t addr = Some (Server.formatProverMessage stats epochHours shares) ∨
  Bot.scanText srv t addr
    = Some (OptimizedServer.formatProverMessage formatEther stats epochHours shares) →
  fst (Bot.check_address srv THRESH_IDLE currentEpoch chatId addr t)
  = match lastEpochParticipated stats with
    | None => [Bot.NoParticipation chatId addr]
    | Some l =>
        if (THRESH_IDLE <=? currentEpoch - l)%Z
        then [Bot.IdleAlert chatId addr (currentEpoch - l)]
        else []
    end.
Proof.
  intros Hf Hp Hl Hreport. unfold Bot.check_address.
  assert (∃ text, Bot.scanText srv t addr = Some text ∧
                  Bot.lastEpochMatch text = pretty <$> lastEpochParticipated stats)
    as (text & -> & ->).
  { destruct Hreport as [Hr|Hr]; eexists; (split; [exact Hr|]).
    - by apply lastEpochMatch_Server_report.
    - by apply lastEpochMatch_Optimized_report. }
  destruct (lastEpochParticipated stats) as [l|]; [|done]. simpl.
  destruct (pretty_nonneg_digits l (Hl l eq_refl)) as (_ & _ & ->).
  by destruct (THRESH_IDLE <=? currentEpoch - l)%Z.
Qed.

Lemma bot_reads_report_witness :
  fst (Bot.check_address
         (Bot.mkServer (λ _ _, Some 100)
            (λ _ _, Some (Server.formatProverMessage demo_result_ProverClient 5 None)))
         6 100 1 demo_prover 0)
  = [Bot.IdleAlert 1 demo_prover 53].
Proof.
  rewrite (bot_reads_report demo_formatEther
             (Bot.mkServer (λ _ _, Some 100)
                (λ _ _, Some (Server.formatProverMessage demo_result_ProverClient 5 None)))
             6 100 1 demo_prover 0 demo_result_ProverClient 5 None).
  - reflexivity.
  - intros wei. unfold demo_formatEther, no_L. rewrite all_chars_app.
    fold (no_L (pretty wei)). by rewrite pretty_no_L.
  - vm_compute. reflexivity.
  - intros l [= <-]. lia.
  - left. reflexivity.
Defined.

(** ** prover.mjs: addresses are compared in lower case *)

Lemma credit_same_up_to_case balances a b :
  same_up_to_case a b → Prover.credit balances a = Prover.credit balances b.
Proof. intros [Hu Ha]. unfold Prover.credit. by rewrite Hu, Ha. Qed.

Lemma debit_same_up_to_case balances a b :
  same_up_to_case a b → Prover.debit balances a = Prover.debit balances b.
Proof. intros [Hu Ha]. unfold Prover.debit. by rewrite Hu, Ha. Qed.

Lemma fold_left_same_up_to_case (f : gmap string spec_float → Prover.Log → gmap string spec_float)
    logs logs' :
  (∀ balances a b, same_up_to_case a b → f balances a = f balances b) →
  Forall2 same_up_to_case logs logs' →
  ∀ balances, fold_left f logs balances = fold_left f logs' balances.
Proof.
  intros Hf. induction 1 as [|a b logs logs' Hab _ IH]; intros balances; [done|].
  simpl. rewrite (Hf _ _ _ Hab). apply IH.
Qed.

(** X20.  The count of [getActiveProvers] does not depend on the letter
    case in which the events spell an address: events that differ only in
    that are counted for the same prover. *)
Theorem getActiveProvers_ignores_case
    (stakedLogs withdrawnLogs slashedLogs stakedLogs' withdrawnLogs' slashedLogs'
       : list Prover.Log) :
  Forall2 same_up_to_case stakedLogs stakedLogs' →
  Forall2 same_up_to_case withdrawnLogs withdrawnLogs' →
  Forall2 same_up_to_case slashedLogs slashedLogs' →
  Prover.getActiveProvers stakedLogs withdrawnLogs slashedLogs
  = Prover.getActiveProvers stakedLogs' withdrawnLogs' slashedLogs'.
Proof.
  intros Hs Hw Hsl. unfold Prover.getActiveProvers.
  rewrite (fold_left_same_up_to_case Prover.credit _ _ credit_same_up_to_case Hs).
  rewrite (fold_left_same_up_to_case Prover.debit _ _ debit_same_up_to_case Hw).
  rewrite (fold_left_same_up_to_case Prover.debit _ _ debit_same_up_to_case Hsl).
  done.
Qed.

Lemma getActiveProvers_ignores_case_witness :
  Prover.getActiveProvers [Prover.mkLog "0xAbCd" 5; Prover.mkLog "0xabcd" 2]
                          [Prover.mkLog "0xABCD" 3] []
  = Prover.getActiveProvers [Prover.mkLog "0xabcd" 5; Prover.mkLog "0xabcd" 2]
                            [Prover.mkLog "0xabcd" 3] [].
Proof.
  apply getActiveProvers_ignores_case.
  - repeat constructor.
  - repeat constructor.
  - constructor.
Defined.

(** The two models of [Number], on integers and on binary64 values, agree
    on sample epochs and amounts, among them 2^53 + 1, 2^53 + 3 and
    2^256 - 1. *)
Example Number_is_binary64 :
  Forall (λ n, integer_of (Prover.Number n) = Some (Number n))
         [ 0; 5; 90; 2 ^ 53 - 1; 2 ^ 53; 2 ^ 53 + 1; 2 ^ 53 + 3; 2 ^ 54 + 2; 2 ^ 54 + 6;
           2 ^ 60 + 1; 100000000000000000001; 2 ^ 64 - 1; 2 ^ 256 - 1 ].
Proof. repeat constructor. Qed.
(** ** Epochs and windows out of range *)

Section OutOfRange.
Variable env : Env.

Lemma reward_calls_unsafe_head p e batch w :
  toBeHex_throws e = true →
  mapM (OptimizedProverClient.reward_call env p) (e :: batch) w = (Throw InvalidArgument, w).
Proof.
  intros He. cbn [mapM]. unfold bind at 1, OptimizedProverClient.reward_call at 1.
  by rewrite He.
Qed.

Lemma getBatchRewards_unsafe_head batchSize e epochs p w :
  (1 ≤ batchSize)%nat →
  toBeHex_throws e = true →
  ∃ w', OptimizedProverClient.getBatchRewards env batchSize (e :: epochs) p w
          = (Throw InvalidArgument, w') ∧
        attempts w' = attempts w ∧ index w' = index w ∧ cache w' = cache w ∧
        watchlist w' = watchlist w ∧ alerts w' = alerts w.
Proof.
  intros Hb He. unfold OptimizedProverClient.getBatchRewards.
  destruct (split_batches_shape batchSize (e :: epochs) (length (e :: epochs)) 0 w Hb
              ltac:(lia))
    as (batches & w1 & Hsplit & Hcat & Hall & _ & _ & Ha & Hi & Hc & Hwl & Hal).
  rewrite drop_0 in Hcat. rewrite (bind_ok _ _ _ _ _ Hsplit).
  destruct batches as [|[|e' b] batches].
  - done.
  - inversion Hall as [|?? Hlen _]; subst. simpl in Hlen. lia.
  - simpl in Hcat. injection Hcat as -> _.
    exists w1. split; [|done].
    cbn [mapM]. unfold bind at 1, bind at 1, OptimizedProverClient.batch_rewards at 1.
    unfold bind at 1. by rewrite (reward_calls_unsafe_head p e b w1 He).
Qed.

Lemma window_epochs_head L E :
  1 ≤ Z.min L E →
  ∃ rest, OptimizedProverClient.window_epochs L E = E :: rest.
Proof.
  intros Hmin. unfold OptimizedProverClient.window_epochs.
  destruct (Z.to_nat (Z.min L E)) as [|n] eqn:Hn; [lia|].
  simpl. eexists. f_equal. lia.
Qed.

Lemma Optimized_getCurrentEpoch_Number w E w' :
  OptimizedProverClient.getCurrentEpoch env w = (Ok E, w') → ∃ n, 0 ≤ n ∧ E = Number n.
Proof.
  intros H. unfold OptimizedProverClient.getCurrentEpoch in H.
  apply bind_inv_ok in H as ([hex|] & w1 & _ & H); [|by unfold throw in H].
  apply bind_inv_ok in H as (n & w2 & Hn & H).
  apply lift_inv_ok in Hn as [Hn ->]. unfold ret in H. simplify_eq.
  exists n. split; [by eapply BigInt_nonneg|done].
Qed.
End OutOfRange.

(** X23.  A current epoch above 2^53 - 1 cannot be put into a request:
    with a window that is not empty, the scan throws when it builds the
    request for the current epoch itself, and no reward is asked for.  In
    [ProverClient] nothing at all happens after the call for the current
    epoch. *)
Theorem unsafe_epoch_aborts_the_scan (env : Env) (p : string) (L E : Z) (w : World) :
  MAX_SAFE_INTEGER < E →
  (fst (ProverClient.getCurrentEpoch env w) = Ok E → 0 ≤ L →
   ∀ d, ProverClient.scanParticipation env p L d w
        = (Throw InvalidArgument, snd (ProverClient.getCurrentEpoch env w)))
  ∧
  (∀ batchSize,
     (1 ≤ batchSize)%nat →
     cache w !! OptimizedProverClient.cacheKey p L = None →
     fst (OptimizedProverClient.getCurrentEpoch env w) = Ok E →
     1 ≤ L ≤ OptimizedProverClient.MAX_ARRAY_LENGTH →
     let res := OptimizedProverClient.scanParticipation env batchSize p L w in
     fst res = Throw InvalidArgument ∧
     attempts (snd res) = attempts (snd (OptimizedProverClient.getCurrentEpoch env w)) ∧
     cache (snd res) = cache w).
Proof.
  intros HE. assert (Hhex : toBeHex_throws E = true).
  { unfold toBeHex_throws. apply orb_true_iff. right. by apply Z.ltb_lt. }
  split.
  - intros Hepoch HL d. unfold ProverClient.scanParticipation.
    destruct (ProverClient.getCurrentEpoch env w) as [re w1] eqn:Hget.
    simpl in Hepoch. subst re. rewrite (bind_ok _ _ _ _ _ Hget). simpl snd.
    destruct (ProverClient_getCurrentEpoch_Number env _ _ _ Hget) as (n & Hn & HEn).
    assert (Hstart : Z.max 0 (Number (E - L)) ≤ E).
    { pose proof (Number_nonneg n Hn). rewrite HEn.
      pose proof (Number_le (Number n - L) n Hn ltac:(lia)). lia. }
    set (start := Z.max 0 (Number (E - L))) in *.
    assert (Hfuel : ∃ fuel, Z.to_nat (E - start + 1) = S fuel).
    { exists (Z.to_nat (E - start)). lia. }
    destruct Hfuel as [fuel ->].
    cbn [ProverClient.scan_loop].
    destruct (Z.leb_spec start E) as [_|?]; [|lia].
    unfold bind at 1, bind at 1, ProverClient.getRewardForEpoch at 1.
    by rewrite Hhex.
  - intros batchSize Hb Hmiss Hepoch HL res.
    assert (∃ w2, OptimizedProverClient.scanParticipation env batchSize p L w
                    = (Throw InvalidArgument, w2) ∧
                  attempts w2
                    = attempts (snd (OptimizedProverClient.getCurrentEpoch env w)) ∧
                  cache w2 = cache w) as (w2 & Hscan & Ha2 & Hc2);
      [|subst res; by rewrite Hscan].
    unfold OptimizedProverClient.scanParticipation.
    assert (Hget : NodeCache.get (OptimizedProverClient.cacheKey p L) w = (Ok None, w)).
    { unfold NodeCache.get. by rewrite Hmiss. }
    rewrite (bind_ok _ _ _ _ _ Hget). unfold bind at 1.
    destruct (OptimizedProverClient.getCurrentEpoch env w) as [re w1] eqn:Hge.
    simpl in Hepoch. subst re. rewrite (bind_ok _ _ _ _ _ Hge). simpl snd.
    assert (Hc1 : cache w1 = cache w).
    { pose proof (getCurrentEpoch_set_cache env (cache w) w) as Hs.
      replace (set_cache (cache w) w) with w in Hs by (by destruct w).
      rewrite Hge in Hs. simpl in Hs. injection Hs as Hs. by rewrite Hs. }
    assert (Hlen : OptimizedProverClient.Array_from_length (Z.min L E) w1 = (Ok tt, w1)).
    { unfold OptimizedProverClient.Array_from_length.
      by destruct (Z.ltb_spec OptimizedProverClient.MAX_ARRAY_LENGTH (Z.min L E)); [lia|]. }
    rewrite (bind_ok _ _ _ _ _ Hlen).
    destruct (window_epochs_head L E) as [rest ->].
    { unfold MAX_SAFE_INTEGER in HE. lia. }
    destruct (getBatchRewards_unsafe_head env batchSize E rest p w1 Hb Hhex)
      as (w2 & Hrun & Ha & _ & Hc & _).
    rewrite (bind_throw _ _ _ _ _ Hrun). exists w2. split_and!; [done|done|congruence].
Qed.

Lemma unsafe_epoch_aborts_the_scan_witness :
  fst (ProverClient.scanParticipation env_far demo_prover 10 120 world0)
    = Throw InvalidArgument ∧
  length (attempts (snd (ProverClient.scanParticipation env_far demo_prover 10 120 world0)))
    = 1%nat ∧
  fst (OptimizedProverClient.scanParticipation env_far 50 demo_prover 10 world0)
    = Throw InvalidArgument ∧
  length (attempts (snd (OptimizedProverClient.scanParticipation env_far 50 demo_prover 10
                           world0)))
    = 1%nat.
Proof.
  assert (HE : MAX_SAFE_INTEGER < 2 ^ 53) by (vm_compute; reflexivity).
  destruct (unsafe_epoch_aborts_the_scan env_far demo_prover 10 (2 ^ 53) world0 HE)
    as [H1 H2].
  specialize (H1 ltac:(vm_compute; reflexivity) ltac:(lia) 120).
  destruct (H2 50%nat ltac:(lia) ltac:(vm_compute; reflexivity)
               ltac:(vm_compute; reflexivity) ltac:(vm_compute; split; discriminate))
    as (H3 & H4 & _).
  split_and!.
  - by rewrite H1.
  - by rewrite H1.
  - exact H3.
  - by rewrite H4.
Defined.

(** X24.  The optimized client builds the window as an array: when
    min(L, E) is above 2^32 - 1 the scan throws right after the call for
    the current epoch, asks for no reward and caches nothing. *)
Theorem oversized_window_is_refused (env : Env) (batchSize : nat) (p : string) (L E : Z)
    (w : World) :
  cache w !! OptimizedProverClient.cacheKey p L = None →
  fst (OptimizedProverClient.getCurrentEpoch env w) = Ok E →
  OptimizedProverClient.MAX_ARRAY_LENGTH < Z.min L E →
  OptimizedProverClient.scanParticipation env batchSize p L w
  = (Throw RangeError, snd (OptimizedProverClient.getCurrentEpoch env w)).
Proof.
  intros Hmiss Hepoch Hbig. unfold OptimizedProverClient.scanParticipation.
  assert (Hget : NodeCache.get (OptimizedProverClient.cacheKey p L) w = (Ok None, w)).
  { unfold NodeCache.get. by rewrite Hmiss. }
  rewrite (bind_ok _ _ _ _ _ Hget). unfold bind at 1.
  destruct (OptimizedProverClient.getCurrentEpoch env w) as [re w1] eqn:Hge.
  simpl in Hepoch. subst re. rewrite (bind_ok _ _ _ _ _ Hge). simpl snd.
  unfold bind at 1, OptimizedProverClient.Array_from_length.
  by destruct (Z.ltb_spec OptimizedProverClient.MAX_ARRAY_LENGTH (Z.min L E)); [|lia].
Qed.

Lemma oversized_window_is_refused_witness :
  OptimizedProverClient.scanParticipation env_far 50 demo_prover (2 ^ 32) world0
  = (Throw RangeError, snd (OptimizedProverClient.getCurrentEpoch env_far world0)).
Proof.
  apply (oversized_window_is_refused env_far 50 demo_prover (2 ^ 32) (2 ^ 53) world0).
  - vm_compute; reflexivity.
  - vm_compute; reflexivity.
  - vm_compute; reflexivity.
Defined.
